(** * A red-black tree with parent pointers (red_black_tree.py)

    The Python program keeps its nodes as mutable objects that point to
    each other (parent, left, right).  We embed it with an explicit object
    store: a finite map from addresses to node records.  Every method of
    [RedBlackTree] becomes a function in a small state-and-error monad over
    the tree object (store, root, black_height).  Loops and recursive
    methods take a fuel argument; dereferencing [None] is the error
    [AttributeError]. *)

From Stdlib Require Import ZArith Lia.
From stdpp Require Import sorting gmultiset gmap list.

Local Open Scope Z_scope.

(** ** Data model *)

(** Object identities. *)
Abbreviation addr := nat (only parsing).

(** [RBNode.color]: the source stores 0 for red and 1 for black, and never
    any other number. *)
Inductive color := Red | Black.

#[global] Instance color_eq_dec : EqDecision color.
Proof. solve_decision. Defined.

Definition is_red (c : color) : bool :=
  match c with Red => true | Black => false end.

Definition is_black (c : color) : bool :=
  match c with Red => false | Black => true end.

(** class RBNode *)
Record RBNode := mkNode {
  data : Z;
  ncolor : color;
  parent : option addr;
  left : option addr;
  right : option addr
}.

#[global] Instance RBNode_eq_dec : EqDecision RBNode.
Proof. solve_decision. Defined.

(** class RedBlackTree, together with the store its nodes live in. *)
Record RedBlackTree := mkTree {
  heap : gmap nat RBNode;
  root : option addr;
  black_height : Z
}.

(** RedBlackTree.__init__ *)
Definition init : RedBlackTree :=
  {| heap := ∅; root := None; black_height := 0 |}.

(** ** The state-and-error monad *)

Inductive result (A : Type) :=
| Ok (a : A)
| AttributeError
| OutOfFuel.
Arguments Ok {A} a.
Arguments AttributeError {A}.
Arguments OutOfFuel {A}.

Definition M (A : Type) : Type := RedBlackTree → result (A * RedBlackTree).

Definition ret {A} (a : A) : M A := λ st, Ok (a, st).

Definition bind {A B} (m : M A) (f : A → M B) : M B := λ st,
  match m st with
  | Ok (a, st') => f a st'
  | AttributeError => AttributeError
  | OutOfFuel => OutOfFuel
  end.

Definition raise {A} : M A := λ _, AttributeError.
Definition out_of_fuel {A} : M A := λ _, OutOfFuel.

Notation "x <- e ;; k" := (bind e (λ x, k))
  (at level 100, e at next level, right associativity).
Notation "e ;; k" := (bind e (λ _, k))
  (at level 100, right associativity).

(** Attribute access on a reference that may be [None]. *)
Definition deref (o : option addr) : M addr :=
  match o with Some a => ret a | None => raise end.

Definition load (a : addr) : M RBNode := λ st,
  match heap st !! a with
  | Some n => Ok (n, st)
  | None => AttributeError
  end.

Definition store (a : addr) (n : RBNode) : M unit := λ st,
  Ok (tt, {| heap := <[a := n]> (heap st); root := root st;
             black_height := black_height st |}).

(** RBNode(data, parent): a new red node without children. *)
Definition alloc (d : Z) (p : option addr) : M addr := λ st,
  let a := fresh (dom (heap st)) in
  Ok (a, {| heap := <[a := mkNode d Red p None None]> (heap st);
            root := root st; black_height := black_height st |}).

Definition get_data (a : addr) : M Z := n <- load a ;; ret (data n).
Definition get_color (a : addr) : M color := n <- load a ;; ret (ncolor n).
Definition get_parent (a : addr) : M (option addr) := n <- load a ;; ret (parent n).
Definition get_left (a : addr) : M (option addr) := n <- load a ;; ret (left n).
Definition get_right (a : addr) : M (option addr) := n <- load a ;; ret (right n).

Definition set_data (a : addr) (d : Z) : M unit :=
  n <- load a ;; store a (mkNode d (ncolor n) (parent n) (left n) (right n)).
Definition set_color (a : addr) (c : color) : M unit :=
  n <- load a ;; store a (mkNode (data n) c (parent n) (left n) (right n)).
Definition set_parent (a : addr) (p : option addr) : M unit :=
  n <- load a ;; store a (mkNode (data n) (ncolor n) p (left n) (right n)).
Definition set_left (a : addr) (l : option addr) : M unit :=
  n <- load a ;; store a (mkNode (data n) (ncolor n) (parent n) l (right n)).
Definition set_right (a : addr) (r : option addr) : M unit :=
  n <- load a ;; store a (mkNode (data n) (ncolor n) (parent n) (left n) r).

Definition get_root : M (option addr) := λ st, Ok (root st, st).
Definition set_root (r : option addr) : M unit := λ st,
  Ok (tt, {| heap := heap st; root := r; black_height := black_height st |}).
(** self.black_height += 1 *)
Definition incr_black_height : M unit := λ st,
  Ok (tt, {| heap := heap st; root := root st;
             black_height := black_height st + 1 |}).

(** ** RedBlackTree.rotation (lines 335-387) *)

Definition rotation (current : addr) : M unit :=
  parent <- get_parent current ;;
  match parent with
  | None => ret tt
  | Some parent =>
    pr <- get_right parent ;;
    if bool_decide (pr = Some current) then
      (* left rotation *)
      cl <- get_left current ;;
      set_right parent cl ;;
      pr' <- get_right parent ;;
      match pr' with
      | Some m => set_parent m (Some parent)
      | None => ret tt
      end ;;
      rt <- get_root ;;
      (if bool_decide (rt = Some parent) then
         set_root (Some current) ;;
         set_parent current None
       else
         grandparent <- get_parent parent ;;
         g <- deref grandparent ;;
         gl <- get_left g ;;
         (if bool_decide (gl = Some parent)
          then set_left g (Some current)
          else set_right g (Some current)) ;;
         set_parent current grandparent) ;;
      set_left current (Some parent) ;;
      set_parent parent (Some current)
    else
      (* right rotation *)
      cr <- get_right current ;;
      set_left parent cr ;;
      pl' <- get_left parent ;;
      match pl' with
      | Some m => set_parent m (Some parent) ;; set_parent current None
      | None => ret tt
      end ;;
      rt <- get_root ;;
      (if bool_decide (rt = Some parent) then
         set_root (Some current) ;;
         set_parent current None
       else
         grandparent <- get_parent parent ;;
         g <- deref grandparent ;;
         gl <- get_left g ;;
         (if bool_decide (gl = Some parent)
          then set_left g (Some current)
          else set_right g (Some current)) ;;
         set_parent current grandparent) ;;
      set_right current (Some parent) ;;
      set_parent parent (Some current)
  end.

(** ** RedBlackTree.insert_rebalance (lines 66-126) *)

(** The body of the method; [rec] is the recursive call. *)
Definition insert_rebalance_body (rec : addr → M unit) (current : addr) : M unit :=
  parent <- get_parent current ;;
  p <- deref parent ;;
  grandparent <- get_parent p ;;
  g <- deref grandparent ;;
  gl <- get_left g ;;
  uncle <- (if bool_decide (gl = Some p) then get_right g else get_left g) ;;
  uncle_red <- match uncle with
    | None => ret false
    | Some u => c <- get_color u ;; ret (is_red c)
    end ;;
  if uncle_red then
    u <- deref uncle ;;
    set_color p Black ;;
    set_color u Black ;;
    set_color g Red ;;
    rt <- get_root ;;
    if bool_decide (Some g = rt) then
      set_color g Black ;;
      incr_black_height
    else
      ggp <- get_parent g ;;
      if bool_decide (ggp = rt) then ret tt
      else
        gg <- deref ggp ;;
        c <- get_color gg ;;
        if is_red c then rec g else ret tt
  else
    inside_left <- (gl <- get_left g ;;
       if bool_decide (Some p = gl)
       then pr <- get_right p ;; ret (bool_decide (Some current = pr))
       else ret false) ;;
    cp <- (if inside_left : bool then
         rotation current ;; ret (p, current)
       else
         inside_right <- (gr <- get_right g ;;
            if bool_decide (Some p = gr)
            then pl <- get_left p ;; ret (bool_decide (Some current = pl))
            else ret false) ;;
         if inside_right : bool then
           rotation current ;; ret (p, current)
         else ret (current, p)) ;;
    let p := cp.2 in
    rotation p ;;
    set_color g Red ;;
    set_color p Black.

Fixpoint insert_rebalance (fuel : nat) (current : addr) : M unit :=
  match fuel with
  | O => out_of_fuel
  | S fuel => insert_rebalance_body (insert_rebalance fuel) current
  end.

(** ** RedBlackTree.insert (lines 22-62) *)

(** The [while True] loop; it returns the new node. *)
Fixpoint insert_loop (fuel : nat) (d : Z) (current : addr) : M addr :=
  match fuel with
  | O => out_of_fuel
  | S fuel =>
    cd <- get_data current ;;
    if bool_decide (d < cd) then
      cl <- get_left current ;;
      match cl with
      | Some l => insert_loop fuel d l
      | None =>
        n <- alloc d (Some current) ;;
        set_left current (Some n) ;;
        cl <- get_left current ;;
        deref cl
      end
    else
      cr <- get_right current ;;
      match cr with
      | Some r => insert_loop fuel d r
      | None =>
        n <- alloc d (Some current) ;;
        set_right current (Some n) ;;
        cr <- get_right current ;;
        deref cr
      end
  end.

Definition insert (fuel : nat) (d : Z) : M unit :=
  rt <- get_root ;;
  match rt with
  | None =>
    new_node <- alloc d None ;;
    set_color new_node Black ;;
    set_root (Some new_node) ;;
    incr_black_height
  | Some r =>
    current <- insert_loop fuel d r ;;
    parent <- get_parent current ;;
    p <- deref parent ;;
    pc <- get_color p ;;
    if is_red pc then insert_rebalance fuel current else ret tt
  end.

(** ** RedBlackTree.search (lines 391-404) *)

(** The result [None] stands for the [False] the method returns when the
    value is not in the tree. *)
Fixpoint search_loop (fuel : nat) (d : Z) (current : option addr)
  : M (option addr) :=
  match current with
  | None => ret None
  | Some c =>
    match fuel with
    | O => out_of_fuel
    | S fuel =>
      cd <- get_data c ;;
      if bool_decide (d = cd) then ret (Some c)
      else if bool_decide (d < cd) then
        cl <- get_left c ;; search_loop fuel d cl
      else
        cr <- get_right c ;; search_loop fuel d cr
    end
  end.

Definition search (fuel : nat) (d : Z) : M (option addr) :=
  rt <- get_root ;; search_loop fuel d rt.

(** ** RedBlackTree.delete_rebalance (lines 234-330) *)

(** The strings 'left' and 'right' of [sibling_parent_relationship]. *)
Inductive relationship := RelLeft | RelRight.

(** Lines 248-253, repeated at 264-269: the other child of [parent] and
    the side it is on. *)
Definition sibling_of (parent current : addr) : M (option addr * relationship) :=
  pl <- get_left parent ;;
  if bool_decide (pl = Some current) then
    s <- get_right parent ;; ret (s, RelRight)
  else
    s <- get_left parent ;; ret (s, RelLeft).

(** [x is not None and x.color == 0] *)
Definition is_red_node (x : option addr) : M bool :=
  match x with
  | None => ret false
  | Some a => c <- get_color a ;; ret (is_red c)
  end.

(** [x is None or x.color == 1] *)
Definition is_none_or_black (x : option addr) : M bool :=
  match x with
  | None => ret true
  | Some a => c <- get_color a ;; ret (is_black c)
  end.

(** Lines 288-308 for [RelRight], 309-329 for [RelLeft]: a red nephew
    exists. *)
Definition delete_rebalance_red_nephew
    (parent sibling : addr) (rel : relationship) : M unit :=
  match rel with
  | RelRight =>
    sr <- get_right sibling ;;
    outside_black <- is_none_or_black sr ;;
    sibling <- (if outside_black : bool then
         nephew <- get_left sibling ;;
         n <- deref nephew ;;
         rotation n ;;
         set_color n Black ;;
         set_color sibling Red ;;
         ret n
       else ret sibling) ;;
    rotation sibling ;;
    pc <- get_color parent ;;
    set_color sibling pc ;;
    set_color parent Black ;;
    sr <- get_right sibling ;;
    r <- deref sr ;;
    set_color r Black
  | RelLeft =>
    sl <- get_left sibling ;;
    outside_black <- is_none_or_black sl ;;
    sibling <- (if outside_black : bool then
         nephew <- get_right sibling ;;
         n <- deref nephew ;;
         rotation n ;;
         set_color n Black ;;
         set_color sibling Red ;;
         ret n
       else ret sibling) ;;
    rotation sibling ;;
    pc <- get_color parent ;;
    set_color sibling pc ;;
    set_color parent Black ;;
    sl <- get_left sibling ;;
    l <- deref sl ;;
    set_color l Black
  end.

(** The body of the method; [rec] is the recursive call. *)
Definition delete_rebalance_body (rec : addr → M bool) (current : addr) : M bool :=
  cl <- get_left current ;;
  left_red <- is_red_node cl ;;
  if left_red : bool then
    l <- deref cl ;;
    set_color l Black ;;
    ret true
  else
  cr <- get_right current ;;
  right_red <- is_red_node cr ;;
  if right_red : bool then
    r <- deref cr ;;
    set_color r Black ;;
    ret true
  else
  rt <- get_root ;;
  if bool_decide (Some current = rt) then ret true
  else
    parent <- get_parent current ;;
    p <- deref parent ;;
    sr <- sibling_of p current ;;
    s <- deref sr.1 ;;
    sc <- get_color s ;;
    sr <- (if is_red sc then
         rotation s ;;
         set_color p Red ;;
         set_color s Black ;;
         sibling_of p current
       else ret sr) ;;
    s <- deref sr.1 ;;
    both_black <- (sl <- get_left s ;;
       lb <- is_none_or_black sl ;;
       if lb : bool then
         sr <- get_right s ;; is_none_or_black sr
       else ret false) ;;
    if both_black : bool then
      pc <- get_color p ;;
      if is_black pc then
        success <- rec p ;;
        set_color s Red ;;
        ret success
      else
        set_color s Red ;;
        set_color p Black ;;
        ret true
    else
      delete_rebalance_red_nephew p s sr.2 ;;
      ret true.

Fixpoint delete_rebalance (fuel : nat) (current : addr) : M bool :=
  match fuel with
  | O => out_of_fuel
  | S fuel => delete_rebalance_body (delete_rebalance fuel) current
  end.

(** ** RedBlackTree.delete_helper (lines 143-229) *)

(** Lines 210-212: [while inorder_predecessor.right is not None]. *)
Fixpoint walk_right (fuel : nat) (a : addr) (count : Z) : M (addr * Z) :=
  match fuel with
  | O => out_of_fuel
  | S fuel =>
    r <- get_right a ;;
    match r with
    | None => ret (a, count)
    | Some r => walk_right fuel r (count + 1)
    end
  end.

(** Lines 214-216: [while inorder_successor.left is not None]. *)
Fixpoint walk_left (fuel : nat) (a : addr) (count : Z) : M (addr * Z) :=
  match fuel with
  | O => out_of_fuel
  | S fuel =>
    l <- get_left a ;;
    match l with
    | None => ret (a, count)
    | Some l => walk_left fuel l (count + 1)
    end
  end.

(** [a.data, b.data = b.data, a.data] *)
Definition swap_data (a b : addr) : M unit :=
  bd <- get_data b ;;
  ad <- get_data a ;;
  set_data a bd ;;
  set_data b ad.

(** [if current.color == 1: self.delete_rebalance(current)] *)
Definition rebalance_if_black (fuel : nat) (current : addr) : M unit :=
  c <- get_color current ;;
  if is_black c then delete_rebalance fuel current ;; ret tt else ret tt.

(** Lines 169-179 and 187-197: put [child] (the only child of [current],
    read again from [current] by [get_child]) in the place of [current]. *)
Definition replace_by_child (parent : option addr) (current : addr)
    (get_child : addr → M (option addr)) : M unit :=
  match parent with
  | Some p =>
    pl <- get_left p ;;
    if bool_decide (pl = Some current) then
      ch <- get_child current ;;
      set_left p ch ;;
      pl <- get_left p ;;
      l <- deref pl ;;
      set_parent l (Some p)
    else
      ch <- get_child current ;;
      set_right p ch ;;
      pr <- get_right p ;;
      r <- deref pr ;;
      set_parent r (Some p)
  | None =>
    ch <- get_child current ;;
    set_root ch ;;
    rt <- get_root ;;
    r <- deref rt ;;
    set_parent r None
  end.

(** The body of the method; [rec] is the recursive call, [fuel] bounds the
    loops and the rebalancing. *)
Definition delete_helper_body (fuel : nat) (rec : addr → M bool)
    (current : addr) : M bool :=
  parent <- get_parent current ;;
  cl <- get_left current ;;
  match cl with
  | None =>
    cr <- get_right current ;;
    match cr with
    | None =>
      match parent with
      | Some p =>
        rebalance_if_black fuel current ;;
        pl <- get_left p ;;
        (if bool_decide (pl = Some current)
         then set_left p None
         else set_right p None) ;;
        set_parent current None
      | None => set_root None
      end ;;
      ret true
    | Some _ =>
      rebalance_if_black fuel current ;;
      replace_by_child parent current get_right ;;
      ret true
    end
  | Some pred0 =>
    cr <- get_right current ;;
    match cr with
    | None =>
      rebalance_if_black fuel current ;;
      replace_by_child parent current get_left ;;
      ret true
    | Some succ0 =>
      pc <- walk_right fuel pred0 0 ;;
      sc <- walk_left fuel succ0 0 ;;
      if bool_decide (pc.2 > sc.2) then
        swap_data current pc.1 ;;
        rec pc.1
      else
        swap_data current sc.1 ;;
        rec sc.1
    end
  end.

Fixpoint delete_helper (fuel : nat) (current : addr) : M bool :=
  match fuel with
  | O => out_of_fuel
  | S fuel => delete_helper_body fuel (delete_helper fuel) current
  end.

(** ** RedBlackTree.delete (lines 130-135) *)

Definition delete (fuel : nat) (d : Z) : M bool :=
  current <- search fuel d ;;
  match current with
  | None => ret false
  | Some c => delete_helper fuel c
  end.

(** ** Running the public operations *)

Inductive op := Insert (d : Z) | Delete (d : Z).

(** One operation; a delete also reports what it returned. *)
Definition run_op (fuel : nat) (o : op) : M (option bool) :=
  match o with
  | Insert d => insert fuel d ;; ret None
  | Delete d => b <- delete fuel d ;; ret (Some b)
  end.

(** A sequence of operations, with the log of what each returned. *)
Fixpoint run (fuel : nat) (ops : list op) : M (list (option bool)) :=
  match ops with
  | [] => ret []
  | o :: ops =>
    b <- run_op fuel o ;;
    bs <- run fuel ops ;;
    ret (b :: bs)
  end.

Definition tree_after (fuel : nat) (ops : list op) : result RedBlackTree :=
  match run fuel ops init with
  | Ok (_, st) => Ok st
  | AttributeError => AttributeError
  | OutOfFuel => OutOfFuel
  end.

(** ** Reading the store as a tree *)

(** The shape the store is meant to hold: a binary tree whose nodes carry
    their address, colour and value. *)
Inductive tree :=
| Leaf
| Node (a : addr) (c : color) (l : tree) (v : Z) (r : tree).

Definition root_of (t : tree) : option addr :=
  match t with Leaf => None | Node a _ _ _ _ => Some a end.

Definition root_color (t : tree) : color :=
  match t with Leaf => Black | Node _ c _ _ _ => c end.

Fixpoint addrs (t : tree) : list addr :=
  match t with
  | Leaf => []
  | Node a _ l _ r => addrs l ++ a :: addrs r
  end.

(** In-order traversal. *)
Fixpoint inorder (t : tree) : list Z :=
  match t with
  | Leaf => []
  | Node _ _ l v r => inorder l ++ v :: inorder r
  end.

(** [repr h p t]: the store [h] holds the tree [t] below a node (or the
    root slot) [p]: every node of [t] is in the store with its value, its
    colour, its two child links and its parent back-reference. *)
Fixpoint repr (h : gmap nat RBNode) (p : option addr) (t : tree) : Prop :=
  match t with
  | Leaf => True
  | Node a c l v r =>
    h !! a = Some (mkNode v c p (root_of l) (root_of r))
    ∧ repr h (Some a) l ∧ repr h (Some a) r
  end.

(** The tree object [st] holds the tree [t]. *)
Definition represents (st : RedBlackTree) (t : tree) : Prop :=
  repr (heap st) None t ∧ root st = root_of t ∧ NoDup (addrs t).

(** The store read as a tree, by following the child links from [a]. *)
Fixpoint tree_of (fuel : nat) (h : gmap nat RBNode) (a : option addr)
  : option tree :=
  match a with
  | None => Some Leaf
  | Some a =>
    match fuel with
    | O => None
    | S fuel =>
      match h !! a with
      | None => None
      | Some n =>
        match tree_of fuel h (left n), tree_of fuel h (right n) with
        | Some l, Some r => Some (Node a (ncolor n) l (data n) r)
        | _, _ => None
        end
      end
    end
  end.

(** ** The invariants of the data model, on the tree a store holds *)

(** Invariant 1 as the specification words it: left subtree strictly
    smaller, right subtree greater or equal. *)
Fixpoint bst_strict (t : tree) : Prop :=
  match t with
  | Leaf => True
  | Node _ _ l v r =>
    Forall (λ x, x < v) (inorder l) ∧ Forall (λ x, v ≤ x) (inorder r)
    ∧ bst_strict l ∧ bst_strict r
  end.

(** The order the code keeps: left subtree smaller or equal, right subtree
    greater or equal. *)
Fixpoint bst (t : tree) : Prop :=
  match t with
  | Leaf => True
  | Node _ _ l v r =>
    Forall (λ x, x ≤ v) (inorder l) ∧ Forall (λ x, v ≤ x) (inorder r)
    ∧ bst l ∧ bst r
  end.

(** Invariant 2. *)
Definition root_black (t : tree) : Prop := root_color t = Black.

(** Invariant 3. *)
Fixpoint nored (t : tree) : Prop :=
  match t with
  | Leaf => True
  | Node _ c l _ r =>
    (c = Red → root_color l = Black ∧ root_color r = Black)
    ∧ nored l ∧ nored r
  end.

Definition black_bit (c : color) : nat :=
  match c with Red => 0 | Black => 1 end.

(** The number of black nodes on each path from the root of [t] to a
    null leaf, path by path. *)
Fixpoint black_paths (t : tree) : list nat :=
  match t with
  | Leaf => [0%nat]
  | Node _ c l _ r =>
    (λ n, (black_bit c + n)%nat) <$> (black_paths l ++ black_paths r)
  end.

Fixpoint subtrees (t : tree) : list tree :=
  t :: match t with
       | Leaf => []
       | Node _ _ l _ r => subtrees l ++ subtrees r
       end.

(** Invariant 4: below every node, all paths to a null leaf count the
    same number of black nodes. *)
Definition black_uniform (t : tree) : Prop :=
  ∀ s, s ∈ subtrees t →
    ∀ m n, m ∈ black_paths s → n ∈ black_paths s → m = n.

(** The same, by recursion: black nodes along the leftmost path, and the
    two subtrees of every node agree on it. *)
Fixpoint bheight (t : tree) : nat :=
  match t with
  | Leaf => 0
  | Node _ c l _ _ => (black_bit c + bheight l)%nat
  end.

Fixpoint balanced (t : tree) : Prop :=
  match t with
  | Leaf => True
  | Node _ _ l _ r => bheight l = bheight r ∧ balanced l ∧ balanced r
  end.

Definition rb (t : tree) : Prop := root_black t ∧ nored t ∧ balanced t.

Fixpoint height (t : tree) : nat :=
  match t with
  | Leaf => 0
  | Node _ _ l _ r => S (height l `max` height r)
  end.

(** ** Trees with a hole *)

(** One step from a node to its parent: [FL] when the node is the left
    child, [FR] when it is the right child; the frame records the parent
    and the sibling subtree. *)
Inductive frame :=
| FL (a : addr) (c : color) (v : Z) (r : tree)
| FR (a : addr) (c : color) (l : tree) (v : Z).

Definition fill (f : frame) (t : tree) : tree :=
  match f with
  | FL a c v r => Node a c t v r
  | FR a c l v => Node a c l v t
  end.

(** The path from a node up to the root, innermost frame first. *)
Fixpoint plug (k : list frame) (t : tree) : tree :=
  match k with
  | [] => t
  | f :: k => plug k (fill f t)
  end.

Definition faddr (f : frame) : addr :=
  match f with FL a _ _ _ => a | FR a _ _ _ => a end.
Definition fcolor (f : frame) : color :=
  match f with FL _ c _ _ => c | FR _ c _ _ => c end.
Definition fsib (f : frame) : tree :=
  match f with FL _ _ _ r => r | FR _ _ l _ => l end.
Definition fval (f : frame) : Z :=
  match f with FL _ _ v _ => v | FR _ _ _ v => v end.

Definition ctx_parent (k : list frame) : option addr :=
  match k with [] => None | f :: _ => Some (faddr f) end.

Fixpoint ctx_root (k : list frame) (x : option addr) : option addr :=
  match k with [] => x | f :: k => ctx_root k (Some (faddr f)) end.

Fixpoint ctx_addrs_l (k : list frame) : list addr :=
  match k with
  | [] => []
  | FL _ _ _ _ :: k => ctx_addrs_l k
  | FR a _ l _ :: k => ctx_addrs_l k ++ addrs l ++ [a]
  end.

Fixpoint ctx_addrs_r (k : list frame) : list addr :=
  match k with
  | [] => []
  | FL a _ _ r :: k => a :: addrs r ++ ctx_addrs_r k
  | FR _ _ _ _ :: k => ctx_addrs_r k
  end.

Definition caddrs (k : list frame) : list addr :=
  ctx_addrs_l k ++ ctx_addrs_r k.

Fixpoint ctx_left (k : list frame) : list Z :=
  match k with
  | [] => []
  | FL _ _ _ _ :: k => ctx_left k
  | FR _ _ l v :: k => ctx_left k ++ inorder l ++ [v]
  end.

Fixpoint ctx_right (k : list frame) : list Z :=
  match k with
  | [] => []
  | FL _ _ v r :: k => v :: inorder r ++ ctx_right k
  | FR _ _ _ _ :: k => ctx_right k
  end.

(** The store record of the parent in frame [f], given its own parent [p]
    and the child [x] in the hole. *)
Definition fnode (f : frame) (p x : option addr) : RBNode :=
  match f with
  | FL _ c v r => mkNode v c p x (root_of r)
  | FR _ c l v => mkNode v c p (root_of l) x
  end.

Fixpoint ctx_repr (h : gmap nat RBNode) (k : list frame) (x : option addr)
  : Prop :=
  match k with
  | [] => True
  | f :: k =>
    h !! faddr f = Some (fnode f (ctx_parent k) x)
    ∧ repr h (Some (faddr f)) (fsib f)
    ∧ ctx_repr h k (Some (faddr f))
  end.

(** What a context must satisfy for [plug k t] to be balanced, when [t]
    has black height [n]. *)
Fixpoint ctx_balanced (k : list frame) (n : nat) : Prop :=
  match k with
  | [] => True
  | f :: k =>
    balanced (fsib f) ∧ bheight (fsib f) = n
    ∧ ctx_balanced k (black_bit (fcolor f) + n)
  end.

(** What a context must satisfy for [plug k t] to have no red node with a
    red child, when the root of [t] has colour [c]. *)
Fixpoint ctx_nored (k : list frame) (c : color) : Prop :=
  match k with
  | [] => True
  | f :: k =>
    nored (fsib f)
    ∧ (fcolor f = Red → c = Black ∧ root_color (fsib f) = Black)
    ∧ ctx_nored k (fcolor f)
  end.

Fixpoint ctx_top_color (k : list frame) (c : color) : color :=
  match k with
  | [] => c
  | f :: k => ctx_top_color k (fcolor f)
  end.

Definition is_FL (f : frame) : Prop :=
  match f with FL _ _ _ _ => True | FR _ _ _ _ => False end.
Definition is_FR (f : frame) : Prop :=
  match f with FL _ _ _ _ => False | FR _ _ _ _ => True end.

(** The black height of [plug k t] when [t] has black height [n]. *)
Fixpoint ctx_bheight (k : list frame) (n : nat) : nat :=
  match k with
  | [] => n
  | f :: k => ctx_bheight k (black_bit (fcolor f) + n)
  end.

(** Two lists of addresses without a common element. *)
Definition ldisj (l1 l2 : list addr) : Prop := ∀ x, x ∈ l1 → x ∉ l2.

(** ** Outcomes *)

(** The run [r] ends normally, with a result and a final state that
    satisfy [Q]. *)
Definition returns {A} (r : result (A * RedBlackTree))
    (Q : A → RedBlackTree → Prop) : Prop :=
  ∃ a st', r = Ok (a, st') ∧ Q a st'.

(** What removing the node in the hole of [k], with subtrees [l] and [r],
    leaves behind: a red-black tree whose in-order traversal lost exactly
    that node's value. *)
Definition removed (k : list frame) (l r : tree)
    (b : bool) (st' : RedBlackTree) : Prop :=
  b = true ∧ ∃ t', represents st' t' ∧ rb t'
    ∧ inorder t' = ctx_left k ++ inorder l ++ inorder r ++ ctx_right k.

(** ** The vocabulary of the specification *)

(** Invariants 1 to 4 as the specification states them. *)
Definition invariants_as_specified (t : tree) : Prop :=
  bst_strict t ∧ root_black t ∧ nored t ∧ black_uniform t.

(** Invariants 1 to 4 with the order the code keeps. *)
Definition invariants (t : tree) : Prop :=
  bst t ∧ root_black t ∧ nored t ∧ black_uniform t.

(** A tree object that holds a red-black search tree. *)
Definition well_formed (st : RedBlackTree) (t : tree) : Prop :=
  represents st t ∧ rb t ∧ bst t.

(** The values a sequence of operations inserts. *)
Fixpoint inserted (ops : list op) : gmultiset Z :=
  match ops with
  | [] => ∅
  | Insert d :: ops => {[+ d +]} ⊎ inserted ops
  | Delete _ :: ops => inserted ops
  end.

(** The values it deletes with success: the deletes that returned
    [True]. *)
Fixpoint deleted (ops : list op) (log : list (option bool)) : gmultiset Z :=
  match ops, log with
  | Delete d :: ops, Some true :: log => {[+ d +]} ⊎ deleted ops log
  | _ :: ops, _ :: log => deleted ops log
  | _, _ => ∅
  end.

(** The nodes of a tree in order: address, colour and value. *)
Fixpoint nodes (t : tree) : list (addr * color * Z) :=
  match t with
  | Leaf => []
  | Node a c l v r => nodes l ++ (a, c, v) :: nodes r
  end.

(** The tree object after a sequence of operations on an empty tree. *)
Definition state_after (ops : list op) : RedBlackTree :=
  match tree_after (length ops + 2) ops with
  | Ok st => st
  | _ => init
  end.

(** A stand-in for the recursive call of delete-rebalance that reports
    whether the node [s] is red at the moment of the call. *)
Definition sibling_probe (s : addr) : addr → M bool :=
  λ _, c <- get_color s ;; ret (is_red c).

(** The tree object with another store. *)
Definition with_heap (st : RedBlackTree) (h : gmap nat RBNode) : RedBlackTree :=
  {| heap := h; root := root st; black_height := black_height st |}.



(** ** Concrete trees used as examples *)

(** The tree after "insert 10, 20, 30". *)
Definition tree_10_20_30 : tree :=
  Node 1 Black (Node 0 Red Leaf 10 Leaf) 20 (Node 2 Red Leaf 30 Leaf).

Definition ops_10_20_30 : list op := [Insert 10; Insert 20; Insert 30].

(** The tree after "insert 50, 30, 70, 20, 40, 60, 80". *)
Definition tree_seven : tree :=
  Node 0 Black
    (Node 1 Black (Node 3 Red Leaf 20 Leaf) 30 (Node 4 Red Leaf 40 Leaf))
    50
    (Node 2 Black (Node 5 Red Leaf 60 Leaf) 70 (Node 6 Red Leaf 80 Leaf)).

Definition ops_seven : list op :=
  [Insert 50; Insert 30; Insert 70; Insert 20; Insert 40; Insert 60; Insert 80].

(** Three black nodes: the tree after "insert 1, 2, 3, 4; delete 4". *)
Definition tree_three_black : tree :=
  Node 1 Black (Node 0 Black Leaf 1 Leaf) 2 (Node 2 Black Leaf 3 Leaf).

Definition ops_three_black : list op :=
  [Insert 1; Insert 2; Insert 3; Insert 4; Delete 4].

(** ** Links in the store *)

(** The parent link of the node at [x], and the parent of that parent. *)
Definition parent_of (st : RedBlackTree) (x : addr) : option addr :=
  heap st !! x ≫= parent.

Definition grandparent_of (st : RedBlackTree) (x : addr) : option addr :=
  parent_of st x ≫= parent_of st.


(** ** Case 2a of delete-rebalance *)

(** What the code does once it has found a black parent [p] and a black
    sibling [s] whose children are black or absent (lines 278-281): the
    recursive call, then the sibling turned red. *)
Definition case_2a (rec : addr → M bool) (p s : addr) : M bool :=
  success <- rec p ;;
  set_color s Red ;;
  ret success.

(** The same step as the specification words it: the sibling turned red
    before the recursive call, and again after it. *)
Definition case_2a_as_specified (rec : addr → M bool) (p s : addr) : M bool :=
  set_color s Red ;;
  success <- rec p ;;
  set_color s Red ;;
  ret success.


(** ** The traversal printers (lines 408-453) *)

(** What the printers write for one node: its value, its colour and its
    depth.  The output of a printer is the list of what its calls of
    [print] wrote, in the order of the calls. *)
Record line := mkLine { ldata : Z; lcolor : color; ldepth : nat }.

(** RedBlackTree.inorder_traverse_helper (lines 416-421). *)
Fixpoint inorder_traverse_helper (fuel : nat) (current : option addr)
    (depth : nat) : M (list line) :=
  match current with
  | None => ret []
  | Some c =>
    match fuel with
    | O => out_of_fuel
    | S fuel =>
      cl <- get_left c ;;
      out1 <- inorder_traverse_helper fuel cl (depth + 1) ;;
      d <- get_data c ;;
      col <- get_color c ;;
      cr <- get_right c ;;
      out2 <- inorder_traverse_helper fuel cr (depth + 1) ;;
      ret (out1 ++ mkLine d col depth :: out2)
    end
  end.

(** RedBlackTree.inorder_traverse (lines 408-413). *)
Definition inorder_traverse (fuel : nat) : M (list line) :=
  rt <- get_root ;;
  match rt with
  | None => ret []
  | Some r =>
    rl <- get_left r ;;
    out1 <- inorder_traverse_helper fuel rl 1 ;;
    d <- get_data r ;;
    col <- get_color r ;;
    rr <- get_right r ;;
    out2 <- inorder_traverse_helper fuel rr 1 ;;
    ret (out1 ++ mkLine d col 0 :: out2)
  end.

(** One call of [print] in [breadth_traverse]: a node or the word None,
    followed by the separator [' , '] or by the end of the line. *)
Record item := mkItem { inode : option line; ends_line : bool }.

(** The loop of RedBlackTree.breadth_traverse (lines 432-453), on the two
    deques [nodes] and [depths]. *)
Fixpoint breadth_loop (fuel : nat) (nodes : list (option addr))
    (depths : list nat) : M (list item) :=
  match nodes with
  | [] => ret []
  | current :: nodes =>
    match fuel with
    | O => out_of_fuel
    | S fuel =>
      match depths with
      | [] => raise
      | depth :: depths =>
        match current with
        | Some c =>
          cl <- get_left c ;;
          cr <- get_right c ;;
          let nodes := nodes ++ [cl; cr] in
          let depths := depths ++ [(depth + 1)%nat; (depth + 1)%nat] in
          d <- get_data c ;;
          col <- get_color c ;;
          let same_line := bool_decide (head depths = Some depth) in
          rest <- breadth_loop fuel nodes depths ;;
          ret (mkItem (Some (mkLine d col depth)) (negb same_line) :: rest)
        | None =>
          let same_line := bool_decide (head depths = Some depth) in
          rest <- breadth_loop fuel nodes depths ;;
          ret (mkItem None (negb same_line) :: rest)
        end
      end
    end
  end.

(** RedBlackTree.breadth_traverse (lines 424-453). *)
Definition breadth_traverse (fuel : nat) : M (list item) :=
  rt <- get_root ;;
  breadth_loop fuel [rt] [0%nat].

(** ** The printed form of a tree *)

(** The nodes of a tree in order, each with its depth. *)
Fixpoint lines (t : tree) (depth : nat) : list line :=
  match t with
  | Leaf => []
  | Node _ c l v r =>
    lines l (depth + 1) ++ mkLine v c depth :: lines r (depth + 1)
  end.

Definition children (t : tree) : list tree :=
  match t with
  | Leaf => []
  | Node _ _ l _ r => [l; r]
  end.

Definition entry (depth : nat) (t : tree) : option line :=
  match t with
  | Leaf => None
  | Node _ c _ v _ => Some (mkLine v c depth)
  end.

(** The subtrees [ts] of one level written on one line. *)
Fixpoint print_level (depth : nat) (ts : list tree) : list item :=
  match ts with
  | [] => []
  | t :: ts =>
    mkItem (entry depth t) (bool_decide (ts = [])) :: print_level depth ts
  end.

(** The levels below and including the one of [ts], at most [n] of
    them. *)
Fixpoint print_levels (n : nat) (depth : nat) (ts : list tree) : list item :=
  match n with
  | O => []
  | S n =>
    print_level depth ts ++ print_levels n (depth + 1) (ts ≫= children)
  end.

Definition tree_size (t : tree) : nat := length (inorder t).

(** ** Nodes in use *)

(** The nodes that can be reached from the root by child links. *)
Inductive reachable (st : RedBlackTree) : addr → Prop :=
| reach_root r : root st = Some r → reachable st r
| reach_left a n c :
    reachable st a → heap st !! a = Some n → left n = Some c → reachable st c
| reach_right a n c :
    reachable st a → heap st !! a = Some n → right n = Some c → reachable st c.

(** The log of a sequence of operations in which every delete returned
    [True]. *)
Definition all_deleted (log : list (option bool)) : Prop :=
  Forall (λ b, b = Some true) log.

(** ** The black-height field *)

(** A computation that leaves the field [black_height] as it is. *)
Definition keeps_black_height {A} (m : M A) : Prop :=
  ∀ st a st', m st = Ok (a, st') → black_height st' = black_height st.

(** A computation that adds one to [black_height] or leaves it as it
    is. *)
Definition raises_black_height {A} (m : M A) : Prop :=
  ∀ st a st', m st = Ok (a, st') →
    black_height st' = black_height st ∨ black_height st' = black_height st + 1.

(** The number of rounds of the loop of [breadth_traverse] that a subtree
    takes: one for each node and one for each absent child. *)
Definition rounds (t : tree) : nat := (2 * tree_size t + 1)%nat.

(** ** What a computation cannot do *)

(** A computation that only reads the tree object. *)
Definition read_only {A} (m : M A) : Prop :=
  ∀ st a st', m st = Ok (a, st') → st' = st.

(** A computation that returns [True] whenever it returns. *)
Definition always_true (m : M bool) : Prop :=
  ∀ st b st', m st = Ok (b, st') → b = true.


(** * Proofs *)

(** ** Lists of distinct addresses *)

Lemma ldisj_nil_l l : ldisj [] l ↔ True.
Proof. unfold ldisj. split; [done|]. intros _ x Hx. by apply elem_of_nil in Hx. Qed.

Lemma ldisj_nil_r l : ldisj l [] ↔ True.
Proof. unfold ldisj. split; [done|]. intros _ x _ Hx. by apply elem_of_nil in Hx. Qed.

Lemma ldisj_cons_l a l1 l2 : ldisj (a :: l1) l2 ↔ (a ∉ l2) ∧ ldisj l1 l2.
Proof.
  unfold ldisj. split.
  - intros H. split; [apply H; left | intros x Hx; apply H; by right].
  - intros [Ha H] x Hx. apply elem_of_cons in Hx as [->|Hx]; auto.
Qed.

Lemma ldisj_app_l l1 l2 l3 : ldisj (l1 ++ l2) l3 ↔ ldisj l1 l3 ∧ ldisj l2 l3.
Proof.
  unfold ldisj. split.
  - intros H. split; intros x Hx; apply H, elem_of_app; auto.
  - intros [H1 H2] x Hx. apply elem_of_app in Hx as [Hx|Hx]; auto.
Qed.

Lemma ldisj_sym l1 l2 : ldisj l1 l2 → ldisj l2 l1.
Proof. unfold ldisj. intros H x H2 H1. by apply (H x). Qed.

Lemma ldisj_cons_r a l1 l2 : ldisj l1 (a :: l2) ↔ (a ∉ l1) ∧ ldisj l1 l2.
Proof.
  split.
  - intros H. apply ldisj_sym, ldisj_cons_l in H as [? ?]. split; [done|by apply ldisj_sym].
  - intros [? H]. apply ldisj_sym, ldisj_cons_l. split; [done|by apply ldisj_sym].
Qed.

Lemma ldisj_app_r l1 l2 l3 : ldisj l1 (l2 ++ l3) ↔ ldisj l1 l2 ∧ ldisj l1 l3.
Proof.
  split.
  - intros H. apply ldisj_sym, ldisj_app_l in H as [? ?]. split; by apply ldisj_sym.
  - intros [? ?]. apply ldisj_sym, ldisj_app_l. split; by apply ldisj_sym.
Qed.

Lemma NoDup_app_ldisj (l1 l2 : list nat) :
  NoDup (l1 ++ l2) ↔ NoDup l1 ∧ NoDup l2 ∧ ldisj l1 l2.
Proof. unfold ldisj. rewrite list.NoDup_app. tauto. Qed.

Lemma NoDup_nil_iff : NoDup (@nil nat) ↔ True.
Proof. split; [done|]. intros _. apply NoDup_nil_2. Qed.

Lemma not_elem_of_nil_iff (a : nat) : a ∉ @nil nat ↔ True.
Proof. split; [done|]. intros _. apply not_elem_of_nil. Qed.

(** Break every [NoDup] and [ldisj] fact into facts about single addresses
    and whole subtrees. *)
Ltac nodup_norm_in H :=
  repeat first
    [ rewrite NoDup_app_ldisj in H
    | rewrite list.NoDup_cons in H
    | rewrite NoDup_nil_iff in H
    | rewrite ldisj_cons_l in H
    | rewrite ldisj_cons_r in H
    | rewrite ldisj_app_l in H
    | rewrite ldisj_app_r in H
    | rewrite ldisj_nil_l in H
    | rewrite ldisj_nil_r in H
    | rewrite not_elem_of_cons in H
    | rewrite not_elem_of_app in H
    | rewrite not_elem_of_nil_iff in H ].

Ltac nodup_norm :=
  repeat first
    [ rewrite NoDup_app_ldisj
    | rewrite list.NoDup_cons
    | rewrite NoDup_nil_iff
    | rewrite ldisj_cons_l
    | rewrite ldisj_cons_r
    | rewrite ldisj_app_l
    | rewrite ldisj_app_r
    | rewrite ldisj_nil_l
    | rewrite ldisj_nil_r
    | rewrite not_elem_of_cons
    | rewrite not_elem_of_app
    | rewrite not_elem_of_nil_iff ].

(** The same on all hypotheses, one fact at a time. *)
Ltac nodup_step :=
  match goal with
  | H : NoDup (_ ++ _) |- _ => apply NoDup_app_ldisj in H as (? & ? & ?)
  | H : NoDup (_ :: _) |- _ => apply list.NoDup_cons in H as (? & ?)
  | H : NoDup [] |- _ => clear H
  | H : ldisj (_ :: _) _ |- _ => apply ldisj_cons_l in H as (? & ?)
  | H : ldisj _ (_ :: _) |- _ => apply ldisj_cons_r in H as (? & ?)
  | H : ldisj (_ ++ _) _ |- _ => apply ldisj_app_l in H as (? & ?)
  | H : ldisj _ (_ ++ _) |- _ => apply ldisj_app_r in H as (? & ?)
  | H : ldisj [] _ |- _ => clear H
  | H : ldisj _ [] |- _ => clear H
  | H : _ ∉ _ :: _ |- _ => apply not_elem_of_cons in H as (? & ?)
  | H : _ ∉ _ ++ _ |- _ => apply not_elem_of_app in H as (? & ?)
  | H : _ ∉ [] |- _ => clear H
  end.

Ltac nodup_destruct := repeat nodup_step.

Ltac split_ands :=
  repeat match goal with
         | H : _ ∧ _ |- _ => destruct H
         | H : True |- _ => clear H
         end.

Ltac nodup_solve :=
  nodup_norm; repeat split;
  first [ done | by apply ldisj_sym | by apply not_symmetry ].

(** ** Trees and contexts *)

Lemma plug_app k1 k2 t : plug (k1 ++ k2) t = plug k2 (plug k1 t).
Proof. revert t. induction k1 as [|f k1 IH]; intros t; simpl; [done|apply IH]. Qed.

Lemma addrs_plug k t :
  addrs (plug k t) = ctx_addrs_l k ++ addrs t ++ ctx_addrs_r k.
Proof.
  revert t. induction k as [|[a c v r|a c l v] k IH]; intros t; simpl.
  - by rewrite app_nil_r.
  - rewrite IH. simpl. by rewrite <- ?app_assoc.
  - rewrite IH. simpl. rewrite <- ?app_assoc. simpl. by rewrite <- ?app_assoc.
Qed.

Lemma inorder_plug k t :
  inorder (plug k t) = ctx_left k ++ inorder t ++ ctx_right k.
Proof.
  revert t. induction k as [|[a c v r|a c l v] k IH]; intros t; simpl.
  - by rewrite app_nil_r.
  - rewrite IH. simpl. by rewrite <- ?app_assoc.
  - rewrite IH. simpl. rewrite <- ?app_assoc. simpl. by rewrite <- ?app_assoc.
Qed.

Lemma root_of_plug k t : root_of (plug k t) = ctx_root k (root_of t).
Proof.
  revert t. induction k as [|f k IH]; intros t; simpl; [done|].
  rewrite IH. by destruct f.
Qed.

Lemma root_of_fill f t : root_of (fill f t) = Some (faddr f).
Proof. by destruct f. Qed.

Lemma elem_of_caddrs_cons x f k :
  x ∈ caddrs (f :: k) ↔ x = faddr f ∨ x ∈ addrs (fsib f) ∨ x ∈ caddrs k.
Proof.
  unfold caddrs. destruct f; simpl;
    rewrite ?elem_of_app, ?elem_of_cons, ?elem_of_app, ?elem_of_cons, ?elem_of_nil; tauto.
Qed.

Lemma ctx_root_in k a x :
  ctx_root k (Some a) = Some x → x = a ∨ x ∈ caddrs k.
Proof.
  revert a. induction k as [|f k IH]; intros a; simpl.
  - intros [= ->]. by left.
  - intros H. apply IH in H. right. rewrite elem_of_caddrs_cons. tauto.
Qed.

Lemma ctx_root_cons_in f k x :
  ∃ a, ctx_root (f :: k) x = Some a ∧ a ∈ caddrs (f :: k).
Proof.
  simpl. destruct (ctx_root k (Some (faddr f))) as [a|] eqn:E.
  - exists a. split; [done|]. apply ctx_root_in in E.
    rewrite elem_of_caddrs_cons. tauto.
  - exfalso. revert E. generalize (faddr f). clear.
    induction k as [|f k IH]; intros a; simpl; [done|apply IH].
Qed.

Lemma repr_plug h k t :
  repr h None (plug k t) ↔ repr h (ctx_parent k) t ∧ ctx_repr h k (root_of t).
Proof.
  revert t. induction k as [|f k IH]; intros t; simpl.
  - tauto.
  - rewrite IH, root_of_fill. destruct f; simpl; tauto.
Qed.

Lemma represents_plug st k t :
  represents st (plug k t) ↔
    repr (heap st) (ctx_parent k) t ∧ ctx_repr (heap st) k (root_of t)
    ∧ root st = ctx_root k (root_of t)
    ∧ NoDup (ctx_addrs_l k ++ addrs t ++ ctx_addrs_r k).
Proof.
  unfold represents. rewrite repr_plug, root_of_plug, addrs_plug. tauto.
Qed.

(** Writing a node outside a tree does not disturb the tree. *)
Lemma repr_insert_ne h p t a n :
  a ∉ addrs t → repr h p t → repr (<[a := n]> h) p t.
Proof.
  revert p. induction t as [|x c l IHl v r IHr]; intros p Ha; simpl; [done|].
  simpl in Ha. rewrite not_elem_of_app, not_elem_of_cons in Ha.
  destruct Ha as (? & ? & ?). intros (? & ? & ?).
  split_and!; [by rewrite lookup_insert_ne|by apply IHl|by apply IHr].
Qed.

Lemma ctx_repr_insert_ne h k x a n :
  a ∉ caddrs k → ctx_repr h k x → ctx_repr (<[a := n]> h) k x.
Proof.
  revert x. induction k as [|f k IH]; intros x Ha; simpl; [done|].
  intros (Hf & Hs & Hk).
  assert (a ≠ faddr f ∧ (a ∉ addrs (fsib f)) ∧ a ∉ caddrs k) as (? & ? & ?).
  { rewrite elem_of_caddrs_cons in Ha. tauto. }
  split_and!; [by rewrite lookup_insert_ne|by apply repr_insert_ne|by apply IH].
Qed.

(** The tree a store holds below a given node is unique. *)
Lemma repr_unique h p p' t t' :
  repr h p t → repr h p' t' → root_of t = root_of t' → t = t'.
Proof.
  revert p p' t'. induction t as [|x c l IHl v r IHr]; intros p p' [|x' c' l' v' r']; simpl; try done.
  intros (H1 & Hl & Hr) (H2 & Hl' & Hr') [= <-].
  rewrite H1 in H2. injection H2 as -> -> -> El Er.
  f_equal; [by eapply IHl|by eapply IHr].
Qed.

Lemma represents_unique st t t' : represents st t → represents st t' → t = t'.
Proof.
  intros (H1 & R1 & _) (H2 & R2 & _). eapply repr_unique; [done..|congruence].
Qed.

Lemma repr_lookup h p t a :
  repr h p t → a ∈ addrs t → is_Some (h !! a).
Proof.
  revert p. induction t as [|x c l IHl v r IHr]; intros p; simpl.
  - intros _ Ha. by apply elem_of_nil in Ha.
  - intros (H1 & Hl & Hr) Ha. rewrite elem_of_app, elem_of_cons in Ha.
    destruct Ha as [Ha|[->|Ha]]; eauto.
Qed.

(** Reading the store as a tree finds the tree it holds. *)
Lemma tree_of_repr h p t fuel :
  repr h p t → (height t ≤ fuel)%nat → tree_of fuel h (root_of t) = Some t.
Proof.
  revert p t. induction fuel as [|fuel IH]; intros p [|x c l v r]; simpl; try done; try lia.
  intros (H1 & Hl & Hr) Hh. rewrite H1. simpl.
  rewrite (IH _ _ Hl), (IH _ _ Hr) by lia. done.
Qed.

(** ** One step of the monad *)

Lemma bind_ok {A B} (m : M A) (f : A → M B) st a st' :
  m st = Ok (a, st') → bind m f st = f a st'.
Proof. unfold bind. by intros ->. Qed.

Lemma load_ok a st n : heap st !! a = Some n → load a st = Ok (n, st).
Proof. unfold load. by intros ->. Qed.

Lemma get_data_ok a st n : heap st !! a = Some n → get_data a st = Ok (data n, st).
Proof. intros H. unfold get_data. by rewrite (bind_ok _ _ _ _ _ (load_ok _ _ _ H)). Qed.
Lemma get_color_ok a st n : heap st !! a = Some n → get_color a st = Ok (ncolor n, st).
Proof. intros H. unfold get_color. by rewrite (bind_ok _ _ _ _ _ (load_ok _ _ _ H)). Qed.
Lemma get_parent_ok a st n : heap st !! a = Some n → get_parent a st = Ok (parent n, st).
Proof. intros H. unfold get_parent. by rewrite (bind_ok _ _ _ _ _ (load_ok _ _ _ H)). Qed.
Lemma get_left_ok a st n : heap st !! a = Some n → get_left a st = Ok (left n, st).
Proof. intros H. unfold get_left. by rewrite (bind_ok _ _ _ _ _ (load_ok _ _ _ H)). Qed.
Lemma get_right_ok a st n : heap st !! a = Some n → get_right a st = Ok (right n, st).
Proof. intros H. unfold get_right. by rewrite (bind_ok _ _ _ _ _ (load_ok _ _ _ H)). Qed.

Lemma set_data_ok a d st n : heap st !! a = Some n →
  set_data a d st = Ok (tt, with_heap st (<[a := mkNode d (ncolor n) (parent n) (left n) (right n)]> (heap st))).
Proof. intros H. unfold set_data. by rewrite (bind_ok _ _ _ _ _ (load_ok _ _ _ H)). Qed.
Lemma set_color_ok a c st n : heap st !! a = Some n →
  set_color a c st = Ok (tt, with_heap st (<[a := mkNode (data n) c (parent n) (left n) (right n)]> (heap st))).
Proof. intros H. unfold set_color. by rewrite (bind_ok _ _ _ _ _ (load_ok _ _ _ H)). Qed.
Lemma set_parent_ok a p st n : heap st !! a = Some n →
  set_parent a p st = Ok (tt, with_heap st (<[a := mkNode (data n) (ncolor n) p (left n) (right n)]> (heap st))).
Proof. intros H. unfold set_parent. by rewrite (bind_ok _ _ _ _ _ (load_ok _ _ _ H)). Qed.
Lemma set_left_ok a l st n : heap st !! a = Some n →
  set_left a l st = Ok (tt, with_heap st (<[a := mkNode (data n) (ncolor n) (parent n) l (right n)]> (heap st))).
Proof. intros H. unfold set_left. by rewrite (bind_ok _ _ _ _ _ (load_ok _ _ _ H)). Qed.
Lemma set_right_ok a r st n : heap st !! a = Some n →
  set_right a r st = Ok (tt, with_heap st (<[a := mkNode (data n) (ncolor n) (parent n) (left n) r]> (heap st))).
Proof. intros H. unfold set_right. by rewrite (bind_ok _ _ _ _ _ (load_ok _ _ _ H)). Qed.


(** ** Reading and writing one node of a represented tree *)

Lemma rep_lookup st k a c l v r :
  represents st (plug k (Node a c l v r)) →
  heap st !! a = Some (mkNode v c (ctx_parent k) (root_of l) (root_of r)).
Proof. rewrite represents_plug. simpl. tauto. Qed.

Lemma rep_root st t : represents st t → root st = root_of t.
Proof. by intros (_ & ? & _). Qed.

Lemma rep_root_focus st k a c l v r :
  represents st (plug k (Node a c l v r)) → root st = Some a ↔ k = [].
Proof.
  rewrite represents_plug. intros (_ & _ & Hr & Hnd). split.
  - intros E. destruct k as [|f k]; [done|]. exfalso.
    destruct (ctx_root_cons_in f k (root_of (Node a c l v r))) as (x & Hx & Hin).
    rewrite Hr, Hx in E. injection E as ->.
    unfold caddrs in Hin. simpl in Hnd. nodup_norm_in Hnd. split_ands.
    apply elem_of_app in Hin as [Hin|Hin]; done.
  - intros ->. done.
Qed.

Lemma get_data_spec st k a c l v r :
  represents st (plug k (Node a c l v r)) → get_data a st = Ok (v, st).
Proof. intros H. by rewrite (get_data_ok _ _ _ (rep_lookup _ _ _ _ _ _ _ H)). Qed.

Lemma get_color_spec st k a c l v r :
  represents st (plug k (Node a c l v r)) → get_color a st = Ok (c, st).
Proof. intros H. by rewrite (get_color_ok _ _ _ (rep_lookup _ _ _ _ _ _ _ H)). Qed.

Lemma get_parent_spec st k a c l v r :
  represents st (plug k (Node a c l v r)) → get_parent a st = Ok (ctx_parent k, st).
Proof. intros H. by rewrite (get_parent_ok _ _ _ (rep_lookup _ _ _ _ _ _ _ H)). Qed.

Lemma get_left_spec st k a c l v r :
  represents st (plug k (Node a c l v r)) → get_left a st = Ok (root_of l, st).
Proof. intros H. by rewrite (get_left_ok _ _ _ (rep_lookup _ _ _ _ _ _ _ H)). Qed.

Lemma get_right_spec st k a c l v r :
  represents st (plug k (Node a c l v r)) → get_right a st = Ok (root_of r, st).
Proof. intros H. by rewrite (get_right_ok _ _ _ (rep_lookup _ _ _ _ _ _ _ H)). Qed.

Lemma get_root_spec st t : represents st t → get_root st = Ok (root_of t, st).
Proof. intros H. unfold get_root. by rewrite (rep_root _ _ H). Qed.

(** Changing the colour or the value of a node changes just that in the
    tree. *)
Lemma rep_update st k a c l v r c' v' :
  represents st (plug k (Node a c l v r)) →
  represents
    (with_heap st (<[a := mkNode v' c' (ctx_parent k) (root_of l) (root_of r)]> (heap st)))
    (plug k (Node a c' l v' r)).
Proof.
  rewrite !represents_plug. simpl. intros ((Ha & Hl & Hr) & Hk & Hrt & Hnd).
  pose proof Hnd as Hnd'. nodup_norm_in Hnd'. split_ands.
  split_and!; try done.
  - by rewrite lookup_insert_eq.
  - by apply repr_insert_ne.
  - by apply repr_insert_ne.
  - apply ctx_repr_insert_ne; [|done]. unfold caddrs. by nodup_solve.
Qed.

Lemma set_color_spec st k a c l v r c' :
  represents st (plug k (Node a c l v r)) →
  ∃ st', set_color a c' st = Ok (tt, st')
         ∧ represents st' (plug k (Node a c' l v r))
         ∧ black_height st' = black_height st.
Proof.
  intros H. eexists. split; [|split].
  - apply set_color_ok, (rep_lookup _ _ _ _ _ _ _ H).
  - exact (rep_update _ _ _ _ _ _ _ _ _ H).
  - done.
Qed.

Lemma set_data_spec st k a c l v r v' :
  represents st (plug k (Node a c l v r)) →
  ∃ st', set_data a v' st = Ok (tt, st')
         ∧ represents st' (plug k (Node a c l v' r))
         ∧ black_height st' = black_height st.
Proof.
  intros H. eexists. split; [|split].
  - apply set_data_ok, (rep_lookup _ _ _ _ _ _ _ H).
  - exact (rep_update _ _ _ _ _ _ _ _ _ H).
  - done.
Qed.


(** ** Running the code on an explicit store *)

Lemma root_of_not_in t a : a ∉ addrs t → root_of t ≠ Some a.
Proof.
  destruct t; simpl; [done|]. rewrite not_elem_of_app, not_elem_of_cons.
  intros (_ & ? & _). congruence.
Qed.

Ltac cond_false :=
  first [ done | congruence | by apply root_of_not_in
        | by apply not_symmetry, root_of_not_in ].

Ltac lookup_solve :=
  cbn [heap root black_height with_heap];
  repeat first [ rewrite lookup_insert_eq | rewrite lookup_insert_ne by done ];
  first [ reflexivity | eassumption ].

Ltac hstep :=
  first
    [ erewrite get_parent_ok by lookup_solve
    | erewrite get_left_ok by lookup_solve
    | erewrite get_right_ok by lookup_solve
    | erewrite get_color_ok by lookup_solve
    | erewrite get_data_ok by lookup_solve
    | erewrite set_parent_ok by lookup_solve
    | erewrite set_left_ok by lookup_solve
    | erewrite set_right_ok by lookup_solve
    | erewrite set_color_ok by lookup_solve
    | erewrite set_data_ok by lookup_solve
    | rewrite bool_decide_eq_true_2 by done
    | rewrite bool_decide_eq_false_2 by cond_false
    | progress cbn [heap root black_height with_heap parent left right data ncolor
                    get_root set_root ret deref raise fst snd]
    | progress cbn beta iota
    | unfold bind at 1 ].

Ltac hrun := repeat hstep.

(** Establish [repr] and [ctx_repr] facts about a store after writes to
    nodes outside the tree or context in question. *)
Ltac frame_solve :=
  cbn [heap root black_height with_heap];
  repeat first
    [ apply repr_insert_ne; [unfold caddrs; nodup_solve|]
    | apply ctx_repr_insert_ne; [unfold caddrs; nodup_solve|] ];
  first [ done | eassumption ].

(** ** Rotation (section 4.1) *)

Ltac list_norm_in H :=
  cbn [addrs ctx_addrs_l ctx_addrs_r inorder ctx_left ctx_right fsib faddr] in H;
  repeat first [ rewrite <- app_assoc in H | rewrite <- app_comm_cons in H
               | rewrite app_nil_r in H | rewrite app_nil_l in H ].
Ltac list_norm :=
  cbn [addrs ctx_addrs_l ctx_addrs_r inorder ctx_left ctx_right fsib faddr];
  repeat first [ rewrite <- app_assoc | rewrite <- app_comm_cons
               | rewrite app_nil_r | rewrite app_nil_l ].

(** Open a [represents] hypothesis about an explicit tree into store
    lookups and distinctness facts. *)
Ltac rep_open H :=
  let Hnd := fresh "Hnd" in
  rewrite represents_plug in H;
  cbn [repr ctx_repr fnode faddr fsib fcolor fval ctx_parent root_of ctx_root] in H;
  destruct_and? H;
  match goal with
  | Hn : NoDup _ |- _ =>
    pose proof Hn as Hnd; revert Hnd; list_norm_in Hn; nodup_destruct; intros Hnd
  end.

Ltac rep_close Hnd :=
  rewrite represents_plug;
  cbn [repr ctx_repr fnode faddr fsib fcolor fval ctx_parent root_of ctx_root
       heap root black_height with_heap];
  split_and!;
  first [ lookup_solve | frame_solve
        | (list_norm_in Hnd; list_norm; exact Hnd) ].

Lemma rotation_left_spec st k p pc a pv x xc b xv c :
  represents st (plug k (Node p pc a pv (Node x xc b xv c))) →
  ∃ st', rotation x st = Ok (tt, st')
         ∧ represents st' (plug k (Node x xc (Node p pc a pv b) xv c))
         ∧ black_height st' = black_height st.
Proof.
  intros H. pose proof (rep_root_focus _ _ _ _ _ _ _ H) as Hroot.
  destruct st as [h rt bh].
  destruct k as [|[g gc gv gr|g gc gl gv] k]; destruct b as [|m mc bl mv br];
    rep_open H; cbn [heap root black_height] in *;
    try (assert (rt ≠ Some p) by (intros E; by apply Hroot in E));
    unfold rotation;
    (eexists; split; [hrun; reflexivity|split; [|done]]);
    rep_close Hnd.
Qed.

Lemma rotation_right_spec st k p pc x xc a xv b pv c :
  represents st (plug k (Node p pc (Node x xc a xv b) pv c)) →
  ∃ st', rotation x st = Ok (tt, st')
         ∧ represents st' (plug k (Node x xc a xv (Node p pc b pv c)))
         ∧ black_height st' = black_height st.
Proof.
  intros H. pose proof (rep_root_focus _ _ _ _ _ _ _ H) as Hroot.
  destruct st as [h rt bh].
  destruct k as [|[g gc gv gr|g gc gl gv] k]; destruct b as [|m mc bl mv br];
    rep_open H; cbn [heap root black_height] in *;
    try (assert (rt ≠ Some p) by (intros E; by apply Hroot in E));
    unfold rotation;
    (eexists; split; [hrun; reflexivity|split; [|done]]);
    rep_close Hnd.
Qed.

(** A node without a parent is left alone. *)
Lemma rotation_root_spec st a c l v r :
  represents st (Node a c l v r) → rotation a st = Ok (tt, st).
Proof.
  intros H. unfold rotation.
  rewrite (bind_ok _ _ _ _ _ (get_parent_spec st [] _ _ _ _ _ H)). done.
Qed.


(** ** Attaching a new node *)

Lemma represents_fresh st t :
  represents st t → fresh (dom (heap st)) ∉ addrs t.
Proof.
  intros (Hr & _ & _) Hin.
  destruct (repr_lookup _ _ _ _ Hr Hin) as [n Hn].
  apply (is_fresh (dom (heap st))). apply elem_of_dom. eauto.
Qed.

Ltac fresh_open st H n :=
  let Hf := fresh "Hf" in
  pose proof (represents_fresh _ _ H) as Hf;
  rewrite addrs_plug in Hf;
  remember (fresh (dom (heap st))) as n;
  list_norm_in Hf; nodup_destruct.

Ltac rep_close' :=
  rewrite represents_plug;
  cbn [repr ctx_repr fnode faddr fsib fcolor fval ctx_parent root_of ctx_root
       heap root black_height with_heap];
  split_and!;
  first [ lookup_solve | frame_solve | (list_norm; nodup_solve) ].

Lemma insert_leaf_left_spec st k a c v r d :
  represents st (plug k (Node a c Leaf v r)) →
  ∃ st' n,
    (n <- alloc d (Some a) ;; set_left a (Some n) ;;
     cl <- get_left a ;; deref cl) st = Ok (n, st')
    ∧ represents st' (plug k (Node a c (Node n Red Leaf d Leaf) v r))
    ∧ black_height st' = black_height st.
Proof.
  intros H. fresh_open st H n. rep_open H.
  destruct st as [h rt bh]. cbn [heap root black_height] in *.
  eexists _, n. split; [|split].
  - unfold alloc. unfold bind at 1. cbn [heap root black_height]. rewrite <- Heqn.
    hrun. reflexivity.
  - rep_close'.
  - done.
Qed.

Lemma insert_leaf_right_spec st k a c l v d :
  represents st (plug k (Node a c l v Leaf)) →
  ∃ st' n,
    (n <- alloc d (Some a) ;; set_right a (Some n) ;;
     cr <- get_right a ;; deref cr) st = Ok (n, st')
    ∧ represents st' (plug k (Node a c l v (Node n Red Leaf d Leaf)))
    ∧ black_height st' = black_height st.
Proof.
  intros H. fresh_open st H n. rep_open H.
  destruct st as [h rt bh]. cbn [heap root black_height] in *.
  eexists _, n. split; [|split].
  - unfold alloc. unfold bind at 1. cbn [heap root black_height]. rewrite <- Heqn.
    hrun. reflexivity.
  - rep_close'.
  - done.
Qed.

Lemma insert_empty_spec st d :
  represents st Leaf →
  ∃ st' n, insert 0 d st = Ok (tt, st')
    ∧ represents st' (Node n Black Leaf d Leaf)
    ∧ black_height st' = black_height st + 1.
Proof.
  intros (_ & Hrt & _). destruct st as [h rt bh]. simpl in Hrt. subst rt.
  unfold insert. eexists _, (fresh (dom h)). split; [|split].
  - unfold alloc. hrun. unfold incr_black_height. cbn [heap root black_height]. reflexivity.
  - unfold represents. simpl. split_and!; [by rewrite lookup_insert_eq|done..|].
    apply NoDup_singleton.
  - done.
Qed.

(** ** Unlinking a node (section 4.5) *)

(** Lines 156-160: a leaf that is not the root. *)
Lemma unlink_leaf_spec st f k x c v :
  represents st (plug (f :: k) (Node x c Leaf v Leaf)) →
  ∃ st',
    (pl <- get_left (faddr f) ;;
     (if bool_decide (pl = Some x)
      then set_left (faddr f) None
      else set_right (faddr f) None) ;;
     set_parent x None) st = Ok (tt, st')
    ∧ represents st' (plug (f :: k) Leaf)
    ∧ black_height st' = black_height st.
Proof.
  intros H. destruct st as [h rt bh].
  destruct f as [p pc pv pr|p pc pl pv]; rep_open H;
    cbn [heap root black_height faddr] in *;
    (eexists; split; [hrun; reflexivity|split; [|done]]);
    rep_close'.
Qed.

(** Line 163: the only node of the tree. *)
Lemma unlink_root_spec st x c v :
  represents st (Node x c Leaf v Leaf) →
  ∃ st', set_root None st = Ok (tt, st')
    ∧ represents st' Leaf
    ∧ black_height st' = black_height st.
Proof.
  intros H. eexists. split; [reflexivity|]. split; [|done].
  unfold represents. simpl. split_and!; [done..|apply NoDup_nil_2].
Qed.

(** Lines 169-179: a node with a right child only. *)
Lemma replace_by_right_spec st k x c v y yc yl yv yr :
  represents st (plug k (Node x c Leaf v (Node y yc yl yv yr))) →
  ∃ st', replace_by_child (ctx_parent k) x get_right st = Ok (tt, st')
    ∧ represents st' (plug k (Node y yc yl yv yr))
    ∧ black_height st' = black_height st.
Proof.
  intros H. destruct st as [h rt bh].
  destruct k as [|[p pc pv pr|p pc pl pv] k]; rep_open H;
    cbn [heap root black_height faddr ctx_parent] in *;
    unfold replace_by_child;
    (eexists; split; [hrun; reflexivity|split; [|done]]);
    rep_close'.
Qed.

(** Lines 187-197: a node with a left child only. *)
Lemma replace_by_left_spec st k x c v y yc yl yv yr :
  represents st (plug k (Node x c (Node y yc yl yv yr) v Leaf)) →
  ∃ st', replace_by_child (ctx_parent k) x get_left st = Ok (tt, st')
    ∧ represents st' (plug k (Node y yc yl yv yr))
    ∧ black_height st' = black_height st.
Proof.
  intros H. destruct st as [h rt bh].
  destruct k as [|[p pc pv pr|p pc pl pv] k]; rep_open H;
    cbn [heap root black_height faddr ctx_parent] in *;
    unfold replace_by_child;
    (eexists; split; [hrun; reflexivity|split; [|done]]);
    rep_close'.
Qed.


(** ** The invariants through a context *)

Lemma bheight_fill f t :
  bheight (fsib f) = bheight t →
  bheight (fill f t) = (black_bit (fcolor f) + bheight t)%nat.
Proof. destruct f; simpl; lia. Qed.

Lemma balanced_plug k t :
  balanced (plug k t) ↔ balanced t ∧ ctx_balanced k (bheight t).
Proof.
  revert t. induction k as [|f k IH]; intros t; simpl; [tauto|].
  rewrite IH. split.
  - intros (Hb & Hk).
    assert (bheight (fsib f) = bheight t ∧ balanced t ∧ balanced (fsib f)) as (E & ? & ?).
    { destruct f; simpl in *; destruct Hb as (? & ? & ?); split_and!; done. }
    rewrite (bheight_fill _ _ E) in Hk. tauto.
  - intros (Ht & Hs & E & Hk). rewrite (bheight_fill _ _ E). split; [|done].
    destruct f; simpl in *; split_and!; done.
Qed.

Lemma nored_plug k t :
  nored (plug k t) ↔ nored t ∧ ctx_nored k (root_color t).
Proof.
  revert t. induction k as [|f k IH]; intros t; simpl; [tauto|].
  rewrite IH. destruct f; simpl; tauto.
Qed.

Lemma root_color_plug k t :
  root_color (plug k t) = ctx_top_color k (root_color t).
Proof.
  revert t. induction k as [|f k IH]; intros t; simpl; [done|].
  rewrite IH. by destruct f.
Qed.

Lemma rb_plug k t :
  rb (plug k t) ↔
    ctx_top_color k (root_color t) = Black
    ∧ (nored t ∧ ctx_nored k (root_color t))
    ∧ (balanced t ∧ ctx_balanced k (bheight t)).
Proof.
  unfold rb, root_black. by rewrite root_color_plug, nored_plug, balanced_plug.
Qed.

Lemma ctx_nored_black k c : ctx_nored k c → ctx_nored k Black.
Proof. destruct k as [|f k]; simpl; [done|]. tauto. Qed.

Lemma ctx_top_color_black k c :
  ctx_top_color k c = Black → ctx_top_color k Black = Black.
Proof. by destruct k. Qed.

Lemma ctx_top_color_cons f k c c' :
  ctx_top_color (f :: k) c = ctx_top_color (f :: k) c'.
Proof. done. Qed.

Lemma ctx_root_not k a b :
  a ≠ b → a ∉ ctx_addrs_l k → a ∉ ctx_addrs_r k → ctx_root k (Some b) ≠ Some a.
Proof.
  intros Hab Hl Hr E. apply ctx_root_in in E as [?|Hin]; [done|].
  unfold caddrs in Hin. apply elem_of_app in Hin as [?|?]; done.
Qed.

Lemma rep_nodup st t : represents st t → NoDup (addrs t).
Proof. by intros (_ & _ & ?). Qed.

Lemma represents_incr st t :
  represents st t →
  represents {| heap := heap st; root := root st;
                black_height := black_height st + 1 |} t.
Proof. done. Qed.

Lemma get_root_ok st : get_root st = Ok (root st, st).
Proof. done. Qed.

(** ** Running the code on a represented tree *)

Lemma returns_intro {A} (m : M A) st a st' (Q : A → RedBlackTree → Prop) :
  m st = Ok (a, st') → Q a st' → returns (m st) Q.
Proof. intros E HQ. exists a, st'. done. Qed.

Lemma returns_ret {A} (a : A) st (Q : A → RedBlackTree → Prop) :
  Q a st → returns (ret a st) Q.
Proof. intros HQ. by exists a, st. Qed.

Lemma returns_bind {A B} (m : M A) (f : A → M B) st a st1 Q :
  m st = Ok (a, st1) → returns (f a st1) Q → returns (bind m f st) Q.
Proof. intros E H. by rewrite (bind_ok _ _ _ _ _ E). Qed.

Lemma returns_bind_returns {A B} (m : M A) (f : A → M B) st Q :
  returns (m st) (λ a st1, returns (f a st1) Q) → returns (bind m f st) Q.
Proof. intros (a & st1 & E & H). by rewrite (bind_ok _ _ _ _ _ E). Qed.

Lemma returns_bind_assoc {A B C} (m : M A) (g : A → M B) (f : B → M C) st Q :
  returns (bind m (λ x, bind (g x) f) st) Q → returns (bind (bind m g) f st) Q.
Proof.
  unfold returns, bind. intros (a & st' & E & H). exists a, st'. split; [|done].
  destruct (m st) as [[x st1]| |]; try done.
Qed.

Lemma returns_mono {A} (r : result (A * RedBlackTree)) (Q Q' : A → RedBlackTree → Prop) :
  returns r Q → (∀ a st, Q a st → Q' a st) → returns r Q'.
Proof. intros (a & st & E & H) HQ. exists a, st. auto. Qed.

Lemma returns_last {A} (m : M A) st Q :
  returns (bind m ret st) Q → returns (m st) Q.
Proof.
  unfold returns, bind, ret. intros (a & st' & E & H). exists a, st'. split; [|done].
  destruct (m st) as [[x st1]| |]; try done.
Qed.

Lemma returns_ok {A} (a : A) st (Q : A → RedBlackTree → Prop) :
  Q a st → returns (Ok (a, st)) Q.
Proof. intros HQ. by exists a, st. Qed.

Lemma is_red_node_spec st k t :
  represents st (plug k t) →
  is_red_node (root_of t) st = Ok (is_red (root_color t), st).
Proof.
  intros H. destruct t as [|a c l v r]; [done|]. simpl.
  by rewrite (bind_ok _ _ _ _ _ (get_color_spec _ _ _ _ _ _ _ H)).
Qed.

Lemma is_none_or_black_spec st k t :
  represents st (plug k t) →
  is_none_or_black (root_of t) st = Ok (is_black (root_color t), st).
Proof.
  intros H. destruct t as [|a c l v r]; [done|]. simpl.
  by rewrite (bind_ok _ _ _ _ _ (get_color_spec _ _ _ _ _ _ _ H)).
Qed.

(** The path from the subtree [s] of the explicit tree [t] up to the
    context [k] around [t]. *)
Ltac focus_sub s t k :=
  match t with
  | s => constr:(k)
  | Node ?x ?c ?l ?v ?r => focus_sub s l constr:(FL x c v r :: k)
  | Node ?x ?c ?l ?v ?r => focus_sub s r constr:(FR x c l v :: k)
  end.

(** The path from the node [a] of the explicit tree [t] up to the context
    [k] around [t]. *)
Ltac focus_ctx a t k :=
  match t with
  | Node a _ _ _ _ => constr:(k)
  | Node ?x ?c ?l ?v ?r => focus_ctx a l constr:(FL x c v r :: k)
  | Node ?x ?c ?l ?v ?r => focus_ctx a r constr:(FR x c l v :: k)
  end.

(** Keep a [represents] fact in the form [plug k t] with [t] as large as
    the explicit frames allow. *)
Ltac plug_norm H :=
  cbn [plug fill] in H;
  repeat match type of H with
         | context [plug ?k (fill ?f ?t)] =>
           change (plug k (fill f t)) with (plug (f :: k) t) in H
         end;
  lazymatch type of H with
  | represents ?st (plug _ _) => idtac
  | represents ?st ?t => change (represents st (plug [] t)) in H
  end.

Ltac rep_write H spec :=
  let st' := fresh "st" in
  let Heq := fresh "Heq" in
  let H' := fresh "Hrep" in
  destruct spec as (st' & Heq & H' & _);
  eapply returns_bind; [exact Heq|];
  clear Heq; plug_norm H'; clear H.

Ltac tprim st m :=
  lazymatch goal with
  | H : represents st (plug ?k0 ?t) |- _ =>
    lazymatch m with
    | get_parent ?a =>
      let k := focus_ctx a t k0 in
      eapply returns_bind; [exact (get_parent_spec st k a _ _ _ _ H)|]
    | get_left ?a =>
      let k := focus_ctx a t k0 in
      eapply returns_bind; [exact (get_left_spec st k a _ _ _ _ H)|]
    | get_right ?a =>
      let k := focus_ctx a t k0 in
      eapply returns_bind; [exact (get_right_spec st k a _ _ _ _ H)|]
    | get_color ?a =>
      let k := focus_ctx a t k0 in
      eapply returns_bind; [exact (get_color_spec st k a _ _ _ _ H)|]
    | get_data ?a =>
      let k := focus_ctx a t k0 in
      eapply returns_bind; [exact (get_data_spec st k a _ _ _ _ H)|]
    | get_root =>
      eapply returns_bind; [exact (get_root_spec st _ H)|];
      rewrite ?root_of_plug; cbn [root_of ctx_root faddr]
    | is_red_node (root_of ?t1) =>
      let k := focus_sub t1 t k0 in
      eapply returns_bind; [exact (is_red_node_spec st k t1 H)|]
    | is_none_or_black (root_of ?t1) =>
      let k := focus_sub t1 t k0 in
      eapply returns_bind; [exact (is_none_or_black_spec st k t1 H)|]
    | incr_black_height =>
      eapply returns_bind; [reflexivity|];
      apply represents_incr in H
    | set_color ?a ?c =>
      let k := focus_ctx a t k0 in
      rep_write H (set_color_spec st k a _ _ _ _ c H)
    | set_data ?a ?d =>
      let k := focus_ctx a t k0 in
      rep_write H (set_data_spec st k a _ _ _ _ d H)
    | rotation ?a =>
      let k := focus_ctx a t k0 in
      lazymatch k with
      | FR ?p ?pc ?l ?pv :: ?k' =>
        rep_write H (rotation_left_spec st k' p pc l pv a _ _ _ _ H)
      | FL ?p ?pc ?pv ?r :: ?k' =>
        rep_write H (rotation_right_spec st k' p pc a _ _ _ _ pv r H)
      end
    end
  end.

Ltac cond_solve P :=
  first [ rewrite (bool_decide_eq_true_2 P) by done
        | rewrite (bool_decide_eq_false_2 P) by cond_false
        | rewrite (bool_decide_eq_false_2 P)
            by (first [ by apply ctx_root_not
                      | by apply not_symmetry, ctx_root_not ]) ].

Ltac tstep :=
  cbn beta iota zeta;
  lazymatch goal with
  | |- returns (ret _ _) _ => fail
  | |- returns (bind ?m ?f ?st) _ =>
    lazymatch m with
    | ret _ => eapply returns_bind; [reflexivity|]
    | deref (Some _) => eapply returns_bind; [reflexivity|]
    | bind _ _ => apply returns_bind_assoc
    | context [bool_decide ?P] => cond_solve P
    | is_red_node (Some _) => unfold is_red_node at 1
    | is_red_node None => unfold is_red_node at 1
    | is_none_or_black (Some _) => unfold is_none_or_black at 1
    | is_none_or_black None => unfold is_none_or_black at 1
    | sibling_of _ _ => unfold sibling_of at 1
    | delete_rebalance_red_nephew _ _ _ =>
      unfold delete_rebalance_red_nephew at 1
    | _ => tprim st m
    end
  | |- returns ((if bool_decide ?P then _ else _) _) _ => cond_solve P
  | |- returns (set_color _ _ _) _ => apply returns_last
  | |- returns (set_data _ _ _) _ => apply returns_last
  | |- returns (set_parent _ _ _) _ => apply returns_last
  | |- returns (rotation _ _) _ => apply returns_last
  | |- returns (incr_black_height _) _ => apply returns_last
  | |- returns (delete_rebalance_red_nephew _ _ _ _) _ =>
    unfold delete_rebalance_red_nephew
  end;
  repeat match goal with
         | H : root_color ?t = _ |- context [root_color ?t] => rewrite H
         end;
  cbn [fst snd is_red is_black root_of root_color ctx_parent faddr].

Ltac trun := repeat tstep.

(** Distinctness facts about the nodes of an explicit represented tree. *)
Ltac rep_distinct H :=
  let Hnd := fresh "Hnd" in
  pose proof (rep_nodup _ _ H) as Hnd;
  rewrite ?addrs_plug in Hnd;
  list_norm_in Hnd; nodup_destruct.

(** ** Insert-rebalance (section 4.3) *)

Lemma color_not_red c : c ≠ Red → c = Black.
Proof. by destruct c. Qed.

Ltac rb_open :=
  repeat match goal with
  | H : nored (Node _ _ _ _ _) |- _ => cbn [nored] in H; destruct_and? H
  | H : balanced (Node _ _ _ _ _) |- _ => cbn [balanced] in H; destruct_and? H
  | H : ctx_nored (_ :: _) _ |- _ =>
    cbn [ctx_nored fsib fcolor] in H; destruct_and? H
  | H : ctx_balanced (_ :: _) _ |- _ =>
    cbn [ctx_balanced fsib fcolor] in H; destruct_and? H
  | H : Red = Red → _ |- _ => specialize (H eq_refl); destruct_and? H
  | H : Black = Red → _ |- _ => clear H
  | H : root_color (Node _ _ _ _ _) = _ |- _ => cbn [root_color] in H
  end.

Ltac clear_distinct :=
  repeat match goal with
         | H : _ ∉ _ |- _ => clear H
         | H : _ ≠ _ |- _ => clear H
         | H : ldisj _ _ |- _ => clear H
         | H : NoDup _ |- _ => clear H
         end.

Lemma ctx_balanced_eq k n m : n = m → ctx_balanced k n → ctx_balanced k m.
Proof. by intros ->. Qed.

Ltac rb_simpl :=
  cbn [nored balanced ctx_nored ctx_balanced ctx_top_color root_color bheight
       black_bit fsib fcolor Nat.add length head fmap option_fmap option_map] in *.

Ltac rb_finish :=
  first [ done | congruence | lia | by eapply ctx_nored_black
        | by eapply ctx_top_color_black
        | (eapply ctx_balanced_eq; [|eassumption]; lia)
        | intuition (first [done | congruence | lia]) ].

Ltac rb_solve :=
  apply rb_plug; rb_simpl; split_and!; rb_finish.

Ltac inorder_solve :=
  rewrite ?inorder_plug; list_norm; done.

Lemma insert_rebalance_spec fuel : ∀ k st x l v r,
  (length k ≤ fuel)%nat →
  represents st (plug k (Node x Red l v r)) →
  fcolor <$> head k = Some Red →
  ctx_top_color k Red = Black →
  nored (Node x Red l v r) →
  balanced (Node x Red l v r) →
  ctx_nored k Black →
  ctx_balanced k (bheight (Node x Red l v r)) →
  returns (insert_rebalance fuel x st) (λ _ st', ∃ t',
    represents st' t'
    ∧ rb t'
    ∧ inorder t' = inorder (plug k (Node x Red l v r))).
Proof.
  induction fuel as [|fuel IH]; intros k st x l v r Hlen Hrep Hpr Htop Hnr Hbal Hknr Hkbal.
  { destruct k; simpl in *; [done|lia]. }
  destruct k as [|f1 [|f2 k2]]; simpl in Hpr; try done.
  { injection Hpr as Hpr. simpl in Htop. congruence. }
  injection Hpr as Hpr.
  assert (fcolor f2 = Black) as Hf2.
  { apply color_not_red. intros E. simpl in Hknr. destruct Hknr as (_ & _ & _ & Hc & _).
    destruct (Hc E) as [? _]. congruence. }
  simpl in Htop.
  cbn [insert_rebalance]. unfold insert_rebalance_body.
  destruct f1 as [p pc pv ps|p pc ps pv], f2 as [g gc gv u|g gc u gv];
    simpl in Hpr, Hf2; subst pc gc;
    (destruct u as [|u [|] ul uv ur];
     [ (* no uncle *) | (* red uncle *)
       destruct k2 as [|[a3 c3 v3 r3|a3 c3 l3 v3] [|[a4 c4 v4 r4|a4 c4 l4 v4] k4]]
     | (* black uncle *) ]);
    plug_norm Hrep; rep_distinct Hrep; rb_open; trun;
    try (destruct c3; cbn [is_red]; trun); clear_distinct.
  all: try (lazymatch goal with |- returns (ret _ _) _ => idtac end;
            apply returns_ret; eexists; split; [eassumption|split; [rb_solve|inorder_solve]]).
  all: try match goal with
       | H : represents ?st (plug ?k0 ?t) |- returns (insert_rebalance _ ?g ?st) _ =>
         let k := focus_ctx g t k0 in
         eapply returns_mono; [eapply (IH k st g); [|exact H|..]|]
       end.
  all: try (rb_simpl; split_and?; rb_finish).
  all: intros _ st' (t' & ? & ? & E); exists t'; split_and!; [done..|];
    rewrite E; inorder_solve.
Qed.


(** ** Order *)

Lemma sorted_middle (l1 l2 : list Z) x :
  StronglySorted Z.le (l1 ++ x :: l2) ↔
    StronglySorted Z.le l1 ∧ StronglySorted Z.le l2
    ∧ Forall (λ y, y ≤ x) l1 ∧ Forall (λ y, x ≤ y) l2.
Proof.
  rewrite StronglySorted_app, StronglySorted_cons, !Forall_forall. split.
  - intros (H12 & H1 & H2 & H3). split_and!; try done.
    intros y Hy. apply H12; [done|left].
  - intros (H1 & H2 & H3 & H4). split_and!; try done.
    intros y z Hy Hz. apply elem_of_cons in Hz as [->|Hz]; [by apply H3|].
    specialize (H3 y Hy). specialize (H4 z Hz). lia.
Qed.

(** Invariant 1, in the form the code keeps it, is the sortedness of the
    in-order traversal. *)
Lemma bst_sorted t : bst t ↔ StronglySorted Z.le (inorder t).
Proof.
  induction t as [|a c l IHl v r IHr]; simpl.
  - split; [constructor|done].
  - rewrite sorted_middle, IHl, IHr. tauto.
Qed.

Lemma height_plug k t : (length k + height t ≤ height (plug k t))%nat.
Proof.
  revert t. induction k as [|f k IH]; intros t; simpl; [lia|].
  specialize (IH (fill f t)). destruct f; simpl in *; lia.
Qed.

Lemma height_size t : (height t ≤ length (inorder t))%nat.
Proof.
  induction t as [|a c l IHl v r IHr]; simpl; [lia|].
  rewrite length_app. simpl. lia.
Qed.

(** ** Insert (section 4.2) *)

Lemma insert_loop_spec d fuel : ∀ k st a c l v r,
  (height (Node a c l v r) ≤ fuel)%nat →
  represents st (plug k (Node a c l v r)) →
  StronglySorted Z.le (inorder (Node a c l v r)) →
  Forall (λ y, y ≤ d) (ctx_left k) →
  Forall (λ y, d ≤ y) (ctx_right k) →
  returns (insert_loop fuel d a st) (λ n st', ∃ k',
    represents st' (plug k' (Node n Red Leaf d Leaf))
    ∧ plug k' Leaf = plug k (Node a c l v r)
    ∧ k' ≠ []
    ∧ Forall (λ y, y ≤ d) (ctx_left k')
    ∧ Forall (λ y, d ≤ y) (ctx_right k')).
Proof.
  induction fuel as [|fuel IH]; intros k st a c l v r Hh Hrep Hs Hl Hr.
  { simpl in Hh. lia. }
  simpl in Hs. apply sorted_middle in Hs as (Hsl & Hsr & Hlv & Hrv).
  cbn [insert_loop]. tstep. case_bool_decide as Hd.
  - assert (Forall (λ y, d ≤ y) (ctx_right (FL a c v r :: k))) as Hr'.
    { cbn [ctx_right]. constructor; [clear -Hd; cbn beta; lia|].
      apply Forall_app. split; [|done].
      eapply Forall_impl; [exact Hrv|]. clear -Hd. cbn beta. intros; lia. }
    destruct l as [|la lc ll lv lr].
    + trun.
      destruct (insert_leaf_left_spec st k a c v r d Hrep) as (st' & n & Heq & Hrep' & _).
      eapply returns_intro; [exact Heq|].
      exists (FL a c v r :: k). split_and!; done.
    + trun. eapply returns_mono.
      { apply (IH (FL a c v r :: k)); try done.
        clear -Hh. cbn [height] in *. lia. }
      intros n st' (k' & ? & ? & ? & ? & ?). exists k'. done.
  - assert (Forall (λ y, y ≤ d) (ctx_left (FR a c l v :: k))) as Hl'.
    { cbn [ctx_left]. rewrite !Forall_app. split_and!; [done| |].
      - eapply Forall_impl; [exact Hlv|]. clear -Hd. cbn beta. intros; lia.
      - constructor; [clear -Hd; cbn beta; lia|constructor]. }
    destruct r as [|ra rc rl rv rr].
    + trun.
      destruct (insert_leaf_right_spec st k a c l v d Hrep) as (st' & n & Heq & Hrep' & _).
      eapply returns_intro; [exact Heq|].
      exists (FR a c l v :: k). split_and!; done.
    + trun. eapply returns_mono.
      { apply (IH (FR a c l v :: k)); try done.
        clear -Hh. cbn [height] in *. lia. }
      intros n st' (k' & ? & ? & ? & ? & ?). exists k'. done.
Qed.

Lemma rb_leaf : rb Leaf.
Proof. by unfold rb, root_black. Qed.

(** What one insertion does to a well-formed tree. *)
Lemma insert_spec fuel d st t :
  (height t ≤ fuel)%nat →
  represents st t → rb t → StronglySorted Z.le (inorder t) →
  returns (insert fuel d st) (λ _ st', ∃ t' l1 l2,
    represents st' t' ∧ rb t'
    ∧ inorder t = l1 ++ l2 ∧ inorder t' = l1 ++ d :: l2
    ∧ StronglySorted Z.le (inorder t')).
Proof.
  intros Hh Hrep Hrb Hs.
  destruct t as [|a c l v r].
  { destruct (insert_empty_spec st d Hrep) as (st' & n & Heq & Hrep' & _).
    assert (insert fuel d st = insert 0 d st) as ->.
    { unfold insert, bind, get_root. destruct Hrep as (_ & Hroot & _).
      rewrite Hroot. done. }
    eapply returns_intro; [exact Heq|].
    exists (Node n Black Leaf d Leaf), [], []. split_and!; try done.
    simpl. repeat constructor. }
  unfold insert. change (Node a c l v r) with (plug [] (Node a c l v r)) in Hrep.
  tstep. cbn iota beta.
  apply returns_bind_returns. eapply returns_mono.
  { apply (insert_loop_spec d fuel [] st a c l v r); try done; simpl; constructor. }
  cbn beta. intros n st1 (k' & Hrep1 & Hpl & Hne & Hl & Hr).
  simpl in Hpl. rewrite <- Hpl in *. clear Hpl Hrep.
  pose proof (height_plug k' Leaf) as Hlen.
  apply rb_plug in Hrb as (Htop & (_ & Hnr) & (_ & Hbal)).
  rewrite inorder_plug in Hs. simpl in Hs, Htop, Hnr, Hbal.
  assert (StronglySorted Z.le (ctx_left k' ++ d :: ctx_right k')) as Hs'.
  { apply StronglySorted_app in Hs as (H12 & H1 & H2).
    apply sorted_middle. rewrite Forall_forall in Hl, Hr. rewrite !Forall_forall.
    split_and!; try done. }
  destruct k' as [|[p pc pv ps|p pc ps pv] k']; [done| |];
    plug_norm Hrep1; trun; destruct pc; cbn [is_red];
    match type of Hs' with
    | StronglySorted _ (ctx_left ?K ++ _) =>
      first
        [ (* red parent *)
          eapply returns_mono;
          [ apply (insert_rebalance_spec fuel K st1 n Leaf d Leaf); try done;
            clear -Hh Hlen; simpl in *; lia
          | intros _ st2 (t2 & ? & ? & E); exists t2, (ctx_left K), (ctx_right K);
            split_and!; try done; by rewrite ?E, ?inorder_plug ]
        | (* black parent *)
          apply returns_ret; eexists _, (ctx_left K), (ctx_right K);
          split_and!; [eassumption|rb_solve|..];
          rewrite ?inorder_plug; list_norm; list_norm_in Hs'; done ]
    end.
Qed.


(** ** Search (section 4.7) *)

Lemma search_loop_spec d fuel : ∀ k t st,
  (height t ≤ fuel)%nat →
  represents st (plug k t) →
  StronglySorted Z.le (inorder t) →
  returns (search_loop fuel d (root_of t) st) (λ res st',
    st' = st ∧
    match res with
    | None => d ∉ inorder t
    | Some a => ∃ k' c l r, plug k' (Node a c l d r) = plug k t
    end).
Proof.
  induction fuel as [|fuel IH]; intros k t st Hh Hrep Hs.
  { destruct t; simpl in Hh; [|lia]. apply returns_ret. split; [done|]. apply not_elem_of_nil. }
  destruct t as [|a c l v r].
  { apply returns_ret. split; [done|]. apply not_elem_of_nil. }
  cbn [inorder] in Hs. apply sorted_middle in Hs as (Hsl & Hsr & Hlv & Hrv).
  cbn [root_of search_loop]. tstep. case_bool_decide as Hd.
  { subst v. apply returns_ret. split; [done|]. by exists k, c, l, r. }
  case_bool_decide as Hlt.
  - trun. eapply returns_mono.
    { apply (IH (FL a c v r :: k) l); [clear -Hh; cbn [height] in Hh; lia|done..]. }
    intros [b|] st' [-> Hres]; (split; [done|]); [done|].
    cbn [inorder]. rewrite not_elem_of_app, not_elem_of_cons. split_and!; [done..|].
    intros Hin. rewrite Forall_forall in Hrv. specialize (Hrv _ Hin).
    clear -Hrv Hlt. cbn beta in Hrv. lia.
  - trun. eapply returns_mono.
    { apply (IH (FR a c l v :: k) r); [clear -Hh; cbn [height] in Hh; lia|done..]. }
    intros [b|] st' [-> Hres]; (split; [done|]); [done|].
    cbn [inorder]. rewrite not_elem_of_app, not_elem_of_cons. split_and!; [|done..].
    intros Hin. rewrite Forall_forall in Hlv. specialize (Hlv _ Hin).
    clear -Hlv Hlt Hd. cbn beta in Hlv. lia.
Qed.

Lemma search_spec d fuel t st :
  (height t ≤ fuel)%nat →
  represents st t →
  StronglySorted Z.le (inorder t) →
  returns (search fuel d st) (λ res st',
    st' = st ∧
    match res with
    | None => d ∉ inorder t
    | Some a => ∃ k' c l r, plug k' (Node a c l d r) = t
    end).
Proof.
  intros Hh Hrep Hs. unfold search.
  eapply returns_bind; [exact (get_root_spec st t Hrep)|].
  by apply (search_loop_spec d fuel [] t st).
Qed.

(** ** Delete-rebalance (section 4.6) *)

Lemma root_color_red_inv t :
  root_color t = Red → ∃ a l v r, t = Node a Red l v r.
Proof. destruct t as [|a c l v r]; simpl; [done|]. intros ->. eauto. Qed.

Lemma bheight_pos_inv t n :
  bheight t = S n → ∃ a c l v r, t = Node a c l v r.
Proof. destruct t as [|a c l v r]; simpl; [done|]. eauto 10. Qed.

(** Case analysis on the colour of the root of a subtree; a red root is
    made explicit. *)
Ltac color_cases t :=
  let E := fresh "Ec" in
  destruct (root_color t) eqn:E;
  [ apply root_color_red_inv in E as (? & ? & ? & ? & ->) | ].

Ltac dr_finish x :=
  apply returns_ret; split; [done|];
  match goal with
  | H : represents ?st (plug ?k0 ?t) |- _ =>
    let k := focus_ctx x t k0 in
    exists k; split; [exact H|]
  end;
  rb_simpl; cbn [ctx_left ctx_right ctx_parent faddr]; split_and!;
  first [ rb_finish | (list_norm; first [done | congruence]) ].

Ltac rb_absurd := exfalso; rb_simpl; intuition (first [congruence | lia]).

(** The call on the parent in case 2a, and what follows it. *)
Ltac dr_recurse IH x :=
  lazymatch goal with
  | Hrep : represents ?st (plug ?k1 (Node ?p Black ?tl ?pv ?tr))
    |- returns (bind (delete_rebalance _ ?p) _ ?st) _ =>
    apply returns_bind_returns; eapply returns_mono;
    [ eapply (IH k1 st p tl pv tr);
      [ | exact Hrep | .. ]; rb_simpl; rb_finish
    | let k1' := fresh "k" in
      let Hrep1 := fresh "Hrep" in
      intros ? ? (-> & k1' & Hrep1 & ? & ? & ? & ? & ? & ?);
      clear Hrep; plug_norm Hrep1; trun; dr_finish x ]
  end.

Lemma delete_rebalance_spec fuel : ∀ k st x l v r n,
  (length k < fuel)%nat →
  represents st (plug k (Node x Black l v r)) →
  root_color l = Black → root_color r = Black →
  bheight l = n →
  ctx_balanced k (S n) → ctx_nored k Black → ctx_top_color k Black = Black →
  returns (delete_rebalance fuel x st) (λ b st', b = true ∧ ∃ k',
    represents st' (plug k' (Node x Black l v r))
    ∧ ctx_balanced k' n ∧ ctx_nored k' Black ∧ ctx_top_color k' Black = Black
    ∧ ctx_left k' = ctx_left k ∧ ctx_right k' = ctx_right k
    ∧ ctx_parent k' = ctx_parent k).
Proof.
  induction fuel as [|fuel IH]; intros k st x l v r n Hlen Hrep Hcl Hcr Hbl Hkb Hkn Htop.
  { lia. }
  cbn [delete_rebalance]. unfold delete_rebalance_body.
  destruct k as [|f k1].
  { rep_distinct Hrep. plug_norm Hrep. trun. dr_finish x. }
  assert (∃ s sc sl sv sr, fsib f = Node s sc sl sv sr) as (s & sc & sl & sv & sr & Es).
  { cbn [ctx_balanced] in Hkb. destruct Hkb as (_ & Hb & _). by eapply bheight_pos_inv. }
  destruct f as [p pc pv s0|p pc s0 pv]; cbn [fsib] in Es; subst s0.
  - destruct sc.
    + (* red sibling *)
      destruct pc; [rb_absurd|].
      destruct sl as [|a1 [|] sll v1 slr]; [rb_absurd..|].
      destruct sr as [|a2 [|] srl v2 srr]; [rb_absurd..|].
      color_cases sll; color_cases slr;
        rep_distinct Hrep; plug_norm Hrep; rb_open; trun; clear_distinct; dr_finish x.
    + color_cases sl; color_cases sr; try destruct pc;
        rep_distinct Hrep; plug_norm Hrep; rb_open; trun; clear_distinct;
        first [ dr_finish x | dr_recurse IH x ].
  - destruct sc.
    + destruct pc; [rb_absurd|].
      destruct sl as [|a1 [|] sll v1 slr]; [rb_absurd..|].
      destruct sr as [|a2 [|] srl v2 srr]; [rb_absurd..|].
      color_cases srl; color_cases srr;
        rep_distinct Hrep; plug_norm Hrep; rb_open; trun; clear_distinct; dr_finish x.
    + color_cases sl; color_cases sr; try destruct pc;
        rep_distinct Hrep; plug_norm Hrep; rb_open; trun; clear_distinct;
        first [ dr_finish x | dr_recurse IH x ].
Qed.


(** ** Delete-helper (section 4.5): nodes with at most one child *)

Lemma delete_rebalance_red_left fuel st k x c y yl yv yr v r :
  represents st (plug k (Node x c (Node y Red yl yv yr) v r)) →
  returns (delete_rebalance (S fuel) x st) (λ b st',
    b = true ∧ represents st' (plug k (Node x c (Node y Black yl yv yr) v r))).
Proof.
  intros Hrep. cbn [delete_rebalance]. unfold delete_rebalance_body.
  plug_norm Hrep. trun. apply returns_ret. split; [done|]. exact Hrep0.
Qed.

Lemma delete_rebalance_red_right fuel st k x c l v y yl yv yr :
  root_color l = Black →
  represents st (plug k (Node x c l v (Node y Red yl yv yr))) →
  returns (delete_rebalance (S fuel) x st) (λ b st',
    b = true ∧ represents st' (plug k (Node x c l v (Node y Black yl yv yr)))).
Proof.
  intros Hl Hrep. cbn [delete_rebalance]. unfold delete_rebalance_body.
  plug_norm Hrep. trun. apply returns_ret. split; [done|]. exact Hrep0.
Qed.

Lemma black_bheight_0 t : root_color t = Black → bheight t = 0%nat → t = Leaf.
Proof. destruct t as [|a c l v r]; simpl; [done|]. intros ->. simpl. lia. Qed.

Lemma ctx_parent_cons_inv k f k1 :
  ctx_parent k = ctx_parent (f :: k1) → ∃ f' k', k = f' :: k' ∧ faddr f' = faddr f.
Proof. destruct k as [|f' k']; simpl; [done|]. intros [= E]. eauto. Qed.

Lemma delete_leaf_spec fuel rec st k x c v :
  (length k < fuel)%nat →
  represents st (plug k (Node x c Leaf v Leaf)) →
  rb (plug k (Node x c Leaf v Leaf)) →
  returns (delete_helper_body fuel rec x st) (removed k Leaf Leaf).
Proof.
  intros Hlen Hrep Hrb. apply rb_plug in Hrb as (Htop & (Hnr & Hknr) & (Hbal & Hkbal)).
  unfold delete_helper_body. plug_norm Hrep.
  destruct k as [|f k1].
  { trun. destruct (unlink_root_spec st x c v Hrep) as (st' & Heq & Hrep' & _).
    eapply returns_bind; [exact Heq|]. apply returns_ret. split; [done|].
    exists Leaf. split; [done|split; [apply rb_leaf|done]]. }
  trun. unfold rebalance_if_black. trun. destruct c; cbn [is_black].
  - tstep.
    destruct (unlink_leaf_spec st f k1 x Red v Hrep) as (st' & Heq & Hrep' & _).
    eapply returns_bind; [exact Heq|]. apply returns_ret. split; [done|].
    eexists. split; [exact Hrep'|split; [|by rewrite inorder_plug]].
    apply rb_plug. cbn [root_color nored balanced bheight black_bit Nat.add] in *.
    split_and!; first [done | by eapply ctx_top_color_black | by eapply ctx_nored_black].
  - apply returns_bind_assoc. apply returns_bind_returns. eapply returns_mono.
    { eapply (delete_rebalance_spec fuel (f :: k1) st x Leaf v Leaf 0); done. }
    cbn beta. intros b st1 (-> & k' & Hrep1 & Hb1 & Hn1 & Ht1 & El & Er & Ep).
    apply ctx_parent_cons_inv in Ep as (f' & k1' & -> & Ef).
    tstep. rewrite <- Ef.
    destruct (unlink_leaf_spec st1 f' k1' x Black v Hrep1) as (st' & Heq & Hrep' & _).
    eapply returns_bind; [exact Heq|]. apply returns_ret. split; [done|].
    eexists. split; [exact Hrep'|split; [|by rewrite inorder_plug, El, Er]].
    apply rb_plug. cbn [root_color nored balanced bheight]. done.
Qed.

(** In a red-black tree, the only child of a node is a red leaf, and the
    node itself is black. *)
Lemma only_child_shape c t :
  nored (Node 0%nat c Leaf 0 t) ∨ nored (Node 0%nat c t 0 Leaf) →
  balanced (Node 0%nat c Leaf 0 t) ∨ balanced (Node 0%nat c t 0 Leaf) →
  t ≠ Leaf →
  c = Black ∧ ∃ y yv, t = Node y Red Leaf yv Leaf.
Proof.
  intros Hnr Hbal Hne. destruct t as [|y yc yl yv yr]; [done|].
  assert (bheight (Node y yc yl yv yr) = 0%nat ∧ balanced (Node y yc yl yv yr)) as [Hb0 Hby].
  { destruct Hbal as [(? & ? & ?)|(? & ? & ?)]; done. }
  assert ((c = Red → yc = Black) ∧ nored (Node y yc yl yv yr)) as [Hc Hny].
  { destruct Hnr as [(Hr & ? & ?)|(Hr & ? & ?)]; (split; [|done]); intros E;
      destruct (Hr E); done. }
  simpl in Hb0, Hby, Hny. destruct yc; simpl in Hb0; [|lia].
  destruct Hny as (Hr & _ & _). destruct (Hr eq_refl) as [Hl Hr'].
  destruct Hby as (Heq & _ & _).
  assert (yl = Leaf) as -> by (by apply black_bheight_0).
  assert (yr = Leaf) as -> by (apply black_bheight_0; [done|simpl in *; lia]).
  split; [|eauto]. destruct c; [|done]. by specialize (Hc eq_refl).
Qed.

Lemma delete_right_only_spec fuel rec st k x c v r :
  (1 ≤ fuel)%nat →
  r ≠ Leaf →
  represents st (plug k (Node x c Leaf v r)) →
  rb (plug k (Node x c Leaf v r)) →
  returns (delete_helper_body fuel rec x st) (removed k Leaf r).
Proof.
  intros Hfuel Hne Hrep Hrb.
  apply rb_plug in Hrb as (Htop & (Hnr & Hknr) & (Hbal & Hkbal)).
  destruct (only_child_shape c r) as (-> & y & yv & ->); [by left|by left|done|].
  destruct fuel as [|fuel]; [lia|].
  unfold delete_helper_body. plug_norm Hrep. trun. unfold rebalance_if_black. trun.
  apply returns_bind_returns. eapply returns_mono.
  { by eapply (delete_rebalance_red_right fuel st k x Black Leaf v y Leaf yv Leaf). }
  cbn beta. intros b st1 (-> & Hrep1). tstep.
  destruct (replace_by_right_spec st1 k x Black v y Black Leaf yv Leaf Hrep1)
    as (st' & Heq & Hrep' & _).
  eapply returns_bind; [exact Heq|]. apply returns_ret. split; [done|].
  eexists. split; [exact Hrep'|split; [|by rewrite inorder_plug]].
  apply rb_plug. cbn [root_color nored balanced bheight black_bit Nat.add] in *.
  split_and!; done.
Qed.

Lemma delete_left_only_spec fuel rec st k x c l v :
  (1 ≤ fuel)%nat →
  l ≠ Leaf →
  represents st (plug k (Node x c l v Leaf)) →
  rb (plug k (Node x c l v Leaf)) →
  returns (delete_helper_body fuel rec x st) (removed k l Leaf).
Proof.
  intros Hfuel Hne Hrep Hrb.
  apply rb_plug in Hrb as (Htop & (Hnr & Hknr) & (Hbal & Hkbal)).
  destruct (only_child_shape c l) as (-> & y & yv & ->); [by right|by right|done|].
  destruct fuel as [|fuel]; [lia|].
  unfold delete_helper_body. plug_norm Hrep. trun. unfold rebalance_if_black. trun.
  apply returns_bind_returns. eapply returns_mono.
  { by eapply (delete_rebalance_red_left fuel st k x Black y Leaf yv Leaf v Leaf). }
  cbn beta. intros b st1 (-> & Hrep1). tstep.
  destruct (replace_by_left_spec st1 k x Black v y Black Leaf yv Leaf Hrep1)
    as (st' & Heq & Hrep' & _).
  eapply returns_bind; [exact Heq|]. apply returns_ret. split; [done|].
  eexists. split; [exact Hrep'|split; [|by rewrite inorder_plug]].
  apply rb_plug. cbn [root_color nored balanced bheight black_bit Nat.add] in *.
  split_and!; done.
Qed.


(** ** Contexts in two parts *)

Lemma ctx_left_app k1 k2 : ctx_left (k1 ++ k2) = ctx_left k2 ++ ctx_left k1.
Proof.
  induction k1 as [|[a c v r|a c l v] k1 IH]; simpl.
  - by rewrite app_nil_r.
  - done.
  - by rewrite IH, <- app_assoc.
Qed.

Lemma ctx_right_app k1 k2 : ctx_right (k1 ++ k2) = ctx_right k1 ++ ctx_right k2.
Proof.
  induction k1 as [|[a c v r|a c l v] k1 IH]; simpl.
  - done.
  - by rewrite IH, <- app_assoc.
  - done.
Qed.

Lemma ctx_right_FR k : Forall is_FR k → ctx_right k = [].
Proof. induction 1 as [|[a c v r|a c l v] k Hf _ IH]; simpl; done. Qed.

Lemma ctx_left_FL k : Forall is_FL k → ctx_left k = [].
Proof. induction 1 as [|[a c v r|a c l v] k Hf _ IH]; simpl; done. Qed.

Lemma ctx_top_color_app k1 k2 c :
  ctx_top_color (k1 ++ k2) c = ctx_top_color k2 (ctx_top_color k1 c).
Proof. revert c. induction k1 as [|f k1 IH]; intros c; simpl; [done|apply IH]. Qed.

Lemma ctx_nored_app k1 k2 c :
  ctx_nored (k1 ++ k2) c ↔ ctx_nored k1 c ∧ ctx_nored k2 (ctx_top_color k1 c).
Proof.
  revert c. induction k1 as [|f k1 IH]; intros c; simpl; [tauto|].
  rewrite IH. tauto.
Qed.

Lemma ctx_balanced_app k1 k2 n :
  ctx_balanced (k1 ++ k2) n ↔ ctx_balanced k1 n ∧ ctx_balanced k2 (ctx_bheight k1 n).
Proof.
  revert n. induction k1 as [|f k1 IH]; intros n; simpl; [tauto|].
  rewrite IH. tauto.
Qed.

Lemma plug_app_cons k1 f k2 t :
  plug (k1 ++ f :: k2) t = plug k2 (fill f (plug k1 t)).
Proof. by rewrite plug_app. Qed.

Lemma root_of_plug_node k a c l v r :
  ∃ b, root_of (plug k (Node a c l v r)) = Some b.
Proof.
  revert a c l v r. induction k as [|f k IH]; intros a c l v r; simpl; [eauto|].
  destruct f; simpl; apply IH.
Qed.

(** Every non-empty tree ends, to the right, in a node without a right
    child, and to the left in a node without a left child. *)
Lemma rightmost_exists a c l v r :
  ∃ k d dc dl dv,
    Node a c l v r = plug k (Node d dc dl dv Leaf) ∧ Forall is_FR k.
Proof.
  revert a c l v. induction r as [|b bc bl _ bv br IH]; intros a c l v.
  - by exists [], a, c, l, v.
  - destruct (IH b bc bl bv) as (k & d & dc & dl & dv & E & Hk).
    exists (k ++ [FR a c l v]), d, dc, dl, dv. split.
    + rewrite plug_app. simpl. by rewrite <- E.
    + apply Forall_app. split; [done|]. by constructor.
Qed.

Lemma leftmost_exists a c l v r :
  ∃ k d dc dv dr,
    Node a c l v r = plug k (Node d dc Leaf dv dr) ∧ Forall is_FL k.
Proof.
  revert a c v r. induction l as [|b bc bl IH bv br _]; intros a c v r.
  - by exists [], a, c, v, r.
  - destruct (IH b bc bv br) as (k & d & dc & dv & dr & E & Hk).
    exists (k ++ [FL a c v r]), d, dc, dv, dr. split.
    + rewrite plug_app. simpl. by rewrite <- E.
    + apply Forall_app. split; [done|]. by constructor.
Qed.

(** ** The two loops of delete-helper *)

Lemma walk_right_spec kr : ∀ fuel k st d dc dl dv a count,
  Forall is_FR kr →
  represents st (plug (kr ++ k) (Node d dc dl dv Leaf)) →
  root_of (plug kr (Node d dc dl dv Leaf)) = Some a →
  (length kr < fuel)%nat →
  walk_right fuel a count st = Ok ((d, count + Z.of_nat (length kr)), st).
Proof.
  induction kr as [|f kr IH] using rev_ind; intros fuel k st d dc dl dv a count Hfr Hrep Ha Hlen.
  - destruct fuel as [|fuel]; [simpl in Hlen; lia|]. simpl in Ha. injection Ha as <-.
    cbn [walk_right]. simpl in Hrep.
    rewrite (bind_ok _ _ _ _ _ (get_right_spec _ _ _ _ _ _ _ Hrep)). simpl.
    unfold ret. do 3 f_equal. lia.
  - rewrite Forall_app, Forall_singleton in Hfr. destruct Hfr as [Hfr Hf].
    destruct f as [|b bc bl bv]; [exfalso; exact Hf|].
    rewrite length_app in Hlen. simpl in Hlen.
    destruct fuel as [|fuel]; [lia|].
    rewrite plug_app in Ha. simpl in Ha. injection Ha as <-.
    rewrite <- app_assoc in Hrep. simpl in Hrep.
    pose proof Hrep as Hrep'. rewrite plug_app_cons in Hrep'. simpl in Hrep'.
    destruct (root_of_plug_node kr d dc dl dv Leaf) as (a' & Ha').
    cbn [walk_right].
    rewrite (bind_ok _ _ _ _ _ (get_right_spec _ _ _ _ _ _ _ Hrep')). rewrite Ha'.
    rewrite (IH fuel (FR b bc bl bv :: k) st d dc dl dv a' (count + 1)); try done; [|lia].
    do 3 f_equal. rewrite length_app. simpl. lia.
Qed.

Lemma walk_left_spec kr : ∀ fuel k st d dc dv dr a count,
  Forall is_FL kr →
  represents st (plug (kr ++ k) (Node d dc Leaf dv dr)) →
  root_of (plug kr (Node d dc Leaf dv dr)) = Some a →
  (length kr < fuel)%nat →
  walk_left fuel a count st = Ok ((d, count + Z.of_nat (length kr)), st).
Proof.
  induction kr as [|f kr IH] using rev_ind; intros fuel k st d dc dv dr a count Hfr Hrep Ha Hlen.
  - destruct fuel as [|fuel]; [simpl in Hlen; lia|]. simpl in Ha. injection Ha as <-.
    cbn [walk_left]. simpl in Hrep.
    rewrite (bind_ok _ _ _ _ _ (get_left_spec _ _ _ _ _ _ _ Hrep)). simpl.
    unfold ret. do 3 f_equal. lia.
  - rewrite Forall_app, Forall_singleton in Hfr. destruct Hfr as [Hfr Hf].
    destruct f as [b bc bv br|]; [|exfalso; exact Hf].
    rewrite length_app in Hlen. simpl in Hlen.
    destruct fuel as [|fuel]; [lia|].
    rewrite plug_app in Ha. simpl in Ha. injection Ha as <-.
    rewrite <- app_assoc in Hrep. simpl in Hrep.
    pose proof Hrep as Hrep'. rewrite plug_app_cons in Hrep'. simpl in Hrep'.
    destruct (root_of_plug_node kr d dc Leaf dv dr) as (a' & Ha').
    cbn [walk_left].
    rewrite (bind_ok _ _ _ _ _ (get_left_spec _ _ _ _ _ _ _ Hrep')). rewrite Ha'.
    rewrite (IH fuel (FL b bc bv br :: k) st d dc dv dr a' (count + 1)); try done; [|lia].
    do 3 f_equal. rewrite length_app. simpl. lia.
Qed.

(** [a.data, b.data = b.data, a.data] for a node [x] and a node [d] below
    it, in the left or the right subtree. *)
Lemma swap_data_left_spec st k x c v r kl d dc dl dv dr :
  represents st (plug k (Node x c (plug kl (Node d dc dl dv dr)) v r)) →
  ∃ st', swap_data x d st = Ok (tt, st')
    ∧ represents st' (plug k (Node x c (plug kl (Node d dc dl v dr)) dv r)).
Proof.
  intros Hrep. unfold swap_data.
  pose proof Hrep as Hd. change (represents st (plug k (fill (FL x c v r) (plug kl (Node d dc dl dv dr))))) in Hd.
  rewrite <- plug_app_cons in Hd.
  rewrite (bind_ok _ _ _ _ _ (get_data_spec _ _ _ _ _ _ _ Hd)).
  rewrite (bind_ok _ _ _ _ _ (get_data_spec _ _ _ _ _ _ _ Hrep)).
  destruct (set_data_spec st k x c _ v r dv Hrep) as (st1 & Heq1 & Hrep1 & _).
  rewrite (bind_ok _ _ _ _ _ Heq1).
  change (represents st1 (plug k (fill (FL x c dv r) (plug kl (Node d dc dl dv dr))))) in Hrep1.
  rewrite <- plug_app_cons in Hrep1.
  destruct (set_data_spec st1 _ d dc dl dv dr v Hrep1) as (st2 & Heq2 & Hrep2 & _).
  exists st2. split; [done|]. rewrite plug_app_cons in Hrep2. exact Hrep2.
Qed.

Lemma swap_data_right_spec st k x c l v kr d dc dl dv dr :
  represents st (plug k (Node x c l v (plug kr (Node d dc dl dv dr)))) →
  ∃ st', swap_data x d st = Ok (tt, st')
    ∧ represents st' (plug k (Node x c l dv (plug kr (Node d dc dl v dr)))).
Proof.
  intros Hrep. unfold swap_data.
  pose proof Hrep as Hd. change (represents st (plug k (fill (FR x c l v) (plug kr (Node d dc dl dv dr))))) in Hd.
  rewrite <- plug_app_cons in Hd.
  rewrite (bind_ok _ _ _ _ _ (get_data_spec _ _ _ _ _ _ _ Hd)).
  rewrite (bind_ok _ _ _ _ _ (get_data_spec _ _ _ _ _ _ _ Hrep)).
  destruct (set_data_spec st k x c l v _ dv Hrep) as (st1 & Heq1 & Hrep1 & _).
  rewrite (bind_ok _ _ _ _ _ Heq1).
  change (represents st1 (plug k (fill (FR x c l dv) (plug kr (Node d dc dl dv dr))))) in Hrep1.
  rewrite <- plug_app_cons in Hrep1.
  destruct (set_data_spec st1 _ d dc dl dv dr v Hrep1) as (st2 & Heq2 & Hrep2 & _).
  exists st2. split; [done|]. rewrite plug_app_cons in Hrep2. exact Hrep2.
Qed.

(** ** Delete-helper: a node with two children *)

(** The donor is the in-order predecessor when it lies strictly deeper
    than the in-order successor, and the successor otherwise; the values
    of the node and the donor are exchanged and the deletion is started
    again at the donor. *)
Lemma delete_two_children_step fuel st k x c v kl p pc pl pv kr s sc sv sr :
  Forall is_FR kl → Forall is_FL kr →
  represents st
    (plug k (Node x c (plug kl (Node p pc pl pv Leaf)) v
                      (plug kr (Node s sc Leaf sv sr)))) →
  (length kl < fuel)%nat → (length kr < fuel)%nat →
  ∃ st',
    delete_helper (S fuel) x st =
      delete_helper fuel (if decide (length kr < length kl)%nat then p else s) st'
    ∧ represents st'
        (if decide (length kr < length kl)%nat
         then plug k (Node x c (plug kl (Node p pc pl v Leaf)) pv
                               (plug kr (Node s sc Leaf sv sr)))
         else plug k (Node x c (plug kl (Node p pc pl pv Leaf)) sv
                               (plug kr (Node s sc Leaf v sr)))).
Proof.
  intros Hkl Hkr Hrep Hll Hlr.
  set (l := plug kl (Node p pc pl pv Leaf)) in *.
  set (r := plug kr (Node s sc Leaf sv sr)) in *.
  destruct (root_of_plug_node kl p pc pl pv Leaf) as (a1 & Ha1).
  destruct (root_of_plug_node kr s sc Leaf sv sr) as (a2 & Ha2).
  assert (Hp : represents st (plug (kl ++ FL x c v r :: k) (Node p pc pl pv Leaf)))
    by (by rewrite plug_app_cons).
  assert (Hs : represents st (plug (kr ++ FR x c l v :: k) (Node s sc Leaf sv sr)))
    by (by rewrite plug_app_cons).
  cbn [delete_helper]. unfold delete_helper_body.
  rewrite (bind_ok _ _ _ _ _ (get_parent_spec _ _ _ _ _ _ _ Hrep)).
  rewrite (bind_ok _ _ _ _ _ (get_left_spec _ _ _ _ _ _ _ Hrep)).
  fold l. unfold l at 1. rewrite Ha1.
  rewrite (bind_ok _ _ _ _ _ (get_right_spec _ _ _ _ _ _ _ Hrep)).
  fold r. unfold r at 1. rewrite Ha2.
  rewrite (bind_ok _ _ _ _ _ (walk_right_spec kl fuel _ st p pc pl pv a1 0 Hkl Hp Ha1 Hll)).
  rewrite (bind_ok _ _ _ _ _ (walk_left_spec kr fuel _ st s sc sv sr a2 0 Hkr Hs Ha2 Hlr)).
  cbn [fst snd].
  destruct (decide (length kr < length kl)%nat) as [Hlt|Hge].
  - rewrite bool_decide_eq_true_2 by lia.
    destruct (swap_data_left_spec st k x c v r kl p pc pl pv Leaf Hrep) as (st' & Heq & Hrep').
    exists st'. by rewrite (bind_ok _ _ _ _ _ Heq).
  - rewrite bool_decide_eq_false_2 by lia.
    destruct (swap_data_right_spec st k x c l v kr s sc Leaf sv sr Hrep) as (st' & Heq & Hrep').
    exists st'. by rewrite (bind_ok _ _ _ _ _ Heq).
Qed.

(** ** Delete-helper, all cases *)

Lemma rb_value_indep k1 x c v v' r k2 t :
  rb (plug (k1 ++ FL x c v r :: k2) t) → rb (plug (k1 ++ FL x c v' r :: k2) t).
Proof.
  rewrite !rb_plug, !ctx_top_color_app, !ctx_nored_app, !ctx_balanced_app. simpl. tauto.
Qed.

Lemma rb_value_indep_r k1 x c l v v' k2 t :
  rb (plug (k1 ++ FR x c l v :: k2) t) → rb (plug (k1 ++ FR x c l v' :: k2) t).
Proof.
  rewrite !rb_plug, !ctx_top_color_app, !ctx_nored_app, !ctx_balanced_app. simpl. tauto.
Qed.

Lemma rb_node_value_indep k a c l v v' r :
  rb (plug k (Node a c l v r)) → rb (plug k (Node a c l v' r)).
Proof. rewrite !rb_plug. simpl. tauto. Qed.

(** Deleting a node with at most one child. *)
Lemma delete_helper_le1 fuel st k x c l v r :
  l = Leaf ∨ r = Leaf →
  (length k + 2 ≤ fuel)%nat →
  represents st (plug k (Node x c l v r)) →
  rb (plug k (Node x c l v r)) →
  returns (delete_helper fuel x st) (removed k l r).
Proof.
  intros Hlr Hfuel Hrep Hrb.
  destruct fuel as [|fuel]; [lia|]. cbn [delete_helper].
  destruct l as [|la lc ll lv lr], r as [|ra rc rl rv rr].
  - apply (delete_leaf_spec fuel _ st k x c v); [lia|done..].
  - apply (delete_right_only_spec fuel _ st k x c v); [lia|done..].
  - apply (delete_left_only_spec fuel _ st k x c _ v); [lia|done..].
  - by destruct Hlr.
Qed.

Lemma delete_helper_spec fuel st k x c l v r :
  (height (plug k (Node x c l v r)) + 2 ≤ fuel)%nat →
  represents st (plug k (Node x c l v r)) →
  rb (plug k (Node x c l v r)) →
  returns (delete_helper fuel x st) (removed k l r).
Proof.
  intros Hfuel Hrep Hrb.
  pose proof (height_plug k (Node x c l v r)) as Hh.
  destruct l as [|la lc ll lv lr];
    [apply (delete_helper_le1 fuel st k x c _ v); [by left|cbn [height] in Hh; lia|done..]|].
  destruct r as [|ra rc rl rv rr];
    [apply (delete_helper_le1 fuel st k x c _ v); [by right|cbn [height] in Hh; lia|done..]|].
  destruct (rightmost_exists la lc ll lv lr) as (kl & p & pc & pl & pv & El & Hkl).
  destruct (leftmost_exists ra rc rl rv rr) as (kr & s & sc & sv & sr & Er & Hkr).
  rewrite El, Er in Hrep, Hrb, Hh, Hfuel |- *. clear El Er.
  pose proof (height_plug kl (Node p pc pl pv Leaf)) as Hll.
  pose proof (height_plug kr (Node s sc Leaf sv sr)) as Hlr.
  cbn [height] in Hh.
  assert (1 ≤ height (Node p pc pl pv Leaf) ∧ 1 ≤ height (Node s sc Leaf sv sr))%nat
    as [Hhp Hhs] by (simpl; lia).
  destruct fuel as [|fuel]; [lia|].
  destruct (delete_two_children_step fuel st k x c v kl p pc pl pv kr s sc sv sr)
    as (st' & -> & Hrep'); [done|done|done|lia|lia|].
  destruct (decide (length kr < length kl)%nat) as [Hlt|Hge].
  - change (represents st' (plug k (fill (FL x c pv (plug kr (Node s sc Leaf sv sr)))
                                     (plug kl (Node p pc pl v Leaf))))) in Hrep'.
    rewrite <- plug_app_cons in Hrep'.
    eapply returns_mono.
    { apply (delete_helper_le1 fuel st' (kl ++ FL x c pv (plug kr (Node s sc Leaf sv sr)) :: k) p pc pl v Leaf); [by right| |done|].
      - rewrite length_app. cbn [length]. lia.
      - apply rb_node_value_indep with (v := pv).
        apply rb_value_indep with (v := v). rewrite plug_app_cons. exact Hrb. }
    intros b st2 (-> & t' & Hr2 & Hrb2 & E). split; [done|]. exists t'.
    split_and!; [done..|]. rewrite E.
    rewrite ctx_left_app, ctx_right_app, (ctx_right_FR kl Hkl), !inorder_plug,
      (ctx_right_FR kl Hkl).
    list_norm. rewrite ?inorder_plug. list_norm. done.
  - change (represents st' (plug k (fill (FR x c (plug kl (Node p pc pl pv Leaf)) sv)
                                     (plug kr (Node s sc Leaf v sr))))) in Hrep'.
    rewrite <- plug_app_cons in Hrep'.
    eapply returns_mono.
    { apply (delete_helper_le1 fuel st' (kr ++ FR x c (plug kl (Node p pc pl pv Leaf)) sv :: k) s sc Leaf v sr); [by left| |done|].
      - rewrite length_app. cbn [length]. lia.
      - apply rb_node_value_indep with (v := sv).
        apply rb_value_indep_r with (v := v). rewrite plug_app_cons. exact Hrb. }
    intros b st2 (-> & t' & Hr2 & Hrb2 & E). split; [done|]. exists t'.
    split_and!; [done..|]. rewrite E.
    rewrite ctx_left_app, ctx_right_app, (ctx_left_FL kr Hkr), !inorder_plug,
      (ctx_left_FL kr Hkr).
    list_norm. rewrite ?inorder_plug, ?(ctx_right_FR kl Hkl). list_norm. done.
Qed.


(** ** Delete (section 4.4) *)

Lemma sorted_remove_middle (l1 l2 : list Z) x :
  StronglySorted Z.le (l1 ++ x :: l2) → StronglySorted Z.le (l1 ++ l2).
Proof.
  rewrite sorted_middle, StronglySorted_app, !Forall_forall.
  intros (H1 & H2 & H3 & H4). split_and!; [|done..].
  intros y z Hy Hz. specialize (H3 y Hy). specialize (H4 z Hz). cbn beta in *. lia.
Qed.

Lemma delete_spec fuel d st t :
  (height t + 2 ≤ fuel)%nat →
  represents st t → rb t → StronglySorted Z.le (inorder t) →
  returns (delete fuel d st) (λ b st',
    (b = false ∧ (d ∉ inorder t) ∧ st' = st)
    ∨ (b = true ∧ ∃ t' l1 l2,
         represents st' t' ∧ rb t'
         ∧ inorder t = l1 ++ d :: l2 ∧ inorder t' = l1 ++ l2
         ∧ StronglySorted Z.le (inorder t'))).
Proof.
  intros Hfuel Hrep Hrb Hs. unfold delete.
  apply returns_bind_returns. eapply returns_mono.
  { apply (search_spec d fuel t st); [lia|done..]. }
  cbn beta. intros [a|] st' [-> Hres].
  - destruct Hres as (k & c & l & r & <-).
    eapply returns_mono; [by apply (delete_helper_spec fuel st k a c l d r)|].
    intros b st' (-> & t' & Hrep' & Hrb' & E). right. split; [done|].
    exists t', (ctx_left k ++ inorder l), (inorder r ++ ctx_right k).
    rewrite inorder_plug in Hs |- *. cbn [inorder] in Hs |- *.
    assert (ctx_left k ++ (inorder l ++ d :: inorder r) ++ ctx_right k
            = (ctx_left k ++ inorder l) ++ d :: inorder r ++ ctx_right k) as E1
      by (by list_norm).
    assert (ctx_left k ++ inorder l ++ inorder r ++ ctx_right k
            = (ctx_left k ++ inorder l) ++ inorder r ++ ctx_right k) as E2
      by (by list_norm).
    rewrite E1 in Hs |- *. rewrite E2 in E.
    split_and!; try done.
    rewrite E. by eapply sorted_remove_middle.
  - apply returns_ret. by left.
Qed.

(** ** Black heights, path by path *)

Lemma balanced_black_paths t n :
  balanced t → n ∈ black_paths t → n = bheight t.
Proof.
  revert n. induction t as [|a c l IHl v r IHr]; intros n; simpl.
  - intros _ Hn. by apply list_elem_of_singleton in Hn.
  - intros (E & Hl & Hr) Hn. apply list_elem_of_fmap in Hn as (m & -> & Hm).
    apply elem_of_app in Hm as [Hm|Hm].
    + by rewrite (IHl m Hl Hm).
    + by rewrite (IHr m Hr Hm), E.
Qed.

Lemma balanced_subtrees t s : balanced t → s ∈ subtrees t → balanced s.
Proof.
  induction t as [|a c l IHl v r IHr]; simpl.
  - intros _ Hs. by apply list_elem_of_singleton in Hs as ->.
  - intros (E & Hl & Hr) Hs. apply elem_of_cons in Hs as [->|Hs]; [done|].
    apply elem_of_app in Hs as [Hs|Hs]; auto.
Qed.

Lemma balanced_black_uniform t : balanced t → black_uniform t.
Proof.
  intros Hb s Hs m n Hm Hn. pose proof (balanced_subtrees t s Hb Hs) as Hbs.
  by rewrite (balanced_black_paths s m Hbs Hm), (balanced_black_paths s n Hbs Hn).
Qed.

Lemma rb_invariants t : rb t → bst t → invariants t.
Proof.
  intros (? & ? & ?) ?. split_and!; try done. by apply balanced_black_uniform.
Qed.

(** ** Sequences of operations *)

Lemma multiset_insert (l1 l2 : list Z) d :
  list_to_set_disj (l1 ++ d :: l2) =@{gmultiset Z}
    {[+ d +]} ⊎ list_to_set_disj (l1 ++ l2).
Proof. rewrite !list_to_set_disj_app, list_to_set_disj_cons. multiset_solver. Qed.

Lemma run_spec fuel : ∀ ops st t,
  (length (inorder t) + length ops + 2 ≤ fuel)%nat →
  represents st t → rb t → StronglySorted Z.le (inorder t) →
  returns (run fuel ops st) (λ log st', ∃ t',
    represents st' t' ∧ rb t' ∧ StronglySorted Z.le (inorder t')
    ∧ deleted ops log ⊆ list_to_set_disj (inorder t) ⊎ inserted ops
    ∧ list_to_set_disj (inorder t')
        = (list_to_set_disj (inorder t) ⊎ inserted ops) ∖ deleted ops log).
Proof.
  induction ops as [|o ops IH]; intros st t Hfuel Hrep Hrb Hs.
  { apply returns_ret. exists t. split_and!; try done; simpl; multiset_solver. }
  cbn [run]. pose proof (height_size t) as Hh. cbn [length] in Hfuel.
  apply returns_bind_returns. destruct o as [d|d]; cbn [run_op].
  - unfold bind at 2. fold (bind (insert fuel d) (λ _, ret (@None bool))).
    apply returns_bind_returns. eapply returns_mono.
    { apply (insert_spec fuel d st t); [lia|done..]. }
    cbn beta. intros _ st1 (t1 & l1 & l2 & Hrep1 & Hrb1 & E & E1 & Hs1).
    apply returns_ret.
    apply returns_bind_returns. eapply returns_mono.
    { apply (IH st1 t1); try done. rewrite E1, E in *. rewrite length_app in *.
      cbn [length] in *. lia. }
    cbn beta. intros log st2 (t2 & Hrep2 & Hrb2 & Hs2 & Hsub & E2). apply returns_ret.
    exists t2. split_and!; try done.
    + cbn [deleted inserted]. rewrite E1, multiset_insert, <- E in Hsub. multiset_solver.
    + cbn [deleted inserted]. rewrite E2, E1, multiset_insert, <- E. multiset_solver.
  - apply returns_bind_returns. eapply returns_mono.
    { apply (delete_spec fuel d st t); [lia|done..]. }
    cbn beta. intros b st1 [(-> & Hnin & ->)|(-> & t1 & l1 & l2 & Hrep1 & Hrb1 & E & E1 & Hs1)].
    + apply returns_ret.
      apply returns_bind_returns. eapply returns_mono.
      { apply (IH st t); try done. lia. }
      cbn beta. intros log st2 (t2 & Hrep2 & Hrb2 & Hs2 & Hsub & E2). apply returns_ret.
      exists t2. split_and!; done.
    + apply returns_ret.
      apply returns_bind_returns. eapply returns_mono.
      { apply (IH st1 t1); try done. rewrite E1, E in *. rewrite length_app in *.
        cbn [length] in *. lia. }
      cbn beta. intros log st2 (t2 & Hrep2 & Hrb2 & Hs2 & Hsub & E2). apply returns_ret.
      exists t2. split_and!; try done.
      * cbn [deleted inserted]. rewrite E, multiset_insert. rewrite E1 in Hsub. multiset_solver.
      * cbn [deleted inserted]. rewrite E2, E, multiset_insert, E1. multiset_solver.
Qed.

Lemma represents_init : represents init Leaf.
Proof. split_and!; [done..|]. apply NoDup_nil_2. Qed.


(** ** Nodes of a tree *)

Lemma addrs_decompose t a :
  a ∈ addrs t → ∃ k c l v r, t = plug k (Node a c l v r).
Proof.
  induction t as [|x c l IHl v r IHr]; simpl.
  - intros Ha. by apply elem_of_nil in Ha.
  - rewrite elem_of_app, elem_of_cons. intros [Ha|[->|Ha]].
    + destruct (IHl Ha) as (k & c' & l' & v' & r' & ->).
      exists (k ++ [FL x c v r]), c', l', v', r'. by rewrite plug_app.
    + by exists [], c, l, v, r.
    + destruct (IHr Ha) as (k & c' & l' & v' & r' & ->).
      exists (k ++ [FR x c l v]), c', l', v', r'. by rewrite plug_app.
Qed.

Lemma nodes_plug_congr k t t' :
  nodes t = nodes t' → nodes (plug k t) = nodes (plug k t').
Proof.
  revert t t'. induction k as [|f k IH]; intros t t' E; simpl; [done|].
  apply IH. destruct f; simpl; by rewrite E.
Qed.

Lemma inorder_nodes t : inorder t = (nodes t).*2.
Proof.
  induction t as [|a c l IHl v r IHr]; simpl; [done|].
  by rewrite fmap_app, fmap_cons, IHl, IHr.
Qed.

(** ** Equations between runs *)

Lemma bind_assoc_eq {A B C} (m : M A) (g : A → M B) (f : B → M C) st :
  bind (bind m g) f st = bind m (λ x, bind (g x) f) st.
Proof. unfold bind. by destruct (m st) as [[a st']| |]. Qed.

Lemma bind_ext {A B} (m : M A) (f f' : A → M B) st :
  (∀ a st', m st = Ok (a, st') → f a st' = f' a st') →
  bind m f st = bind m f' st.
Proof. intros H. unfold bind. destruct (m st) as [[a st']| |]; auto. Qed.

Lemma load_inv a st n st' :
  load a st = Ok (n, st') → st' = st ∧ heap st !! a = Some n.
Proof. unfold load. destruct (heap st !! a); [|done]. by intros [= -> ->]. Qed.









(** * The properties of the specification *)

(** ** Concrete trees *)

Ltac concrete :=
  first [ exact I | (vm_compute; reflexivity) | nodup_solve ].

Ltac concrete_rep :=
  unfold represents; cbn [repr root_of addrs app]; split_and!; concrete.

Ltac concrete_rb :=
  unfold rb, root_black; cbn [root_color nored balanced bheight black_bit Nat.add];
  split_and!; first [ done | (intros; split_and!; done) ].

Ltac concrete_bst :=
  cbn [bst bst_strict inorder app]; split_and!;
  first [ exact I | (repeat constructor; lia) ].

Lemma well_formed_10_20_30 :
  well_formed (state_after ops_10_20_30) tree_10_20_30.
Proof.
  unfold tree_10_20_30. split; [concrete_rep|split; [concrete_rb|concrete_bst]].
Qed.

Lemma represents_seven : represents (state_after ops_seven) tree_seven.
Proof. unfold tree_seven. concrete_rep. Qed.

Lemma rb_seven : rb tree_seven.
Proof. unfold tree_seven. concrete_rb. Qed.

Lemma represents_three_black :
  represents (state_after ops_three_black) tree_three_black.
Proof. unfold tree_three_black. concrete_rep. Qed.

(** ** C1 *)

(** C1, as the specification states it, fails: after inserting 5 three
    times the root 5 has a left child 5, which is not strictly smaller. *)
Lemma C1_counterexample :
  ¬ ∃ st t, tree_after 5 [Insert 5; Insert 5; Insert 5] = Ok st
            ∧ represents st t ∧ invariants_as_specified t.
Proof.
  intros (st & t & Hrun & Hrep & Hbst & _).
  assert (st = state_after [Insert 5; Insert 5; Insert 5]) as ->.
  { unfold state_after. cbn [length Nat.add]. by rewrite Hrun. }
  assert (represents (state_after [Insert 5; Insert 5; Insert 5])
            (Node 1 Black (Node 0 Red Leaf 5 Leaf) 5 (Node 2 Red Leaf 5 Leaf))) as Hrep'
    by concrete_rep.
  rewrite (represents_unique _ _ _ Hrep Hrep') in Hbst.
  cbn [bst_strict inorder app] in Hbst. destruct Hbst as (Hl & _).
  apply Forall_cons in Hl as [Hl _]. lia.
Qed.

(** C1 (amended): after every sequence of insert and delete operations on
    an empty tree, run with enough fuel, the tree object holds a tree that
    satisfies invariants 1 to 4 with the order "left subtree smaller or
    equal, right subtree greater or equal": search-tree order, black root,
    no red node with a red child, and the same number of black nodes on
    all paths from any node to a null leaf. *)
Theorem C1_invariants_hold (ops : list op) (fuel : nat) :
  (length ops + 2 ≤ fuel)%nat →
  ∃ st t, tree_after fuel ops = Ok st ∧ represents st t ∧ invariants t.
Proof.
  intros Hfuel.
  destruct (run_spec fuel ops init Leaf) as (log & st & Hrun & t & Hrep & Hrb & Hs & _);
    [simpl; lia|apply represents_init|apply rb_leaf|constructor|].
  exists st, t. unfold tree_after. rewrite Hrun. split_and!; [done..|].
  apply rb_invariants; [done|]. by apply bst_sorted.
Qed.

Lemma C1_witness :
  (length [Insert 5; Insert 5; Insert 5; Delete 5] + 2 ≤ 6)%nat
  ∧ ∃ st t, tree_after 6 [Insert 5; Insert 5; Insert 5; Delete 5] = Ok st
            ∧ represents st t ∧ invariants t.
Proof.
  split; [simpl; lia|]. apply C1_invariants_hold. simpl; lia.
Defined.

(** ** C2 *)

(** C2: after every sequence of insert and delete operations on an empty
    tree, the in-order traversal is non-decreasing and, as a multiset, it
    is the inserted values minus the values whose delete returned True. *)
Theorem C2_inorder_sorted_multiset (ops : list op) (fuel : nat) :
  (length ops + 2 ≤ fuel)%nat →
  ∃ log st t,
    run fuel ops init = Ok (log, st)
    ∧ represents st t
    ∧ Sorted Z.le (inorder t)
    ∧ list_to_set_disj (inorder t) = inserted ops ∖ deleted ops log.
Proof.
  intros Hfuel.
  destruct (run_spec fuel ops init Leaf) as (log & st & Hrun & t & Hrep & Hrb & Hs & _ & E);
    [simpl; lia|apply represents_init|apply rb_leaf|constructor|].
  exists log, st, t. split_and!; [done..|by apply StronglySorted_Sorted|].
  rewrite E. simpl. multiset_solver.
Qed.

Lemma C2_witness :
  (length [Insert 3; Insert 1; Delete 3; Delete 7; Insert 1] + 2 ≤ 7)%nat
  ∧ ∃ log st t,
      run 7 [Insert 3; Insert 1; Delete 3; Delete 7; Insert 1] init = Ok (log, st)
      ∧ represents st t
      ∧ Sorted Z.le (inorder t)
      ∧ list_to_set_disj (inorder t)
          = inserted [Insert 3; Insert 1; Delete 3; Delete 7; Insert 1]
            ∖ deleted [Insert 3; Insert 1; Delete 3; Delete 7; Insert 1] log.
Proof.
  split; [simpl; lia|]. apply C2_inorder_sorted_multiset. simpl; lia.
Defined.

(** ** C3 *)

(** C3 fails on the code: [delete] never lowers [black_height].  After
    insert 1, 2, 3, 4 and delete 4, 3 the tree is a black 2 with a red
    child 1: every path counts one black node, the field says 2. *)
Lemma C3_black_height_stale :
  ∃ st t,
    tree_after 8 [Insert 1; Insert 2; Insert 3; Insert 4; Delete 4; Delete 3] = Ok st
    ∧ represents st t
    ∧ t = Node 1 Black (Node 0 Red Leaf 1 Leaf) 2 Leaf
    ∧ black_paths t = [1%nat; 1%nat; 1%nat]
    ∧ black_height st = 2.
Proof.
  eexists _, _. split; [vm_compute; reflexivity|].
  split_and!; [|reflexivity|reflexivity|reflexivity].
  unfold represents. cbn [repr root_of addrs app].
  split_and!; first [ exact I | reflexivity | nodup_solve ].
Qed.

(** ** C4 *)

Lemma multiset_remove_middle (l1 l2 : list Z) (d : Z) :
  list_to_set_disj (l1 ++ l2)
  =@{gmultiset Z} list_to_set_disj (l1 ++ d :: l2) ∖ {[+ d +]}.
Proof.
  rewrite !list_to_set_disj_app, list_to_set_disj_cons. multiset_solver.
Qed.

(** C4: on a well-formed tree, [delete v] returns True exactly when some
    node holds [v], and False exactly when none does; when it returns True
    one occurrence of [v] is gone and the tree is well formed again. *)
Theorem C4_delete_true_iff_present (st : RedBlackTree) (t : tree) (v : Z) (fuel : nat) :
  well_formed st t →
  (height t + 2 ≤ fuel)%nat →
  ∃ b st',
    delete fuel v st = Ok (b, st')
    ∧ (b = true ↔ v ∈ inorder t)
    ∧ (b = false ↔ v ∉ inorder t)
    ∧ (b = true →
       ∃ t', well_formed st' t'
             ∧ list_to_set_disj (inorder t')
               =@{gmultiset Z} list_to_set_disj (inorder t) ∖ {[+ v +]}).
Proof.
  intros (Hrep & Hrb & Hbst) Hfuel. apply bst_sorted in Hbst.
  destruct (delete_spec fuel v st t Hfuel Hrep Hrb Hbst) as (b & st' & Hrun & Hres).
  exists b, st'. split; [done|].
  destruct Hres as [(-> & Hnin & ->)|(-> & t' & l1 & l2 & Hrep' & Hrb' & E & E' & Hs')].
  - split_and!; [split; [done|by intros ?]|done|done].
  - assert (v ∈ inorder t) as Hin by (rewrite E; set_solver).
    split_and!; [done|split; [done|by intros ?]|].
    intros _. exists t'. split; [split_and!; [done..|by apply bst_sorted]|].
    rewrite E, E'. apply multiset_remove_middle.
Qed.

Lemma C4_witness :
  well_formed (state_after ops_10_20_30) tree_10_20_30
  ∧ (height tree_10_20_30 + 2 ≤ 4)%nat
  ∧ ∃ b st',
      delete 4 20 (state_after ops_10_20_30) = Ok (b, st')
      ∧ (b = true ↔ 20 ∈ inorder tree_10_20_30)
      ∧ (b = false ↔ 20 ∉ inorder tree_10_20_30)
      ∧ (b = true →
         ∃ t', well_formed st' t'
               ∧ list_to_set_disj (inorder t')
                 =@{gmultiset Z} list_to_set_disj (inorder tree_10_20_30) ∖ {[+ 20 +]}).
Proof.
  split; [exact well_formed_10_20_30|]. split; [simpl; lia|].
  apply C4_delete_true_iff_present; [exact well_formed_10_20_30|simpl; lia].
Defined.

(** ** C5 *)

(** C5: on a well-formed tree, [insert v] followed by [search v] returns a
    node whose value is [v]; [delete v] followed by [search v] returns
    nothing when [v] occurred at most once, and a node with value [v] when
    it occurred more than once. *)
Theorem C5_round_trip (st : RedBlackTree) (t : tree) (v : Z) (fuel : nat) :
  well_formed st t →
  (length (inorder t) + 2 ≤ fuel)%nat →
  (∃ a n st1,
      (insert fuel v ;; search fuel v) st = Ok (Some a, st1)
      ∧ heap st1 !! a = Some n ∧ data n = v)
  ∧ (∃ res st1,
      (delete fuel v ;; search fuel v) st = Ok (res, st1)
      ∧ ((multiplicity v (list_to_set_disj (inorder t)) ≤ 1)%nat → res = None)
      ∧ ((1 < multiplicity v (list_to_set_disj (inorder t)))%nat →
         ∃ a n, res = Some a ∧ heap st1 !! a = Some n ∧ data n = v)).
Proof.
  intros (Hrep & Hrb & Hbst) Hfuel. apply bst_sorted in Hbst.
  pose proof (height_size t) as Hh. split.
  - destruct (insert_spec fuel v st t) as (u & st1 & Hrun & t' & l1 & l2 & Hrep' & _ & E & E' & Hs');
      [lia|done..|].
    destruct (search_spec v fuel t' st1) as (res & st2 & Hrun2 & -> & Hres); [|done..|].
    { pose proof (height_size t') as Hh'. rewrite E', length_app in Hh'.
      rewrite E, length_app in Hfuel. simpl in Hh'. lia. }
    unfold bind. rewrite Hrun, Hrun2. destruct res as [a|].
    + destruct Hres as (k' & c & l & r & <-).
      eexists a, _, st1. split; [done|]. split; [by eapply rep_lookup|done].
    + exfalso. apply Hres. rewrite E'. set_solver.
  - destruct (delete_spec fuel v st t) as (b & st1 & Hrun & Hres); [lia|done..|].
    unfold bind. rewrite Hrun.
    destruct Hres as [(-> & Hnin & ->)|(-> & t' & l1 & l2 & Hrep' & _ & E & E' & Hs')].
    + destruct (search_spec v fuel t st) as (res & st2 & Hrun2 & -> & Hres); [lia|done..|].
      rewrite Hrun2. exists res, st. split; [done|].
      assert (multiplicity v (list_to_set_disj (inorder t)) = 0%nat) as ->.
      { apply not_elem_of_multiplicity. by rewrite elem_of_list_to_set_disj. }
      split; [|lia]. intros _. destruct res as [a|]; [|done].
      destruct Hres as (k' & c & l & r & <-). exfalso. apply Hnin.
      rewrite inorder_plug. set_solver.
    + destruct (search_spec v fuel t' st1) as (res & st2 & Hrun2 & -> & Hres); [|done..|].
      { pose proof (height_size t') as Hh'. rewrite E', length_app in Hh'.
        rewrite E, length_app in Hfuel. simpl in Hfuel. lia. }
      rewrite Hrun2. exists res, st1. split; [done|].
      assert (multiplicity v (list_to_set_disj (inorder t))
              = S (multiplicity v (list_to_set_disj (inorder t')))) as ->.
      { rewrite E, E', !list_to_set_disj_app, list_to_set_disj_cons,
          !multiplicity_disj_union, multiplicity_singleton.
        rewrite decide_True by done. clear. lia. }
      destruct res as [a|].
      * destruct Hres as (k' & c & l & r & <-). split.
        -- intros Hm. exfalso.
           assert (0 < multiplicity v (list_to_set_disj (inorder (plug k' (Node a c l v r)))))%nat.
           { apply elem_of_multiplicity, elem_of_list_to_set_disj.
             rewrite inorder_plug. set_solver. }
           lia.
        -- intros _. eexists a, _. split; [done|]. split; [by eapply rep_lookup|done].
      * split; [done|]. intros Hm. exfalso.
        apply Hres.
        apply elem_of_list_to_set_disj, elem_of_multiplicity. lia.
Qed.

Lemma C5_witness :
  well_formed (state_after ops_10_20_30) tree_10_20_30
  ∧ (length (inorder tree_10_20_30) + 2 ≤ 5)%nat
  ∧ (∃ a n st1,
        (insert 5 20 ;; search 5 20) (state_after ops_10_20_30) = Ok (Some a, st1)
        ∧ heap st1 !! a = Some n ∧ data n = 20)
  ∧ (∃ res st1,
        (delete 5 20 ;; search 5 20) (state_after ops_10_20_30) = Ok (res, st1)
        ∧ ((multiplicity 20%Z (list_to_set_disj (inorder tree_10_20_30)) ≤ 1)%nat → res = None)
        ∧ ((1 < multiplicity 20%Z (list_to_set_disj (inorder tree_10_20_30)))%nat →
           ∃ a n, res = Some a ∧ heap st1 !! a = Some n ∧ data n = 20)).
Proof.
  split; [exact well_formed_10_20_30|]. split; [simpl; lia|].
  apply C5_round_trip; [exact well_formed_10_20_30|simpl; lia].
Defined.

(** ** C6 *)

(** C6: for a node [pivot] of the tree, [rotation pivot] returns; the
    store holds a tree again afterwards (all parent and child links agree),
    with the same nodes in the same in-order sequence, each with the colour
    and value it had.  When [pivot] has no parent nothing changes; when its
    parent was the root, [pivot] is the root afterwards and has no
    parent. *)
Theorem C6_rotation (st : RedBlackTree) (t : tree) (pivot : addr) :
  represents st t →
  pivot ∈ addrs t →
  ∃ st' t',
    rotation pivot st = Ok (tt, st')
    ∧ represents st' t'
    ∧ inorder t' = inorder t
    ∧ nodes t' = nodes t
    ∧ (∀ n, heap st !! pivot = Some n → parent n = None → st' = st)
    ∧ (∀ n p, heap st !! pivot = Some n → parent n = Some p → root st = Some p →
         root st' = Some pivot
         ∧ ∃ n', heap st' !! pivot = Some n' ∧ parent n' = None).
Proof.
  intros Hrep Hin. destruct (addrs_decompose t pivot Hin) as (k & c & l & v & r & ->).
  pose proof (rep_lookup _ _ _ _ _ _ _ Hrep) as Hlk.
  destruct k as [|[p pc pv s|p pc s pv] k].
  - exists st, (Node pivot c l v r). rewrite (rotation_root_spec st pivot c l v r Hrep).
    split_and!; [done..|].
    intros n p Hn Hp. rewrite Hlk in Hn. injection Hn as <-. done.
  - cbn [plug fill] in Hrep.
    destruct (rotation_right_spec _ _ _ _ _ _ _ _ _ _ _ Hrep) as (st' & Hrun & Hrep' & _).
    exists st', (plug k (Node pivot c l v (Node p pc r pv s))).
    split_and!; [done..| | | |].
    + cbn [plug fill]. rewrite !inorder_plug. cbn [inorder]. by list_norm.
    + cbn [plug fill]. apply nodes_plug_congr. cbn [nodes]. by list_norm.
    + intros n Hn Hp. rewrite Hlk in Hn. injection Hn as <-. done.
    + intros n p' Hn Hp Hroot. rewrite Hlk in Hn. injection Hn as <-.
      cbn [parent ctx_parent faddr] in Hp. injection Hp as <-.
      apply (rep_root_focus _ _ _ _ _ _ _ Hrep) in Hroot as ->.
      split; [exact (rep_root _ _ Hrep')|].
      eexists. split; [exact (rep_lookup _ [] _ _ _ _ _ Hrep')|done].
  - cbn [plug fill] in Hrep.
    destruct (rotation_left_spec _ _ _ _ _ _ _ _ _ _ _ Hrep) as (st' & Hrun & Hrep' & _).
    exists st', (plug k (Node pivot c (Node p pc s pv l) v r)).
    split_and!; [done..| | | |].
    + cbn [plug fill]. rewrite !inorder_plug. cbn [inorder]. by list_norm.
    + cbn [plug fill]. apply nodes_plug_congr. cbn [nodes]. by list_norm.
    + intros n Hn Hp. rewrite Hlk in Hn. injection Hn as <-. done.
    + intros n p' Hn Hp Hroot. rewrite Hlk in Hn. injection Hn as <-.
      cbn [parent ctx_parent faddr] in Hp. injection Hp as <-.
      apply (rep_root_focus _ _ _ _ _ _ _ Hrep) in Hroot as ->.
      split; [exact (rep_root _ _ Hrep')|].
      eexists. split; [exact (rep_lookup _ [] _ _ _ _ _ Hrep')|done].
Qed.

Lemma C6_witness :
  represents (state_after ops_10_20_30) tree_10_20_30
  ∧ 2%nat ∈ addrs tree_10_20_30
  ∧ ∃ st' t',
      rotation 2 (state_after ops_10_20_30) = Ok (tt, st')
      ∧ represents st' t'
      ∧ inorder t' = inorder tree_10_20_30
      ∧ nodes t' = nodes tree_10_20_30
      ∧ (∀ n, heap (state_after ops_10_20_30) !! 2%nat = Some n → parent n = None →
           st' = state_after ops_10_20_30)
      ∧ (∀ n p, heap (state_after ops_10_20_30) !! 2%nat = Some n → parent n = Some p →
           root (state_after ops_10_20_30) = Some p →
           root st' = Some 2%nat
           ∧ ∃ n', heap st' !! 2%nat = Some n' ∧ parent n' = None).
Proof.
  assert (2%nat ∈ addrs tree_10_20_30) as Hin.
  { simpl. rewrite !elem_of_cons. auto. }
  split; [exact (proj1 well_formed_10_20_30)|]. split; [exact Hin|].
  apply (C6_rotation _ tree_10_20_30); [exact (proj1 well_formed_10_20_30)|exact Hin].
Defined.

(** ** C7 *)

(** The first step of delete-helper on a node with two children, with the
    two walks, the exchange of the values and the state in which the
    deletion goes on. *)
Lemma delete_two_children_trace fuel st k x c v kl p pc pl pv kr s sc sv sr :
  Forall is_FR kl → Forall is_FL kr →
  represents st
    (plug k (Node x c (plug kl (Node p pc pl pv Leaf)) v
                      (plug kr (Node s sc Leaf sv sr)))) →
  (length kl < fuel)%nat → (length kr < fuel)%nat →
  ∃ a1 a2 st1,
    root_of (plug kl (Node p pc pl pv Leaf)) = Some a1
    ∧ root_of (plug kr (Node s sc Leaf sv sr)) = Some a2
    ∧ walk_right fuel a1 0 st = Ok ((p, Z.of_nat (length kl)), st)
    ∧ walk_left fuel a2 0 st = Ok ((s, Z.of_nat (length kr)), st)
    ∧ swap_data x (if decide (length kr < length kl)%nat then p else s) st
      = Ok (tt, st1)
    ∧ represents st1
        (if decide (length kr < length kl)%nat
         then plug k (Node x c (plug kl (Node p pc pl v Leaf)) pv
                               (plug kr (Node s sc Leaf sv sr)))
         else plug k (Node x c (plug kl (Node p pc pl pv Leaf)) sv
                               (plug kr (Node s sc Leaf v sr))))
    ∧ delete_helper (S fuel) x st
      = delete_helper fuel (if decide (length kr < length kl)%nat then p else s) st1.
Proof.
  intros Hkl Hkr Hrep Hll Hlr.
  set (l := plug kl (Node p pc pl pv Leaf)) in *.
  set (r := plug kr (Node s sc Leaf sv sr)) in *.
  destruct (root_of_plug_node kl p pc pl pv Leaf) as (a1 & Ha1).
  destruct (root_of_plug_node kr s sc Leaf sv sr) as (a2 & Ha2).
  assert (Hp : represents st (plug (kl ++ FL x c v r :: k) (Node p pc pl pv Leaf)))
    by (by rewrite plug_app_cons).
  assert (Hs : represents st (plug (kr ++ FR x c l v :: k) (Node s sc Leaf sv sr)))
    by (by rewrite plug_app_cons).
  pose proof (walk_right_spec kl fuel _ st p pc pl pv a1 0 Hkl Hp Ha1 Hll) as Hwr.
  pose proof (walk_left_spec kr fuel _ st s sc sv sr a2 0 Hkr Hs Ha2 Hlr) as Hwl.
  rewrite Z.add_0_l in Hwr, Hwl.
  assert (∃ st1,
    swap_data x (if decide (length kr < length kl)%nat then p else s) st = Ok (tt, st1)
    ∧ represents st1
        (if decide (length kr < length kl)%nat
         then plug k (Node x c (plug kl (Node p pc pl v Leaf)) pv r)
         else plug k (Node x c l sv (plug kr (Node s sc Leaf v sr)))))
    as (st1 & Hswap & Hrep1).
  { destruct (decide (length kr < length kl)%nat).
    - apply (swap_data_left_spec st k x c v r kl p pc pl pv Leaf Hrep).
    - apply (swap_data_right_spec st k x c l v kr s sc Leaf sv sr Hrep). }
  exists a1, a2, st1. split_and!; [done..|].
  cbn [delete_helper]. unfold delete_helper_body.
  rewrite (bind_ok _ _ _ _ _ (get_parent_spec _ _ _ _ _ _ _ Hrep)).
  rewrite (bind_ok _ _ _ _ _ (get_left_spec _ _ _ _ _ _ _ Hrep)).
  fold l. unfold l at 1. rewrite Ha1.
  rewrite (bind_ok _ _ _ _ _ (get_right_spec _ _ _ _ _ _ _ Hrep)).
  fold r. unfold r at 1. rewrite Ha2.
  rewrite (bind_ok _ _ _ _ _ Hwr), (bind_ok _ _ _ _ _ Hwl). cbn [fst snd].
  destruct (decide (length kr < length kl)%nat) as [Hlt|Hge].
  - rewrite bool_decide_eq_true_2 by lia. by rewrite (bind_ok _ _ _ _ _ Hswap).
  - rewrite bool_decide_eq_false_2 by lia. by rewrite (bind_ok _ _ _ _ _ Hswap).
Qed.

(** C7: when the node [x] to delete has two children, in a red-black
    tree, let [p] be the rightmost node of its left subtree and [s] the
    leftmost node of its right subtree.  The two walks of delete-helper
    find [p] and [s] and count the steps to them, [length kl] and
    [length kr].  The donor is [p] when its chain is strictly longer and
    [s] otherwise.  Delete-helper exchanges the values of [x] and the
    donor, so that [x] holds the donor's value, and what it returns is
    what delete-helper on the donor returns from that state; the donor has
    no right child ([p]) or no left child ([s]).  The call returns True
    and leaves a red-black tree that lost the value of [x]. *)
Theorem C7_two_children_donor (fuel : nat) (st : RedBlackTree)
    (k : list frame) (x : addr) (c : color) (l : tree) (v : Z) (r : tree) :
  represents st (plug k (Node x c l v r)) →
  rb (plug k (Node x c l v r)) →
  l ≠ Leaf → r ≠ Leaf →
  (height (plug k (Node x c l v r)) + 1 ≤ fuel)%nat →
  ∃ kl p pc pl pv kr s sc sv sr a1 a2 st1 st2 t2,
    l = plug kl (Node p pc pl pv Leaf) ∧ Forall is_FR kl
    ∧ r = plug kr (Node s sc Leaf sv sr) ∧ Forall is_FL kr
    ∧ root_of l = Some a1 ∧ root_of r = Some a2
    ∧ walk_right fuel a1 0 st = Ok ((p, Z.of_nat (length kl)), st)
    ∧ walk_left fuel a2 0 st = Ok ((s, Z.of_nat (length kr)), st)
    ∧ (if decide (length kr < length kl)%nat
       then swap_data x p st = Ok (tt, st1)
            ∧ represents st1 (plug k (Node x c (plug kl (Node p pc pl v Leaf)) pv r))
            ∧ delete_helper fuel p st1 = Ok (true, st2)
       else swap_data x s st = Ok (tt, st1)
            ∧ represents st1 (plug k (Node x c l sv (plug kr (Node s sc Leaf v sr))))
            ∧ delete_helper fuel s st1 = Ok (true, st2))
    ∧ delete_helper (S fuel) x st = Ok (true, st2)
    ∧ represents st2 t2
    ∧ rb t2
    ∧ inorder t2 = ctx_left k ++ inorder l ++ inorder r ++ ctx_right k.
Proof.
  intros Hrep Hrb Hl Hr Hfuel.
  destruct (delete_helper_spec (S fuel) st k x c l v r)
    as (b & st2 & Hrun & -> & t2 & Hrep2 & Hrb2 & E); [lia|done..|].
  pose proof (height_plug k (Node x c l v r)) as Hh. cbn [height] in Hh.
  destruct l as [|la lc ll lv lr]; [done|]. destruct r as [|ra rc rl rv rr]; [done|].
  destruct (rightmost_exists la lc ll lv lr) as (kl & p & pc & pl & pv & El & Hkl).
  destruct (leftmost_exists ra rc rl rv rr) as (kr & s & sc & sv & sr & Er & Hkr).
  pose proof (height_plug kl (Node p pc pl pv Leaf)) as Hpl.
  pose proof (height_plug kr (Node s sc Leaf sv sr)) as Hpr.
  rewrite <- El in Hpl. rewrite <- Er in Hpr. cbn [height] in Hh, Hpl, Hpr.
  rewrite El, Er in Hrep.
  destruct (delete_two_children_trace fuel st k x c v kl p pc pl pv kr s sc sv sr)
    as (a1 & a2 & st1 & Ha1 & Ha2 & Hwr & Hwl & Hswap & Hrep1 & Hstep);
    [done..|lia|lia|].
  rewrite <- El in Ha1. rewrite <- Er in Ha2.
  exists kl, p, pc, pl, pv, kr, s, sc, sv, sr, a1, a2, st1, st2, t2.
  split_and!; [done..| |done|done|done|done].
  rewrite Hstep in Hrun. rewrite El, Er.
  by destruct (decide (length kr < length kl)%nat).
Qed.

Lemma C7_witness :
  represents (state_after ops_seven)
    (plug [] (Node 0 Black
      (Node 1 Black (Node 3 Red Leaf 20 Leaf) 30 (Node 4 Red Leaf 40 Leaf)) 50
      (Node 2 Black (Node 5 Red Leaf 60 Leaf) 70 (Node 6 Red Leaf 80 Leaf))))
  ∧ rb (plug [] (Node 0 Black
      (Node 1 Black (Node 3 Red Leaf 20 Leaf) 30 (Node 4 Red Leaf 40 Leaf)) 50
      (Node 2 Black (Node 5 Red Leaf 60 Leaf) 70 (Node 6 Red Leaf 80 Leaf))))
  ∧ ∃ kl p pc pl pv kr s sc sv sr a1 a2 st1 st2 t2,
      Node 1 Black (Node 3 Red Leaf 20 Leaf) 30 (Node 4 Red Leaf 40 Leaf)
        = plug kl (Node p pc pl pv Leaf) ∧ Forall is_FR kl
      ∧ Node 2 Black (Node 5 Red Leaf 60 Leaf) 70 (Node 6 Red Leaf 80 Leaf)
        = plug kr (Node s sc Leaf sv sr) ∧ Forall is_FL kr
      ∧ root_of (Node 1 Black (Node 3 Red Leaf 20 Leaf) 30 (Node 4 Red Leaf 40 Leaf))
        = Some a1
      ∧ root_of (Node 2 Black (Node 5 Red Leaf 60 Leaf) 70 (Node 6 Red Leaf 80 Leaf))
        = Some a2
      ∧ walk_right 4 a1 0 (state_after ops_seven)
        = Ok ((p, Z.of_nat (length kl)), state_after ops_seven)
      ∧ walk_left 4 a2 0 (state_after ops_seven)
        = Ok ((s, Z.of_nat (length kr)), state_after ops_seven)
      ∧ (if decide (length kr < length kl)%nat
         then swap_data 0 p (state_after ops_seven) = Ok (tt, st1)
              ∧ represents st1
                  (plug [] (Node 0 Black (plug kl (Node p pc pl 50 Leaf)) pv
                     (Node 2 Black (Node 5 Red Leaf 60 Leaf) 70 (Node 6 Red Leaf 80 Leaf))))
              ∧ delete_helper 4 p st1 = Ok (true, st2)
         else swap_data 0 s (state_after ops_seven) = Ok (tt, st1)
              ∧ represents st1
                  (plug [] (Node 0 Black
                     (Node 1 Black (Node 3 Red Leaf 20 Leaf) 30 (Node 4 Red Leaf 40 Leaf))
                     sv (plug kr (Node s sc Leaf 50 sr))))
              ∧ delete_helper 4 s st1 = Ok (true, st2))
      ∧ delete_helper 5 0 (state_after ops_seven) = Ok (true, st2)
      ∧ represents st2 t2
      ∧ rb t2
      ∧ inorder t2
        = ctx_left []
          ++ inorder (Node 1 Black (Node 3 Red Leaf 20 Leaf) 30 (Node 4 Red Leaf 40 Leaf))
          ++ inorder (Node 2 Black (Node 5 Red Leaf 60 Leaf) 70 (Node 6 Red Leaf 80 Leaf))
          ++ ctx_right [].
Proof.
  split; [exact represents_seven|]. split; [exact rb_seven|].
  apply (C7_two_children_donor 4 (state_after ops_seven) [] 0%nat Black);
    [exact represents_seven|exact rb_seven|discriminate|discriminate|simpl; lia].
Defined.

(** ** C8 *)

Lemma bind_ret_eq {A B} (a : A) (f : A → M B) st : bind (ret a) f st = f a st.
Proof. done. Qed.

(** Case 2a with the node on the left of its parent, and on the right. *)
Lemma case_2a_left rec st k p pv x c l v r s sl sv sr :
  represents st (plug k (Node p Black (Node x c l v r) pv (Node s Black sl sv sr))) →
  root_color l = Black → root_color r = Black →
  root_color sl = Black → root_color sr = Black →
  delete_rebalance_body rec x st = case_2a rec p s st.
Proof.
  intros Hp Hl Hr Hsl Hsr.
  pose proof (Hp : represents st (plug (FL p Black pv (Node s Black sl sv sr) :: k) (Node x c l v r))) as Hx.
  pose proof (Hp : represents st (plug (FR p Black (Node x c l v r) pv :: k) (Node s Black sl sv sr))) as Hs.
  pose proof (Hp : represents st (plug (FL x c v r :: FL p Black pv (Node s Black sl sv sr) :: k) l)) as Hxl.
  pose proof (Hp : represents st (plug (FR x c l v :: FL p Black pv (Node s Black sl sv sr) :: k) r)) as Hxr.
  pose proof (Hp : represents st (plug (FL s Black sv sr :: FR p Black (Node x c l v r) pv :: k) sl)) as Hssl.
  pose proof (Hp : represents st (plug (FR s Black sl sv :: FR p Black (Node x c l v r) pv :: k) sr)) as Hssr.
  assert (root st ≠ Some x) as Hroot.
  { intros E. by apply (rep_root_focus _ _ _ _ _ _ _ Hx) in E. }
  unfold delete_rebalance_body, case_2a.
  rewrite (bind_ok _ _ _ _ _ (get_left_spec _ _ _ _ _ _ _ Hx)).
  rewrite (bind_ok _ _ _ _ _ (is_red_node_spec _ _ _ Hxl)), Hl. cbn [is_red].
  rewrite (bind_ok _ _ _ _ _ (get_right_spec _ _ _ _ _ _ _ Hx)).
  rewrite (bind_ok _ _ _ _ _ (is_red_node_spec _ _ _ Hxr)), Hr. cbn [is_red].
  rewrite (bind_ok _ _ _ _ _ (get_root_ok st)).
  rewrite bool_decide_false by done.
  rewrite (bind_ok _ _ _ _ _ (get_parent_spec _ _ _ _ _ _ _ Hx)).
  cbn [ctx_parent faddr deref]. rewrite bind_ret_eq.
  unfold sibling_of. rewrite bind_assoc_eq.
  rewrite (bind_ok _ _ _ _ _ (get_left_spec _ _ _ _ _ _ _ Hp)). cbn [root_of].
  rewrite bool_decide_true by done. rewrite bind_assoc_eq.
  rewrite (bind_ok _ _ _ _ _ (get_right_spec _ _ _ _ _ _ _ Hp)). cbn [root_of].
  rewrite bind_ret_eq. cbn [fst snd deref]. rewrite bind_ret_eq.
  rewrite (bind_ok _ _ _ _ _ (get_color_spec _ _ _ _ _ _ _ Hs)). cbn [is_red].
  rewrite bind_ret_eq. cbn [fst snd deref]. rewrite bind_ret_eq.
  rewrite !bind_assoc_eq.
  rewrite (bind_ok _ _ _ _ _ (get_left_spec _ _ _ _ _ _ _ Hs)).
  rewrite bind_assoc_eq.
  rewrite (bind_ok _ _ _ _ _ (is_none_or_black_spec _ _ _ Hssl)), Hsl. cbn [is_black].
  rewrite bind_assoc_eq.
  rewrite (bind_ok _ _ _ _ _ (get_right_spec _ _ _ _ _ _ _ Hs)).
  rewrite (bind_ok _ _ _ _ _ (is_none_or_black_spec _ _ _ Hssr)), Hsr. cbn [is_black].
  rewrite (bind_ok _ _ _ _ _ (get_color_spec _ _ _ _ _ _ _ Hp)). cbn [is_black].
  done.
Qed.

Lemma case_2a_right rec st k p pv x c l v r s sl sv sr :
  represents st (plug k (Node p Black (Node s Black sl sv sr) pv (Node x c l v r))) →
  root_color l = Black → root_color r = Black →
  root_color sl = Black → root_color sr = Black →
  delete_rebalance_body rec x st = case_2a rec p s st.
Proof.
  intros Hp Hl Hr Hsl Hsr.
  pose proof (Hp : represents st (plug (FR p Black (Node s Black sl sv sr) pv :: k) (Node x c l v r))) as Hx.
  pose proof (Hp : represents st (plug (FL p Black pv (Node x c l v r) :: k) (Node s Black sl sv sr))) as Hs.
  pose proof (Hp : represents st (plug (FL x c v r :: FR p Black (Node s Black sl sv sr) pv :: k) l)) as Hxl.
  pose proof (Hp : represents st (plug (FR x c l v :: FR p Black (Node s Black sl sv sr) pv :: k) r)) as Hxr.
  pose proof (Hp : represents st (plug (FL s Black sv sr :: FL p Black pv (Node x c l v r) :: k) sl)) as Hssl.
  pose proof (Hp : represents st (plug (FR s Black sl sv :: FL p Black pv (Node x c l v r) :: k) sr)) as Hssr.
  assert (root st ≠ Some x) as Hroot.
  { intros E. by apply (rep_root_focus _ _ _ _ _ _ _ Hx) in E. }
  assert (s ≠ x) as Hsx by (rep_distinct Hp; done).
  unfold delete_rebalance_body, case_2a.
  rewrite (bind_ok _ _ _ _ _ (get_left_spec _ _ _ _ _ _ _ Hx)).
  rewrite (bind_ok _ _ _ _ _ (is_red_node_spec _ _ _ Hxl)), Hl. cbn [is_red].
  rewrite (bind_ok _ _ _ _ _ (get_right_spec _ _ _ _ _ _ _ Hx)).
  rewrite (bind_ok _ _ _ _ _ (is_red_node_spec _ _ _ Hxr)), Hr. cbn [is_red].
  rewrite (bind_ok _ _ _ _ _ (get_root_ok st)).
  rewrite bool_decide_false by done.
  rewrite (bind_ok _ _ _ _ _ (get_parent_spec _ _ _ _ _ _ _ Hx)).
  cbn [ctx_parent faddr deref]. rewrite bind_ret_eq.
  unfold sibling_of. rewrite bind_assoc_eq.
  rewrite (bind_ok _ _ _ _ _ (get_left_spec _ _ _ _ _ _ _ Hp)). cbn [root_of].
  rewrite bool_decide_false by congruence. rewrite bind_assoc_eq.
  rewrite (bind_ok _ _ _ _ _ (get_left_spec _ _ _ _ _ _ _ Hp)). cbn [root_of].
  rewrite bind_ret_eq. cbn [fst snd deref]. rewrite bind_ret_eq.
  rewrite (bind_ok _ _ _ _ _ (get_color_spec _ _ _ _ _ _ _ Hs)). cbn [is_red].
  rewrite bind_ret_eq. cbn [fst snd deref]. rewrite bind_ret_eq.
  rewrite !bind_assoc_eq.
  rewrite (bind_ok _ _ _ _ _ (get_left_spec _ _ _ _ _ _ _ Hs)).
  rewrite bind_assoc_eq.
  rewrite (bind_ok _ _ _ _ _ (is_none_or_black_spec _ _ _ Hssl)), Hsl. cbn [is_black].
  rewrite bind_assoc_eq.
  rewrite (bind_ok _ _ _ _ _ (get_right_spec _ _ _ _ _ _ _ Hs)).
  rewrite (bind_ok _ _ _ _ _ (is_none_or_black_spec _ _ _ Hssr)), Hsr. cbn [is_black].
  rewrite (bind_ok _ _ _ _ _ (get_color_spec _ _ _ _ _ _ _ Hp)). cbn [is_black].
  done.
Qed.


(** C8, as the specification states it, fails: with a recursive call that
    reports whether the sibling is red at the moment it is called, the
    code answers False (the sibling is still black), while a sibling
    turned red before the call would give True.  The state is the tree of
    three black nodes 1, 2, 3, with the node of 3 as current node. *)
Lemma C8_counterexample :
  represents (state_after ops_three_black)
    (plug [FR 1 Black (Node 0 Black Leaf 1 Leaf) 2] (Node 2 Black Leaf 3 Leaf))
  ∧ delete_rebalance_body (sibling_probe 0) 2 (state_after ops_three_black)
    ≠ case_2a_as_specified (sibling_probe 0) 1 0 (state_after ops_three_black).
Proof.
  split; [exact represents_three_black|].
  intros E. vm_compute in E. discriminate E.
Qed.

(** C8 (amended): in delete-rebalance, when the current node has no red
    child and is not the root, its parent is black, its sibling is black
    and both children of the sibling are black or absent, the code makes
    the recursive call on the parent first and turns the sibling red once,
    after that call has returned; it returns what the call returned. *)
Theorem C8_sibling_red_after_recursion (rec : addr → M bool) (st : RedBlackTree)
    (k : list frame) (f : frame) (x : addr) (c : color) (l : tree) (v : Z) (r : tree)
    (s : addr) (sl : tree) (sv : Z) (sr : tree) :
  represents st (plug (f :: k) (Node x c l v r)) →
  root_color l = Black → root_color r = Black →
  fcolor f = Black →
  fsib f = Node s Black sl sv sr →
  root_color sl = Black → root_color sr = Black →
  delete_rebalance_body rec x st = case_2a rec (faddr f) s st.
Proof.
  intros Hrep Hl Hr Hf Hs Hsl Hsr.
  destruct f as [p pc pv t|p pc t pv]; cbn [fcolor fsib faddr] in *; subst pc t.
  - by apply (case_2a_left rec st k p pv x c l v r s sl sv sr).
  - by apply (case_2a_right rec st k p pv x c l v r s sl sv sr).
Qed.

Lemma C8_witness :
  represents (state_after ops_three_black)
    (plug [FR 1 Black (Node 0 Black Leaf 1 Leaf) 2] (Node 2 Black Leaf 3 Leaf))
  ∧ delete_rebalance_body (sibling_probe 0) 2 (state_after ops_three_black)
    = case_2a (sibling_probe 0) 1 0 (state_after ops_three_black).
Proof.
  split; [exact represents_three_black|].
  apply (C8_sibling_red_after_recursion (sibling_probe 0) (state_after ops_three_black)
           [] (FR 1 Black (Node 0 Black Leaf 1 Leaf) 2) 2%nat Black Leaf 3 Leaf
           0%nat Leaf 1 Leaf);
    [exact represents_three_black|reflexivity..].
Defined.

(** ** C9 *)








(** ** C10 *)

(** Looking for a value that no node holds ends with nothing found, in
    any tree, ordered or not. *)
Lemma search_loop_absent d fuel : ∀ k t st,
  (height t ≤ fuel)%nat →
  represents st (plug k t) →
  d ∉ inorder t →
  search_loop fuel d (root_of t) st = Ok (None, st).
Proof.
  induction fuel as [|fuel IH]; intros k t st Hh Hrep Hnin.
  { destruct t; simpl in Hh; [done|lia]. }
  destruct t as [|a c l v r]; [done|].
  cbn [inorder] in Hnin. rewrite not_elem_of_app, not_elem_of_cons in Hnin.
  destruct Hnin as (Hl & Hv & Hr). cbn [root_of search_loop].
  rewrite (bind_ok _ _ _ _ _ (get_data_spec st k a c l v r Hrep)).
  rewrite bool_decide_false by done. case_bool_decide.
  - rewrite (bind_ok _ _ _ _ _ (get_left_spec st k a c l v r Hrep)).
    apply (IH (FL a c v r :: k) l); [clear -Hh; cbn [height] in Hh; lia|done..].
  - rewrite (bind_ok _ _ _ _ _ (get_right_spec st k a c l v r Hrep)).
    apply (IH (FR a c l v :: k) r); [clear -Hh; cbn [height] in Hh; lia|done..].
Qed.

(** C10: deleting a value that no node holds returns False and leaves the
    whole tree object as it was: the store of nodes (values, colours,
    parent and child links), the root and the black-height field. *)
Theorem C10_delete_absent_unchanged (st : RedBlackTree) (t : tree) (v : Z) (fuel : nat) :
  represents st t →
  (height t ≤ fuel)%nat →
  v ∉ inorder t →
  delete fuel v st = Ok (false, st).
Proof.
  intros Hrep Hfuel Hnin. unfold delete, search.
  rewrite bind_assoc_eq, (bind_ok _ _ _ _ _ (get_root_spec st t Hrep)).
  unfold bind. by rewrite (search_loop_absent v fuel [] t st Hfuel Hrep Hnin).
Qed.

Lemma C10_witness :
  represents (state_after ops_10_20_30) tree_10_20_30
  ∧ (height tree_10_20_30 ≤ 2)%nat
  ∧ (25 ∉ inorder tree_10_20_30)
  ∧ delete 2 25 (state_after ops_10_20_30) = Ok (false, state_after ops_10_20_30).
Proof.
  assert (25 ∉ inorder tree_10_20_30) as Hnin.
  { simpl. rewrite !not_elem_of_cons. split_and!; [lia..|apply not_elem_of_nil]. }
  split; [exact (proj1 well_formed_10_20_30)|]. split; [simpl; lia|]. split; [exact Hnin|].
  apply (C10_delete_absent_unchanged _ tree_10_20_30);
    [exact (proj1 well_formed_10_20_30)|simpl; lia|exact Hnin].
Defined.


(** * Further properties of the code *)

(** ** Search, insert and delete on one tree *)

Lemma size_list_to_set_disj (l : list Z) :
  size (list_to_set_disj l : gmultiset Z) = length l.
Proof.
  induction l as [|x l IH]; [done|].
  rewrite list_to_set_disj_cons, gmultiset_size_disj_union,
    gmultiset_size_singleton, IH. done.
Qed.

Lemma plug_in_addrs k a c l v r : a ∈ addrs (plug k (Node a c l v r)).
Proof. rewrite addrs_plug. simpl. set_solver. Qed.

(** X1: on a tree that is consistently linked and ordered, [search v]
    returns a node of the tree that holds [v] when [v] occurs in the tree
    and nothing when it does not; the tree object is left as it was. *)
Theorem search_finds_present (st : RedBlackTree) (t : tree) (v : Z) (fuel : nat) :
  represents st t → bst t →
  (height t ≤ fuel)%nat →
  ∃ res,
    search fuel v st = Ok (res, st)
    ∧ (v ∈ inorder t →
       ∃ a n, res = Some a ∧ a ∈ addrs t ∧ heap st !! a = Some n ∧ data n = v)
    ∧ (v ∉ inorder t → res = None).
Proof.
  intros Hrep Hbst Hfuel. apply bst_sorted in Hbst.
  destruct (search_spec v fuel t st Hfuel Hrep Hbst) as (res & st' & Hrun & -> & Hres).
  exists res. split; [done|]. destruct res as [a|].
  - destruct Hres as (k' & c & l & r & <-). split.
    + intros _. eexists a, _. split; [done|]. split; [apply plug_in_addrs|].
      split; [by eapply rep_lookup|done].
    + intros Hnin. exfalso. apply Hnin. rewrite inorder_plug. simpl. set_solver.
  - split; [done|done].
Qed.

Lemma search_finds_present_witness :
  represents (state_after ops_10_20_30) tree_10_20_30
  ∧ bst tree_10_20_30
  ∧ (height tree_10_20_30 ≤ 2)%nat
  ∧ ∃ res,
      search 2 30 (state_after ops_10_20_30) = Ok (res, state_after ops_10_20_30)
      ∧ (30 ∈ inorder tree_10_20_30 →
         ∃ a n, res = Some a ∧ a ∈ addrs tree_10_20_30
                ∧ heap (state_after ops_10_20_30) !! a = Some n ∧ data n = 30)
      ∧ (30 ∉ inorder tree_10_20_30 → res = None).
Proof.
  pose proof well_formed_10_20_30 as (Hrep & _ & Hbst).
  split; [exact Hrep|]. split; [exact Hbst|]. split; [simpl; lia|].
  apply search_finds_present; [exact Hrep|exact Hbst|simpl; lia].
Defined.

(** X2: one insertion into a well-formed tree returns, leaves a
    well-formed tree, and adds exactly one occurrence of the value; values
    already present are kept, duplicates included. *)
Theorem insert_well_formed (st : RedBlackTree) (t : tree) (v : Z) (fuel : nat) :
  well_formed st t →
  (height t ≤ fuel)%nat →
  ∃ st' t',
    insert fuel v st = Ok (tt, st')
    ∧ well_formed st' t'
    ∧ list_to_set_disj (inorder t')
      =@{gmultiset Z} {[+ v +]} ⊎ list_to_set_disj (inorder t)
    ∧ tree_size t' = S (tree_size t).
Proof.
  intros (Hrep & Hrb & Hbst) Hfuel. apply bst_sorted in Hbst.
  destruct (insert_spec fuel v st t Hfuel Hrep Hrb Hbst)
    as ([] & st' & Hrun & t' & l1 & l2 & Hrep' & Hrb' & E & E' & Hs').
  exists st', t'. split; [done|]. split; [split_and!; [done..|by apply bst_sorted]|].
  unfold tree_size. rewrite E, E'. split; [apply multiset_insert|].
  rewrite !length_app. simpl. lia.
Qed.

Lemma insert_well_formed_witness :
  well_formed (state_after ops_10_20_30) tree_10_20_30
  ∧ (height tree_10_20_30 ≤ 2)%nat
  ∧ ∃ st' t',
      insert 2 20 (state_after ops_10_20_30) = Ok (tt, st')
      ∧ well_formed st' t'
      ∧ list_to_set_disj (inorder t')
        =@{gmultiset Z} {[+ 20 +]} ⊎ list_to_set_disj (inorder tree_10_20_30)
      ∧ tree_size t' = S (tree_size tree_10_20_30).
Proof.
  split; [exact well_formed_10_20_30|]. split; [simpl; lia|].
  apply insert_well_formed; [exact well_formed_10_20_30|simpl; lia].
Defined.

(** X3: [insert v] followed by [delete v] on a well-formed tree: the
    delete returns True and the tree holds the same values in the same
    order as before the two calls. *)
Theorem insert_delete_round_trip (st : RedBlackTree) (t : tree) (v : Z) (fuel : nat) :
  well_formed st t →
  (tree_size t + 3 ≤ fuel)%nat →
  ∃ st' t',
    (insert fuel v ;; delete fuel v) st = Ok (true, st')
    ∧ well_formed st' t'
    ∧ inorder t' = inorder t.
Proof.
  intros (Hrep & Hrb & Hbst) Hfuel. apply bst_sorted in Hbst.
  pose proof (height_size t) as Hh. unfold tree_size in Hfuel.
  destruct (insert_spec fuel v st t) as ([] & st1 & Hrun1 & t1 & l1 & l2 & Hrep1 & Hrb1 & E & E1 & Hs1);
    [lia|done..|].
  destruct (delete_spec fuel v st1 t1) as (b & st2 & Hrun2 & Hres); [|done..|].
  { pose proof (height_size t1) as Hh1. rewrite E1, length_app in Hh1.
    rewrite E, length_app in Hfuel. simpl in Hh1. lia. }
  unfold bind. rewrite Hrun1, Hrun2.
  destruct Hres as [(-> & Hnin & _)|(-> & t2 & l1' & l2' & Hrep2 & Hrb2 & E1' & E2 & Hs2)].
  { exfalso. apply Hnin. rewrite E1. set_solver. }
  exists st2, t2. split; [done|]. split; [split_and!; [done..|by apply bst_sorted]|].
  rewrite E, E2. apply (StronglySorted_unique Z.le); [by rewrite <- E2|by rewrite <- E|].
  apply (Permutation_cons_inv (a:=v)).
  rewrite !Permutation_middle, <- E1, <- E1'. done.
Qed.

Lemma insert_delete_round_trip_witness :
  well_formed (state_after ops_10_20_30) tree_10_20_30
  ∧ (tree_size tree_10_20_30 + 3 ≤ 6)%nat
  ∧ ∃ st' t',
      (insert 6 20 ;; delete 6 20) (state_after ops_10_20_30) = Ok (true, st')
      ∧ well_formed st' t'
      ∧ inorder t' = inorder tree_10_20_30.
Proof.
  split; [exact well_formed_10_20_30|]. split; [simpl; lia|].
  apply insert_delete_round_trip; [exact well_formed_10_20_30|simpl; lia].
Defined.

(** ** Sequences of operations *)

Lemma run_app fuel ops1 ops2 st :
  run fuel (ops1 ++ ops2) st
  = (log1 <- run fuel ops1 ;; log2 <- run fuel ops2 ;; ret (log1 ++ log2)) st.
Proof.
  revert st. induction ops1 as [|o ops1 IH]; intros st; cbn [run app].
  - unfold bind, ret. simpl. by destruct (run fuel ops2 st) as [[??]| |].
  - rewrite bind_assoc_eq. apply bind_ext. intros b st1 _.
    unfold bind, ret. rewrite IH. unfold bind, ret.
    destruct (run fuel ops1 st1) as [[log1 st2]| |]; [|done..].
    by destruct (run fuel ops2 st2) as [[log2 st3]| |].
Qed.

Lemma run_inserts fuel : ∀ l st t,
  well_formed st t →
  (tree_size t + length l ≤ fuel)%nat →
  ∃ st' t',
    run fuel (Insert <$> l) st = Ok (replicate (length l) None, st')
    ∧ well_formed st' t'
    ∧ list_to_set_disj (inorder t')
      =@{gmultiset Z} list_to_set_disj (inorder t) ⊎ list_to_set_disj l.
Proof.
  induction l as [|d l IH]; intros st t Hwf Hfuel.
  { exists st, t. split; [done|]. split; [done|]. simpl. multiset_solver. }
  destruct Hwf as (Hrep & Hrb & Hbst). apply bst_sorted in Hbst.
  pose proof (height_size t) as Hh. unfold tree_size in *. cbn [length] in Hfuel.
  destruct (insert_spec fuel d st t) as ([] & st1 & Hrun1 & t1 & l1 & l2 & Hrep1 & Hrb1 & E & E1 & Hs1);
    [lia|done..|].
  destruct (IH st1 t1) as (st' & t' & Hrun & Hwf' & E').
  { split_and!; [done..|by apply bst_sorted]. }
  { rewrite E1, length_app. rewrite E, length_app in Hfuel. simpl. lia. }
  exists st', t'. split; [|split; [done|]].
  - cbn [fmap list_fmap run run_op]. unfold bind, ret. rewrite Hrun1.
    fold (fmap (M:=list) Insert l). rewrite Hrun. done.
  - rewrite E', E1, multiset_insert, E, list_to_set_disj_cons. multiset_solver.
Qed.

Lemma run_deletes fuel : ∀ l st t,
  well_formed st t →
  (tree_size t + 2 ≤ fuel)%nat →
  list_to_set_disj l ⊆@{gmultiset Z} list_to_set_disj (inorder t) →
  ∃ st' t',
    run fuel (Delete <$> l) st = Ok (replicate (length l) (Some true), st')
    ∧ well_formed st' t'
    ∧ list_to_set_disj (inorder t')
      =@{gmultiset Z} list_to_set_disj (inorder t) ∖ list_to_set_disj l.
Proof.
  induction l as [|d l IH]; intros st t Hwf Hfuel Hsub.
  { exists st, t. split; [done|]. split; [done|]. simpl. multiset_solver. }
  destruct Hwf as (Hrep & Hrb & Hbst). apply bst_sorted in Hbst.
  pose proof (height_size t) as Hh. unfold tree_size in *.
  rewrite list_to_set_disj_cons in Hsub.
  destruct (delete_spec fuel d st t) as (b & st1 & Hrun1 & Hres); [lia|done..|].
  destruct Hres as [(-> & Hnin & _)|(-> & t1 & l1 & l2 & Hrep1 & Hrb1 & E & E1 & Hs1)].
  { exfalso. apply Hnin. apply elem_of_list_to_set_disj. multiset_solver. }
  rewrite E, multiset_insert in Hsub.
  destruct (IH st1 t1) as (st' & t' & Hrun & Hwf' & E').
  { split_and!; [done..|by apply bst_sorted]. }
  { rewrite E1, length_app. rewrite E, length_app in Hfuel. simpl in Hfuel. lia. }
  { rewrite E1. multiset_solver. }
  exists st', t'. split; [|split; [done|]].
  - cbn [fmap list_fmap run run_op]. unfold bind, ret. rewrite Hrun1.
    fold (fmap (M:=list) Delete l). rewrite Hrun. done.
  - rewrite E', E1, E, multiset_insert, list_to_set_disj_cons. multiset_solver.
Qed.

Lemma inorder_nil_leaf t : inorder t = [] → t = Leaf.
Proof.
  destruct t as [|a c l v r]; [done|]. simpl. intros E.
  by apply app_nil in E as [_ ?].
Qed.

(** X4: inserting the values of a list into an empty tree and then
    deleting the same values, in any order, empties the tree: every delete
    returns True and the root is None at the end. *)
Theorem delete_all_empties (l l' : list Z) (fuel : nat) :
  l' ≡ₚ l →
  (length l + 2 ≤ fuel)%nat →
  ∃ st,
    run fuel ((Insert <$> l) ++ (Delete <$> l')) init
    = Ok (replicate (length l) None ++ replicate (length l') (Some true), st)
    ∧ root st = None.
Proof.
  intros Hperm Hfuel.
  destruct (run_inserts fuel l init Leaf) as (st1 & t1 & Hrun1 & Hwf1 & E1).
  { split_and!; [apply represents_init|apply rb_leaf|done]. }
  { simpl. lia. }
  assert (tree_size t1 = length l) as Hsize.
  { unfold tree_size. rewrite <- !size_list_to_set_disj, E1. simpl.
    rewrite gmultiset_size_disj_union, gmultiset_size_empty. done. }
  destruct (run_deletes fuel l' st1 t1) as (st2 & t2 & Hrun2 & Hwf2 & E2); [done|lia| |].
  { rewrite E1, Hperm. simpl. multiset_solver. }
  exists st2. rewrite run_app. unfold bind, ret. rewrite Hrun1, Hrun2. split; [done|].
  assert (t2 = Leaf) as ->.
  { apply inorder_nil_leaf. apply length_zero_iff_nil.
    rewrite <- size_list_to_set_disj, E2, E1, Hperm. simpl.
    apply gmultiset_size_empty_iff. multiset_solver. }
  destruct Hwf2 as ((_ & Hroot & _) & _). done.
Qed.

Lemma delete_all_empties_witness :
  [3; 1; 2] ≡ₚ [1; 2; 3]
  ∧ (length [1; 2; 3] + 2 ≤ 5)%nat
  ∧ ∃ st,
      run 5 ((Insert <$> [1; 2; 3]) ++ (Delete <$> [3; 1; 2])) init
      = Ok (replicate (length [1; 2; 3]) None
            ++ replicate (length [3; 1; 2]) (Some true), st)
      ∧ root st = None.
Proof.
  assert ([3; 1; 2] ≡ₚ [1; 2; 3]) as Hperm.
  { apply (Permutation_cons_app [1; 2] [] 3). simpl. reflexivity. }
  split; [exact Hperm|]. split; [simpl; lia|].
  apply delete_all_empties; [exact Hperm|simpl; lia].
Defined.

Lemma run_size fuel ops log st t :
  run fuel ops init = Ok (log, st) →
  represents st t →
  list_to_set_disj (inorder t) =@{gmultiset Z} inserted ops ∖ deleted ops log →
  (length (inorder t) ≤ length ops)%nat.
Proof.
  intros _ _ E. rewrite <- size_list_to_set_disj, E.
  etransitivity; [apply (gmultiset_subseteq_size _ (inserted ops)); multiset_solver|].
  clear. induction ops as [|[d|d] ops IH]; simpl.
  - by rewrite (@gmultiset_size_empty Z _ _).
  - rewrite gmultiset_size_disj_union, gmultiset_size_singleton. lia.
  - lia.
Qed.

(** X5: after any sequence of insert and delete operations on an empty
    tree, [search v] returns a node exactly when [v] was inserted more
    often than it was deleted with success. *)
Theorem search_after_operations (ops : list op) (v : Z) (fuel : nat) :
  (length ops + 2 ≤ fuel)%nat →
  ∃ log st res,
    run fuel ops init = Ok (log, st)
    ∧ search fuel v st = Ok (res, st)
    ∧ (is_Some res ↔
       (multiplicity v (deleted ops log) < multiplicity v (inserted ops))%nat).
Proof.
  intros Hfuel.
  destruct (run_spec fuel ops init Leaf) as (log & st & Hrun & t & Hrep & Hrb & Hs & Hsub & E);
    [simpl; lia|apply represents_init|apply rb_leaf|constructor|].
  assert (list_to_set_disj (inorder t) =@{gmultiset Z} inserted ops ∖ deleted ops log) as E'.
  { rewrite E. simpl. multiset_solver. }
  pose proof (run_size fuel ops log st t Hrun Hrep E') as Hsize.
  pose proof (height_size t) as Hh.
  destruct (search_spec v fuel t st) as (res & st' & Hrun' & -> & Hres); [lia|done..|].
  exists log, st, res. split; [done|]. split; [done|].
  assert (v ∈ inorder t ↔
          (multiplicity v (deleted ops log) < multiplicity v (inserted ops))%nat) as <-.
  { rewrite <- (elem_of_list_to_set_disj (A:=Z)), E', elem_of_multiplicity,
      multiplicity_difference. lia. }
  destruct res as [a|].
  - destruct Hres as (k' & c & l & r & <-). split; [|by eauto].
    intros _. rewrite inorder_plug. simpl. set_solver.
  - split; [by intros [? ?]|done].
Qed.

Lemma search_after_operations_witness :
  (length [Insert 4; Insert 4; Delete 4; Insert 7; Delete 9] + 2 ≤ 7)%nat
  ∧ ∃ log st res,
      run 7 [Insert 4; Insert 4; Delete 4; Insert 7; Delete 9] init = Ok (log, st)
      ∧ search 7 4 st = Ok (res, st)
      ∧ (is_Some res ↔
         (multiplicity 4%Z (deleted [Insert 4; Insert 4; Delete 4; Insert 7; Delete 9] log)
          < multiplicity 4%Z (inserted [Insert 4; Insert 4; Delete 4; Insert 7; Delete 9]))%nat).
Proof.
  split; [simpl; lia|]. apply search_after_operations. simpl; lia.
Defined.

(** ** Rotation *)

(** X6: rotating a node up and then its former parent up gives back the
    tree there was: the second rotation undoes the first. *)
Theorem rotation_round_trip (st : RedBlackTree) (t : tree) (x p : addr) :
  represents st t →
  x ∈ addrs t →
  parent_of st x = Some p →
  ∃ st1 st2,
    rotation x st = Ok (tt, st1)
    ∧ rotation p st1 = Ok (tt, st2)
    ∧ represents st2 t
    ∧ black_height st2 = black_height st.
Proof.
  intros Hrep Hin Hp. destruct (addrs_decompose t x Hin) as (k & c & l & v & r & ->).
  unfold parent_of in Hp. rewrite (rep_lookup _ _ _ _ _ _ _ Hrep) in Hp. simpl in Hp.
  destruct k as [|[p' pc pv s|p' pc s pv] k]; [done|..]; injection Hp as ->;
    cbn [plug fill] in Hrep.
  - destruct (rotation_right_spec _ _ _ _ _ _ _ _ _ _ _ Hrep) as (st1 & Hrun1 & Hrep1 & Hbh1).
    destruct (rotation_left_spec _ _ _ _ _ _ _ _ _ _ _ Hrep1) as (st2 & Hrun2 & Hrep2 & Hbh2).
    exists st1, st2. split_and!; [done..|congruence].
  - destruct (rotation_left_spec _ _ _ _ _ _ _ _ _ _ _ Hrep) as (st1 & Hrun1 & Hrep1 & Hbh1).
    destruct (rotation_right_spec _ _ _ _ _ _ _ _ _ _ _ Hrep1) as (st2 & Hrun2 & Hrep2 & Hbh2).
    exists st1, st2. split_and!; [done..|congruence].
Qed.

Lemma rotation_round_trip_witness :
  represents (state_after ops_10_20_30) tree_10_20_30
  ∧ 2%nat ∈ addrs tree_10_20_30
  ∧ parent_of (state_after ops_10_20_30) 2 = Some 1%nat
  ∧ ∃ st1 st2,
      rotation 2 (state_after ops_10_20_30) = Ok (tt, st1)
      ∧ rotation 1 st1 = Ok (tt, st2)
      ∧ represents st2 tree_10_20_30
      ∧ black_height st2 = black_height (state_after ops_10_20_30).
Proof.
  assert (2%nat ∈ addrs tree_10_20_30) as Hin.
  { simpl. rewrite !elem_of_cons. auto. }
  assert (parent_of (state_after ops_10_20_30) 2 = Some 1%nat) as Hp
    by (vm_compute; reflexivity).
  split; [exact (proj1 well_formed_10_20_30)|]. split; [exact Hin|]. split; [exact Hp|].
  apply (rotation_round_trip _ tree_10_20_30);
    [exact (proj1 well_formed_10_20_30)|exact Hin|exact Hp].
Defined.

(** ** The height of the tree *)

Lemma bheight_size t : balanced t → (2 ^ bheight t ≤ tree_size t + 1)%nat.
Proof.
  unfold tree_size. induction t as [|a c l IHl v r IHr]; simpl; [lia|].
  intros (E & Hl & Hr). specialize (IHl Hl). specialize (IHr Hr).
  rewrite <- E in IHr. rewrite length_app. simpl.
  destruct c; simpl; lia.
Qed.

Lemma height_bheight t :
  nored t → balanced t →
  (height t ≤ 2 * bheight t + (if root_color t is Red then 1 else 0))%nat.
Proof.
  induction t as [|a c l IHl v r IHr]; simpl; [lia|].
  intros (Hc & Hnl & Hnr) (E & Hbl & Hbr).
  specialize (IHl Hnl Hbl). specialize (IHr Hnr Hbr). rewrite <- E in IHr.
  destruct c; simpl.
  - destruct (Hc eq_refl) as [Hl Hr]. rewrite Hl in IHl. rewrite Hr in IHr. lia.
  - destruct (root_color l), (root_color r); lia.
Qed.

Lemma rb_height_log t : rb t → (height t ≤ 2 * Nat.log2 (tree_size t + 1))%nat.
Proof.
  intros (Hroot & Hn & Hb). pose proof (height_bheight t Hn Hb) as Hh.
  unfold root_black in Hroot. rewrite Hroot in Hh.
  pose proof (bheight_size t Hb) as Hs.
  apply Nat.log2_le_pow2 in Hs; lia.
Qed.

(** X7: after any sequence of insert and delete operations on an empty
    tree, the height of the tree is at most twice the binary logarithm of
    the number of nodes plus one. *)
Theorem height_logarithmic (ops : list op) (fuel : nat) :
  (length ops + 2 ≤ fuel)%nat →
  ∃ st t,
    tree_after fuel ops = Ok st
    ∧ represents st t
    ∧ (height t ≤ 2 * Nat.log2 (tree_size t + 1))%nat.
Proof.
  intros Hfuel.
  destruct (run_spec fuel ops init Leaf) as (log & st & Hrun & t & Hrep & Hrb & _);
    [simpl; lia|apply represents_init|apply rb_leaf|constructor|].
  exists st, t. unfold tree_after. rewrite Hrun. split_and!; [done..|].
  by apply rb_height_log.
Qed.

Lemma height_logarithmic_witness :
  (length [Insert 1; Insert 2; Insert 3; Insert 4; Insert 5; Delete 2] + 2 ≤ 8)%nat
  ∧ ∃ st t,
      tree_after 8 [Insert 1; Insert 2; Insert 3; Insert 4; Insert 5; Delete 2] = Ok st
      ∧ represents st t
      ∧ (height t ≤ 2 * Nat.log2 (tree_size t + 1))%nat.
Proof.
  split; [simpl; lia|]. apply height_logarithmic. simpl; lia.
Defined.

(** X8: on a well-formed tree of [n] nodes, [insert], [delete] and
    [search] return within a number of loop rounds and nested calls of
    twice the binary logarithm of [n + 1], plus two. *)
Theorem operations_logarithmic (st : RedBlackTree) (t : tree) (v : Z) (fuel : nat) :
  well_formed st t →
  (2 * Nat.log2 (tree_size t + 1) + 2 ≤ fuel)%nat →
  (∃ st', insert fuel v st = Ok (tt, st'))
  ∧ (∃ b st', delete fuel v st = Ok (b, st'))
  ∧ (∃ res, search fuel v st = Ok (res, st)).
Proof.
  intros (Hrep & Hrb & Hbst) Hfuel. apply bst_sorted in Hbst.
  pose proof (rb_height_log t Hrb) as Hh. split_and!.
  - destruct (insert_spec fuel v st t) as ([] & st' & Hrun & _); [lia|done..|].
    by exists st'.
  - destruct (delete_spec fuel v st t) as (b & st' & Hrun & _); [lia|done..|].
    by exists b, st'.
  - destruct (search_spec v fuel t st) as (res & st' & Hrun & -> & _); [lia|done..|].
    by exists res.
Qed.

Lemma operations_logarithmic_witness :
  well_formed (state_after ops_10_20_30) tree_10_20_30
  ∧ (2 * Nat.log2 (tree_size tree_10_20_30 + 1) + 2 ≤ 6)%nat
  ∧ (∃ st', insert 6 15 (state_after ops_10_20_30) = Ok (tt, st'))
  ∧ (∃ b st', delete 6 15 (state_after ops_10_20_30) = Ok (b, st'))
  ∧ (∃ res, search 6 15 (state_after ops_10_20_30)
            = Ok (res, state_after ops_10_20_30)).
Proof.
  split; [exact well_formed_10_20_30|]. split; [vm_compute; lia|].
  apply (operations_logarithmic _ tree_10_20_30); [exact well_formed_10_20_30|vm_compute; lia].
Defined.

(** ** The black-height field *)

Lemma kbh_ret {A} (a : A) : keeps_black_height (ret a).
Proof. by intros st a' st' [= <- <-]. Qed.

Lemma kbh_raise {A} : keeps_black_height (@raise A).
Proof. by intros st a st'. Qed.

Lemma kbh_out_of_fuel {A} : keeps_black_height (@out_of_fuel A).
Proof. by intros st a st'. Qed.

Lemma kbh_bind {A B} (m : M A) (f : A → M B) :
  keeps_black_height m → (∀ a, keeps_black_height (f a)) →
  keeps_black_height (bind m f).
Proof.
  intros Hm Hf st b st'. unfold bind.
  destruct (m st) as [[a st1]| |] eqn:E; [|done..].
  intros H. rewrite (Hf _ _ _ _ H). by eapply Hm.
Qed.

Lemma kbh_load a : keeps_black_height (load a).
Proof. intros st n st'. unfold load. destruct (heap st !! a); [|done]. by intros [= <- <-]. Qed.

Lemma kbh_store a n : keeps_black_height (store a n).
Proof. by intros st [] st' [= <-]. Qed.

Lemma kbh_alloc d p : keeps_black_height (alloc d p).
Proof. by intros st a st' [= <- <-]. Qed.

Lemma kbh_get_root : keeps_black_height get_root.
Proof. by intros st a st' [= <- <-]. Qed.

Lemma kbh_set_root r : keeps_black_height (set_root r).
Proof. by intros st [] st' [= <-]. Qed.

(** One step of the proof that a computation built from the primitives
    keeps the field; [known] closes the calls of functions already dealt
    with. *)
Ltac kbh_step known :=
  cbv zeta;
  lazymatch goal with
  | |- keeps_black_height (bind _ _) => apply kbh_bind; [|intros ?]
  | |- keeps_black_height (ret _) => apply kbh_ret
  | |- keeps_black_height raise => apply kbh_raise
  | |- keeps_black_height out_of_fuel => apply kbh_out_of_fuel
  | |- keeps_black_height (load _) => apply kbh_load
  | |- keeps_black_height (store _ _) => apply kbh_store
  | |- keeps_black_height (alloc _ _) => apply kbh_alloc
  | |- keeps_black_height get_root => apply kbh_get_root
  | |- keeps_black_height (set_root _) => apply kbh_set_root
  | |- keeps_black_height (match ?x with _ => _ end) => destruct x
  | |- keeps_black_height _ =>
    first [ assumption | known
          | progress unfold deref, get_data, get_color, get_parent, get_left,
              get_right, set_data, set_color, set_parent, set_left, set_right,
              is_red_node, is_none_or_black, sibling_of, swap_data ]
  end.

Ltac kbh known := repeat kbh_step known.

Lemma kbh_rotation x : keeps_black_height (rotation x).
Proof. unfold rotation. kbh fail. Qed.

Lemma kbh_delete_rebalance_red_nephew p s rel :
  keeps_black_height (delete_rebalance_red_nephew p s rel).
Proof. unfold delete_rebalance_red_nephew. kbh ltac:(apply kbh_rotation). Qed.

Lemma kbh_delete_rebalance fuel : ∀ x, keeps_black_height (delete_rebalance fuel x).
Proof.
  induction fuel as [|fuel IH]; intros x; cbn [delete_rebalance].
  { apply kbh_out_of_fuel. }
  unfold delete_rebalance_body.
  kbh ltac:(first [ apply kbh_rotation | apply kbh_delete_rebalance_red_nephew | apply IH ]).
Qed.

Lemma kbh_walk_right fuel : ∀ a n, keeps_black_height (walk_right fuel a n).
Proof.
  induction fuel as [|fuel IH]; intros a n; cbn [walk_right]; kbh ltac:(apply IH).
Qed.

Lemma kbh_walk_left fuel : ∀ a n, keeps_black_height (walk_left fuel a n).
Proof.
  induction fuel as [|fuel IH]; intros a n; cbn [walk_left]; kbh ltac:(apply IH).
Qed.

Lemma kbh_rebalance_if_black fuel x : keeps_black_height (rebalance_if_black fuel x).
Proof. unfold rebalance_if_black. kbh ltac:(apply kbh_delete_rebalance). Qed.

Lemma kbh_replace_by_child p x get_child :
  (∀ a, keeps_black_height (get_child a)) →
  keeps_black_height (replace_by_child p x get_child).
Proof. intros H. unfold replace_by_child. kbh ltac:(apply H). Qed.

Lemma kbh_get_left a : keeps_black_height (get_left a).
Proof. kbh fail. Qed.

Lemma kbh_get_right a : keeps_black_height (get_right a).
Proof. kbh fail. Qed.

Lemma kbh_delete_helper fuel : ∀ x, keeps_black_height (delete_helper fuel x).
Proof.
  induction fuel as [|fuel IH]; intros x; cbn [delete_helper].
  { apply kbh_out_of_fuel. }
  unfold delete_helper_body.
  kbh ltac:(first [ apply kbh_rebalance_if_black | apply kbh_walk_right
                  | apply kbh_walk_left | apply IH
                  | apply kbh_replace_by_child; [apply kbh_get_left || apply kbh_get_right] ]).
Qed.

Lemma kbh_search_loop fuel d : ∀ x, keeps_black_height (search_loop fuel d x).
Proof.
  induction fuel as [|fuel IH]; intros [x|]; cbn [search_loop]; kbh ltac:(apply IH).
Qed.

(** X9: [delete] never changes the field [black_height], whatever the tree
    object holds and whether or not it removes a node. *)
Theorem delete_keeps_black_height (fuel : nat) (v : Z) (st st' : RedBlackTree) (b : bool) :
  delete fuel v st = Ok (b, st') →
  black_height st' = black_height st.
Proof.
  revert st b st'. change (keeps_black_height (delete fuel v)).
  unfold delete, search.
  kbh ltac:(first [ apply kbh_search_loop | apply kbh_delete_helper ]).
Qed.

Lemma delete_keeps_black_height_witness :
  delete 4 20 (state_after ops_10_20_30)
  = Ok (true, state_after (ops_10_20_30 ++ [Delete 20]))
  ∧ black_height (state_after (ops_10_20_30 ++ [Delete 20]))
    = black_height (state_after ops_10_20_30).
Proof.
  assert (delete 4 20 (state_after ops_10_20_30)
          = Ok (true, state_after (ops_10_20_30 ++ [Delete 20]))) as Hrun
    by (vm_compute; reflexivity).
  split; [exact Hrun|].
  exact (delete_keeps_black_height 4 20 _ _ true Hrun).
Defined.

Lemma rbh_of_keeps {A} (m : M A) : keeps_black_height m → raises_black_height m.
Proof. intros H st a st' E. left. by eapply H. Qed.

Lemma rbh_bind {A B} (m : M A) (f : A → M B) :
  keeps_black_height m → (∀ a, raises_black_height (f a)) →
  raises_black_height (bind m f).
Proof.
  intros Hm Hf st b st'. unfold bind.
  destruct (m st) as [[a st1]| |] eqn:E; [|done..].
  intros H. rewrite <- (Hm _ _ _ E). by eapply Hf.
Qed.

Lemma rbh_incr_black_height : raises_black_height incr_black_height.
Proof. intros st [] st' [= <-]. by right. Qed.

Ltac rbh_step known rknown :=
  cbv zeta;
  lazymatch goal with
  | |- raises_black_height (bind _ _) => apply rbh_bind; [kbh known|intros ?]
  | |- raises_black_height incr_black_height => apply rbh_incr_black_height
  | |- raises_black_height (match ?x with _ => _ end) => destruct x
  | |- raises_black_height _ =>
    first [ assumption | rknown | (apply rbh_of_keeps; progress kbh known) ]
  end.

Ltac rbh known rknown := repeat rbh_step known rknown.

Lemma rbh_insert_rebalance fuel : ∀ x, raises_black_height (insert_rebalance fuel x).
Proof.
  induction fuel as [|fuel IH]; intros x; cbn [insert_rebalance].
  { apply rbh_of_keeps, kbh_out_of_fuel. }
  unfold insert_rebalance_body. rbh ltac:(apply kbh_rotation) ltac:(apply IH).
Qed.

Lemma kbh_insert_loop fuel d : ∀ x, keeps_black_height (insert_loop fuel d x).
Proof.
  induction fuel as [|fuel IH]; intros x; cbn [insert_loop]; kbh ltac:(apply IH).
Qed.

(** X10: [insert] adds one to the field [black_height] or leaves it as it
    is, whatever the tree object holds; it never lowers it. *)
Theorem insert_raises_black_height (fuel : nat) (v : Z) (st st' : RedBlackTree) :
  insert fuel v st = Ok (tt, st') →
  black_height st' = black_height st ∨ black_height st' = black_height st + 1.
Proof.
  revert st'. generalize tt. revert st.
  change (raises_black_height (insert fuel v)). unfold insert.
  rbh ltac:(apply kbh_insert_loop) ltac:(apply rbh_insert_rebalance).
Qed.

Lemma insert_raises_black_height_witness :
  insert 4 40 (state_after ops_10_20_30)
  = Ok (tt, state_after (ops_10_20_30 ++ [Insert 40]))
  ∧ (black_height (state_after (ops_10_20_30 ++ [Insert 40]))
     = black_height (state_after ops_10_20_30)
     ∨ black_height (state_after (ops_10_20_30 ++ [Insert 40]))
       = black_height (state_after ops_10_20_30) + 1).
Proof.
  assert (insert 4 40 (state_after ops_10_20_30)
          = Ok (tt, state_after (ops_10_20_30 ++ [Insert 40]))) as Hrun
    by (vm_compute; reflexivity).
  split; [exact Hrun|].
  exact (insert_raises_black_height 4 40 _ _ Hrun).
Defined.

(** ** Parent and child links *)

Lemma root_of_Some_inv t a :
  root_of t = Some a → ∃ c l v r, t = Node a c l v r.
Proof. destruct t as [|a' c l v r]; [done|]. intros [= ->]. eauto. Qed.

Lemma reachable_in_tree st t a :
  represents st t → reachable st a → a ∈ addrs t.
Proof.
  intros Hrep. induction 1 as [r Hr|a n c _ IH Hn Hc|a n c _ IH Hn Hc].
  - rewrite (rep_root _ _ Hrep) in Hr.
    apply root_of_Some_inv in Hr as (c & l & v & r' & ->). simpl. set_solver.
  - destruct (addrs_decompose t a IH) as (k & ca & l & v & r & ->).
    rewrite (rep_lookup _ _ _ _ _ _ _ Hrep) in Hn. injection Hn as <-. simpl in Hc.
    apply root_of_Some_inv in Hc as (cc & ll & lv & lr & ->).
    apply (plug_in_addrs (FL a ca v r :: k)).
  - destruct (addrs_decompose t a IH) as (k & ca & l & v & r & ->).
    rewrite (rep_lookup _ _ _ _ _ _ _ Hrep) in Hn. injection Hn as <-. simpl in Hc.
    apply root_of_Some_inv in Hc as (cc & rl & rv & rr & ->).
    apply (plug_in_addrs (FR a ca l v :: k)).
Qed.

Lemma represents_links st t a :
  represents st t → a ∈ addrs t →
  ∃ n, heap st !! a = Some n
    ∧ (parent n = None ↔ root st = Some a)
    ∧ (∀ p, parent n = Some p →
         ∃ np, heap st !! p = Some np ∧ (left np = Some a ∨ right np = Some a))
    ∧ (∀ c, left n = Some c → ∃ nc, heap st !! c = Some nc ∧ parent nc = Some a)
    ∧ (∀ c, right n = Some c → ∃ nc, heap st !! c = Some nc ∧ parent nc = Some a).
Proof.
  intros Hrep Hin. destruct (addrs_decompose t a Hin) as (k & c & l & v & r & ->).
  eexists. split; [exact (rep_lookup _ _ _ _ _ _ _ Hrep)|]. cbn [parent left right].
  split_and!.
  - rewrite (rep_root_focus _ _ _ _ _ _ _ Hrep). by destruct k.
  - intros p Hp. destruct k as [|[p' pc pv s|p' pc s pv] k]; [done|..];
      injection Hp as ->; cbn [plug fill] in Hrep;
      (eexists; split; [exact (rep_lookup _ _ _ _ _ _ _ Hrep)|]); simpl; auto.
  - intros x Hx. apply root_of_Some_inv in Hx as (cc & ll & lv & lr & ->).
    eexists. split; [exact (rep_lookup _ (FL a c v r :: k) _ _ _ _ _ Hrep)|done].
  - intros x Hx. apply root_of_Some_inv in Hx as (cc & rl & rv & rr & ->).
    eexists. split; [exact (rep_lookup _ (FR a c l v :: k) _ _ _ _ _ Hrep)|done].
Qed.

(** X11: after any sequence of insert and delete operations on an empty
    tree, the links of the nodes in use agree: a node reached from the
    root has no parent exactly when it is the root, it is the left or the
    right child of its parent, and each of its children names it as
    parent. *)
Theorem links_consistent (ops : list op) (fuel : nat) :
  (length ops + 2 ≤ fuel)%nat →
  ∃ st,
    tree_after fuel ops = Ok st
    ∧ ∀ a, reachable st a →
        ∃ n, heap st !! a = Some n
          ∧ (parent n = None ↔ root st = Some a)
          ∧ (∀ p, parent n = Some p →
               ∃ np, heap st !! p = Some np ∧ (left np = Some a ∨ right np = Some a))
          ∧ (∀ c, left n = Some c → ∃ nc, heap st !! c = Some nc ∧ parent nc = Some a)
          ∧ (∀ c, right n = Some c → ∃ nc, heap st !! c = Some nc ∧ parent nc = Some a).
Proof.
  intros Hfuel.
  destruct (run_spec fuel ops init Leaf) as (log & st & Hrun & t & Hrep & _);
    [simpl; lia|apply represents_init|apply rb_leaf|constructor|].
  exists st. unfold tree_after. rewrite Hrun. split; [done|].
  intros a Ha. apply (represents_links st t a Hrep).
  by apply (reachable_in_tree st t).
Qed.

Lemma links_consistent_witness :
  (length [Insert 2; Insert 1; Insert 3; Delete 2] + 2 ≤ 6)%nat
  ∧ ∃ st,
      tree_after 6 [Insert 2; Insert 1; Insert 3; Delete 2] = Ok st
      ∧ ∀ a, reachable st a →
          ∃ n, heap st !! a = Some n
            ∧ (parent n = None ↔ root st = Some a)
            ∧ (∀ p, parent n = Some p →
                 ∃ np, heap st !! p = Some np ∧ (left np = Some a ∨ right np = Some a))
            ∧ (∀ c, left n = Some c → ∃ nc, heap st !! c = Some nc ∧ parent nc = Some a)
            ∧ (∀ c, right n = Some c → ∃ nc, heap st !! c = Some nc ∧ parent nc = Some a).
Proof.
  split; [simpl; lia|]. apply links_consistent. simpl; lia.
Defined.

(** ** Insert-rebalance without a grandparent *)

(** X12: insert-rebalance on a node that has no grandparent (a node that
    is not in the store, the root, or a child of the root) raises
    AttributeError, whatever the recursion depth allowed: the grandparent
    that the comment in the source takes for granted is a precondition of
    the method. *)
Theorem insert_rebalance_needs_grandparent (fuel : nat) (st : RedBlackTree) (x : addr) :
  grandparent_of st x = None →
  insert_rebalance (S fuel) x st = AttributeError.
Proof.
  unfold grandparent_of, parent_of. intros H. cbn [insert_rebalance].
  unfold insert_rebalance_body, get_parent, load. unfold bind at 1 2.
  destruct (heap st !! x) as [nx|] eqn:Hx; [|done]. cbn [mbind option_bind] in H.
  unfold ret at 1. cbn beta iota.
  destruct (parent nx) as [p|] eqn:Hp; [|done]. cbn [mbind option_bind] in H.
  unfold bind at 1. cbn [deref]. unfold ret at 1. cbn beta iota.
  unfold bind at 1 2. destruct (heap st !! p) as [np|] eqn:Hnp; [|done].
  cbn [mbind option_bind] in H. unfold ret at 1. cbn beta iota. rewrite H.
  done.
Qed.

Lemma insert_rebalance_needs_grandparent_witness :
  grandparent_of (state_after ops_10_20_30) 2 = None
  ∧ insert_rebalance 3 2 (state_after ops_10_20_30) = AttributeError.
Proof.
  assert (grandparent_of (state_after ops_10_20_30) 2 = None) as H
    by (vm_compute; reflexivity).
  split; [exact H|]. exact (insert_rebalance_needs_grandparent 2 _ 2%nat H).
Defined.

(** ** The traversal printers *)

Lemma inorder_traverse_helper_spec fuel : ∀ k t st depth,
  (height t ≤ fuel)%nat →
  represents st (plug k t) →
  inorder_traverse_helper fuel (root_of t) depth st = Ok (lines t depth, st).
Proof.
  induction fuel as [|fuel IH]; intros k t st depth Hh Hrep.
  { destruct t; simpl in Hh; [done|lia]. }
  destruct t as [|a c l v r]; [done|]. cbn [height] in Hh.
  cbn [root_of inorder_traverse_helper lines].
  rewrite (bind_ok _ _ _ _ _ (get_left_spec _ _ _ _ _ _ _ Hrep)).
  rewrite (bind_ok _ _ _ _ _ (IH (FL a c v r :: k) l st (depth + 1)%nat ltac:(lia) Hrep)).
  rewrite (bind_ok _ _ _ _ _ (get_data_spec _ _ _ _ _ _ _ Hrep)).
  rewrite (bind_ok _ _ _ _ _ (get_color_spec _ _ _ _ _ _ _ Hrep)).
  rewrite (bind_ok _ _ _ _ _ (get_right_spec _ _ _ _ _ _ _ Hrep)).
  rewrite (bind_ok _ _ _ _ _ (IH (FR a c l v :: k) r st (depth + 1)%nat ltac:(lia) Hrep)).
  done.
Qed.

Lemma lines_data t depth : ldata <$> lines t depth = inorder t.
Proof.
  revert depth. induction t as [|a c l IHl v r IHr]; intros depth; simpl; [done|].
  by rewrite fmap_app, fmap_cons, IHl, IHr.
Qed.

Lemma lines_depth t depth :
  Forall (λ ln, (depth ≤ ldepth ln < depth + height t)%nat) (lines t depth).
Proof.
  revert depth. induction t as [|a c l IHl v r IHr]; intros depth; simpl; [done|].
  rewrite Forall_app, Forall_cons. split; [|split].
  - eapply Forall_impl; [apply IHl|]. simpl. lia.
  - simpl. lia.
  - eapply Forall_impl; [apply IHr|]. simpl. lia.
Qed.

(** X13: [inorder_traverse] prints one line for each node of the tree, in
    order, with the value, the colour and the depth of the node (the root
    has depth 0); the values come out as the in-order sequence of the
    tree, so in non-decreasing order when the tree is ordered; an empty
    tree prints nothing, and the tree object is left as it was. *)
Theorem inorder_traverse_output (st : RedBlackTree) (t : tree) (fuel : nat) :
  represents st t →
  (height t ≤ fuel)%nat →
  ∃ out,
    inorder_traverse fuel st = Ok (out, st)
    ∧ out = lines t 0
    ∧ ldata <$> out = inorder t
    ∧ length out = tree_size t
    ∧ Forall (λ ln, (ldepth ln < height t)%nat) out
    ∧ (bst t → StronglySorted Z.le (ldata <$> out)).
Proof.
  intros Hrep Hfuel. exists (lines t 0). split_and!; [|done|..].
  - unfold inorder_traverse. rewrite (bind_ok _ _ _ _ _ (get_root_spec st t Hrep)).
    destruct t as [|a c l v r]; [done|]. cbn [root_of lines height] in *.
    rewrite (bind_ok _ _ _ _ _ (get_left_spec _ [] _ _ _ _ _ Hrep)).
    rewrite (bind_ok _ _ _ _ _
      (inorder_traverse_helper_spec fuel [FL a c v r] l st 1 ltac:(lia) Hrep)).
    rewrite (bind_ok _ _ _ _ _ (get_data_spec _ [] _ _ _ _ _ Hrep)).
    rewrite (bind_ok _ _ _ _ _ (get_color_spec _ [] _ _ _ _ _ Hrep)).
    rewrite (bind_ok _ _ _ _ _ (get_right_spec _ [] _ _ _ _ _ Hrep)).
    rewrite (bind_ok _ _ _ _ _
      (inorder_traverse_helper_spec fuel [FR a c l v] r st 1 ltac:(lia) Hrep)).
    done.
  - apply lines_data.
  - unfold tree_size. by rewrite <- (lines_data t 0), length_fmap.
  - eapply Forall_impl; [apply lines_depth|]. simpl. lia.
  - intros Hbst. rewrite lines_data. by apply bst_sorted.
Qed.

Lemma inorder_traverse_output_witness :
  represents (state_after ops_seven) tree_seven
  ∧ (height tree_seven ≤ 3)%nat
  ∧ ∃ out,
      inorder_traverse 3 (state_after ops_seven) = Ok (out, state_after ops_seven)
      ∧ out = lines tree_seven 0
      ∧ ldata <$> out = inorder tree_seven
      ∧ length out = tree_size tree_seven
      ∧ Forall (λ ln, (ldepth ln < height tree_seven)%nat) out
      ∧ (bst tree_seven → StronglySorted Z.le (ldata <$> out)).
Proof.
  split; [exact represents_seven|]. split; [simpl; lia|].
  apply inorder_traverse_output; [exact represents_seven|simpl; lia].
Defined.

Lemma same_line_level {A} (ts : list A) (d m : nat) :
  negb (bool_decide (head (replicate (length ts) d ++ replicate m (d + 1)%nat) = Some d))
  = bool_decide (ts = []).
Proof.
  destruct ts as [|s ts]; simpl.
  - destruct m as [|m]; simpl; repeat case_bool_decide; try done.
    simplify_eq. lia.
  - repeat case_bool_decide; done.
Qed.

(** One level of the tree goes through the loop: the subtrees [ts] of
    depth [d] are at the front of the queue, the children [us] of those
    that were at the front before them at its end. *)
Lemma breadth_level st t d :
  represents st t →
  ∀ ts us fuel out,
    Forall (λ s, ∃ k, t = plug k s) ts →
    breadth_loop fuel (root_of <$> (us ++ (ts ≫= children)))
      (replicate (length us + length (ts ≫= children)) (d + 1)%nat) st
    = Ok (out, st) →
    breadth_loop (length ts + fuel) (root_of <$> (ts ++ us))
      (replicate (length ts) d ++ replicate (length us) (d + 1)%nat) st
    = Ok (print_level d ts ++ out, st).
Proof.
  intros Hrep. induction ts as [|s ts IH]; intros us fuel out Hsub H.
  { simpl in *. by rewrite app_nil_r, Nat.add_0_r in H. }
  apply Forall_cons in Hsub as [(k & Hk) Hsub].
  cbn [length Nat.add app fmap list_fmap replicate breadth_loop print_level].
  fold (fmap (M:=list) root_of (ts ++ us)).
  destruct s as [|a c l v r]; cbn [root_of entry].
  - rewrite (bind_ok _ _ _ _ _ (IH us fuel out Hsub H)).
    unfold ret. by rewrite same_line_level.
  - subst t.
    rewrite (bind_ok _ _ _ _ _ (get_left_spec _ _ _ _ _ _ _ Hrep)).
    rewrite (bind_ok _ _ _ _ _ (get_right_spec _ _ _ _ _ _ _ Hrep)).
    rewrite (bind_ok _ _ _ _ _ (get_data_spec _ _ _ _ _ _ _ Hrep)).
    rewrite (bind_ok _ _ _ _ _ (get_color_spec _ _ _ _ _ _ _ Hrep)).
    cbv zeta.
    assert ((root_of <$> ts ++ us) ++ [root_of l; root_of r]
            = root_of <$> (ts ++ (us ++ [l; r]))) as ->.
    { by rewrite !fmap_app, <- !app_assoc. }
    assert ((replicate (length ts) d ++ replicate (length us) (d + 1)%nat)
              ++ [(d + 1)%nat; (d + 1)%nat]
            = replicate (length ts) d ++ replicate (length (us ++ [l; r])) (d + 1)%nat) as ->.
    { rewrite length_app, replicate_add, <- app_assoc. done. }
    rewrite (bind_ok _ _ _ _ _ (IH (us ++ [l; r]) fuel out Hsub ltac:(
      cbn [mbind list_bind children app] in H;
      rewrite <- app_assoc, !length_app in *; cbn [length app] in *;
      rewrite <- Nat.add_assoc; exact H))).
    unfold ret. by rewrite same_line_level.
Qed.

Lemma print_levels_nil n d : print_levels n d [] = [].
Proof. revert d. induction n as [|n IH]; intros d; simpl; [done|]. apply IH. Qed.

Lemma rounds_node a c l v r :
  rounds (Node a c l v r) = (1 + rounds l + rounds r)%nat.
Proof. unfold rounds, tree_size. simpl. rewrite length_app. simpl. lia. Qed.

Lemma rounds_children (ts : list tree) :
  sum_list_with rounds ts
  = (length ts + sum_list_with rounds (ts ≫= children))%nat.
Proof.
  induction ts as [|[|a c l v r] ts IH]; [done|..];
    cbn [sum_list_with mbind list_bind children app length];
    fold (mbind (M:=list) children).
  - rewrite IH. done.
  - rewrite IH, rounds_node. lia.
Qed.

Lemma children_subtrees t (ts : list tree) :
  Forall (λ s, ∃ k, t = plug k s) ts →
  Forall (λ s, ∃ k, t = plug k s) (ts ≫= children).
Proof.
  induction 1 as [|s ts [k ->] _ IH]; [done|].
  destruct s as [|a c l v r]; [done|]. cbn [mbind list_bind children app].
  repeat constructor; [by exists (FL a c v r :: k)|by exists (FR a c l v :: k)|done].
Qed.

Lemma children_height n (ts : list tree) :
  Forall (λ s, (height s < S n)%nat) ts →
  Forall (λ s, (height s < n)%nat) (ts ≫= children).
Proof.
  induction 1 as [|s ts Hs _ IH]; [done|].
  destruct s as [|a c l v r]; [done|]. cbn [mbind list_bind children app height] in *.
  repeat constructor; [lia|lia|done].
Qed.

(** The loop on the subtrees [ts] of one depth prints them level by
    level. *)
Lemma breadth_levels st t :
  represents st t →
  ∀ n d ts fuel,
    Forall (λ s, ∃ k, t = plug k s) ts →
    Forall (λ s, (height s < n)%nat) ts →
    (sum_list_with rounds ts ≤ fuel)%nat →
    breadth_loop fuel (root_of <$> ts) (replicate (length ts) d) st
    = Ok (print_levels n d ts, st).
Proof.
  intros Hrep. induction n as [|n IH]; intros d ts fuel Hsub Hh Hfuel.
  { destruct ts as [|s ts]; [by destruct fuel|]. apply Forall_cons in Hh as [Hh _]. lia. }
  rewrite rounds_children in Hfuel.
  pose proof (breadth_level st t d Hrep ts [] (fuel - length ts)
                (print_levels n (d + 1) (ts ≫= children)) Hsub) as H.
  rewrite app_nil_r in H. cbn [length replicate app Nat.add] in H.
  rewrite app_nil_r in H.
  replace (length ts + (fuel - length ts))%nat with fuel in H by lia.
  cbn [print_levels]. apply H.
  apply IH; [by apply children_subtrees|by apply children_height|lia].
Qed.

Lemma print_levels_length n : ∀ d ts,
  Forall (λ s, (height s < n)%nat) ts →
  length (print_levels n d ts)
  = sum_list_with rounds ts.
Proof.
  induction n as [|n IH]; intros d ts Hh.
  { destruct ts as [|s ts]; [done|]. apply Forall_cons in Hh as [Hh _]. lia. }
  cbn [print_levels]. rewrite length_app.
  rewrite (IH (d + 1)%nat (ts ≫= children) (children_height _ _ Hh)).
  rewrite (rounds_children ts). f_equal.
  clear. induction ts as [|s ts IH]; simpl; [done|]. by rewrite IH.
Qed.

Lemma lines_children d (ts : list tree) :
  ts ≫= (λ s, lines s d)
  ≡ₚ omap (entry d) ts ++ ((ts ≫= children) ≫= (λ s, lines s (d + 1))).
Proof.
  induction ts as [|[|a c l v r] ts IH]; [done|..];
    cbn [mbind list_bind omap list_omap entry children lines app].
  - exact IH.
  - rewrite IH, <- !app_assoc. cbn [app].
    rewrite <- Permutation_middle. constructor.
    rewrite !(app_assoc (lines l _) (lines r _)).
    apply Permutation_app_swap_app.
Qed.

Lemma print_level_nodes d (ts : list tree) :
  omap inode (print_level d ts) = omap (entry d) ts.
Proof.
  induction ts as [|s ts IH]; [done|]. cbn [print_level omap list_omap inode].
  fold (omap (M:=list) inode). fold (omap (M:=list) (entry d)). by rewrite IH.
Qed.

Lemma print_levels_nodes n : ∀ d ts,
  Forall (λ s, (height s < n)%nat) ts →
  omap inode (print_levels n d ts) ≡ₚ ts ≫= (λ s, lines s d).
Proof.
  induction n as [|n IH]; intros d ts Hh.
  { destruct ts as [|s ts]; [done|]. apply Forall_cons in Hh as [Hh _]. lia. }
  cbn [print_levels]. rewrite omap_app, print_level_nodes, lines_children.
  apply Permutation_app_head. apply IH. by apply children_height.
Qed.

(** X14: [breadth_traverse] prints the tree level by level, each level on
    a line of its own, from left to right, with the word None for every
    absent child; it prints [2 n + 1] items for a tree of [n] nodes, each
    node once with its value, colour and depth, and leaves the tree object
    as it was. *)
Theorem breadth_traverse_output (st : RedBlackTree) (t : tree) (fuel : nat) :
  represents st t →
  (2 * tree_size t + 1 ≤ fuel)%nat →
  ∃ out,
    breadth_traverse fuel st = Ok (out, st)
    ∧ out = print_levels (height t + 1) 0 [t]
    ∧ length out = (2 * tree_size t + 1)%nat
    ∧ omap inode out ≡ₚ lines t 0.
Proof.
  intros Hrep Hfuel.
  assert (Forall (λ s, (height s < height t + 1)%nat) [t]) as Hh
    by (constructor; [lia|done]).
  exists (print_levels (height t + 1) 0 [t]). split_and!; [|done|..].
  - unfold breadth_traverse. rewrite (bind_ok _ _ _ _ _ (get_root_spec st t Hrep)).
    apply (breadth_levels st t Hrep (height t + 1) 0%nat [t] fuel); [|done|].
    + constructor; [by exists []|done].
    + unfold rounds. simpl. lia.
  - rewrite (print_levels_length _ _ _ Hh). unfold rounds. simpl. lia.
  - rewrite (print_levels_nodes _ _ _ Hh). cbn [mbind list_bind]. by rewrite app_nil_r.
Qed.

Lemma breadth_traverse_output_witness :
  represents (state_after ops_10_20_30) tree_10_20_30
  ∧ (2 * tree_size tree_10_20_30 + 1 ≤ 7)%nat
  ∧ ∃ out,
      breadth_traverse 7 (state_after ops_10_20_30)
      = Ok (out, state_after ops_10_20_30)
      ∧ out = print_levels (height tree_10_20_30 + 1) 0 [tree_10_20_30]
      ∧ length out = (2 * tree_size tree_10_20_30 + 1)%nat
      ∧ omap inode out ≡ₚ lines tree_10_20_30 0.
Proof.
  split; [exact (proj1 well_formed_10_20_30)|]. split; [vm_compute; lia|].
  apply breadth_traverse_output; [exact (proj1 well_formed_10_20_30)|vm_compute; lia].
Defined.


(** ** The black-height field under insertion *)

(** The black height of a tree is read on its leftmost path; it depends on
    a subtree through the black height of the subtree only. *)
Lemma bheight_plug_congr k t1 t2 :
  bheight t1 = bheight t2 → bheight (plug k t1) = bheight (plug k t2).
Proof.
  revert t1 t2. induction k as [|f k IH]; intros t1 t2 E; simpl; [done|].
  apply IH. destruct f; simpl; by rewrite ?E.
Qed.

(** The tree-level steps of [tprim], with the field [black_height]
    followed in a hypothesis [black_height st = b]. *)
Ltac rep_write_bh st H spec :=
  let st' := fresh "st" in
  let Heq := fresh "Heq" in
  let H' := fresh "Hrep" in
  let Hb' := fresh "Hbh" in
  destruct spec as (st' & Heq & H' & Hb');
  eapply returns_bind; [exact Heq|];
  clear Heq; plug_norm H'; clear H;
  match goal with
  | Hb : black_height st = _ |- _ => rewrite <- Hb' in Hb
  end;
  clear Hb'.

Ltac tprim_bh st m :=
  lazymatch goal with
  | H : represents st (plug ?k0 ?t) |- _ =>
    lazymatch m with
    | incr_black_height =>
      eapply returns_bind; [reflexivity|];
      apply represents_incr in H;
      match goal with
      | Hb : black_height st = ?b |- _ =>
        assert (black_height {| heap := heap st; root := root st;
                                black_height := black_height st + 1 |} = b + 1)
          by (cbn [black_height]; rewrite Hb; reflexivity);
        clear Hb
      end
    | set_color ?a ?c =>
      let k := focus_ctx a t k0 in
      rep_write_bh st H (set_color_spec st k a _ _ _ _ c H)
    | rotation ?a =>
      let k := focus_ctx a t k0 in
      lazymatch k with
      | FR ?p ?pc ?l ?pv :: ?k' =>
        rep_write_bh st H (rotation_left_spec st k' p pc l pv a _ _ _ _ H)
      | FL ?p ?pc ?pv ?r :: ?k' =>
        rep_write_bh st H (rotation_right_spec st k' p pc a _ _ _ _ pv r H)
      end
    | _ => tprim st m
    end
  end.

Ltac tstep_bh :=
  cbn beta iota zeta;
  lazymatch goal with
  | |- returns (ret _ _) _ => fail
  | |- returns (bind ?m ?f ?st) _ =>
    lazymatch m with
    | ret _ => eapply returns_bind; [reflexivity|]
    | deref (Some _) => eapply returns_bind; [reflexivity|]
    | bind _ _ => apply returns_bind_assoc
    | context [bool_decide ?P] => cond_solve P
    | _ => tprim_bh st m
    end
  | |- returns ((if bool_decide ?P then _ else _) _) _ => cond_solve P
  | |- returns (set_color _ _ _) _ => apply returns_last
  | |- returns (rotation _ _) _ => apply returns_last
  | |- returns (incr_black_height _) _ => apply returns_last
  end;
  repeat match goal with
         | H : root_color ?t = _ |- context [root_color ?t] => rewrite H
         end;
  cbn [fst snd is_red is_black root_of root_color ctx_parent faddr].

Ltac trun_bh := repeat tstep_bh.

(** The field against the black height of the tree before and after. *)
Ltac bh_solve :=
  match goal with
  | Hb : black_height ?s = _ |- black_height ?s = _ => rewrite Hb
  end;
  cbn [plug fill]; rb_simpl;
  try match goal with
      | |- context [bheight (plug ?k ?t1)] =>
        match goal with
        | |- context [bheight (plug k ?t2)] =>
          tryif constr_eq t1 t2 then fail
          else rewrite (bheight_plug_congr k t1 t2)
                 by (cbn [bheight black_bit]; lia)
        end
      end;
  cbn [bheight black_bit]; lia.

Lemma insert_rebalance_bh_spec fuel : ∀ k st x l v r b,
  (length k ≤ fuel)%nat →
  represents st (plug k (Node x Red l v r)) →
  black_height st = b →
  fcolor <$> head k = Some Red →
  ctx_top_color k Red = Black →
  nored (Node x Red l v r) →
  balanced (Node x Red l v r) →
  ctx_nored k Black →
  ctx_balanced k (bheight (Node x Red l v r)) →
  returns (insert_rebalance fuel x st) (λ _ st', ∃ t',
    represents st' t'
    ∧ rb t'
    ∧ inorder t' = inorder (plug k (Node x Red l v r))
    ∧ black_height st'
      = b + Z.of_nat (bheight t') - Z.of_nat (bheight (plug k (Node x Red l v r)))).
Proof.
  induction fuel as [|fuel IH]; intros k st x l v r b Hlen Hrep Hbh Hpr Htop Hnr Hbal Hknr Hkbal.
  { destruct k; simpl in *; [done|lia]. }
  destruct k as [|f1 [|f2 k2]]; simpl in Hpr; try done.
  { injection Hpr as Hpr. simpl in Htop. congruence. }
  injection Hpr as Hpr.
  assert (fcolor f2 = Black) as Hf2.
  { apply color_not_red. intros E. simpl in Hknr. destruct Hknr as (_ & _ & _ & Hc & _).
    destruct (Hc E) as [? _]. congruence. }
  simpl in Htop.
  cbn [insert_rebalance]. unfold insert_rebalance_body.
  destruct f1 as [p pc pv ps|p pc ps pv], f2 as [g gc gv u|g gc u gv];
    simpl in Hpr, Hf2; subst pc gc;
    (destruct u as [|u [|] ul uv ur];
     [ (* no uncle *) | (* red uncle *)
       destruct k2 as [|[a3 c3 v3 r3|a3 c3 l3 v3] [|[a4 c4 v4 r4|a4 c4 l4 v4] k4]]
     | (* black uncle *) ]);
    plug_norm Hrep; rep_distinct Hrep; rb_open; trun_bh;
    try (destruct c3; cbn [is_red]; trun_bh); clear_distinct.
  all: try (lazymatch goal with |- returns (ret _ _) _ => idtac end;
            apply returns_ret; eexists; split; [eassumption|split; [rb_solve|split; [inorder_solve|]]]).
  all: try match goal with
       | H : represents ?st (plug ?k0 ?t), Hb : black_height ?st = ?b0
         |- returns (insert_rebalance _ ?g ?st) _ =>
         let k := focus_ctx g t k0 in
         eapply returns_mono; [eapply (IH k st g _ _ _ b0); [|exact H|exact Hb|..]|]
       end.
  all: try (rb_simpl; split_and?; rb_finish).
  all: try (intros _ st' (t' & ? & ? & E & Ebh); exists t'; split_and!; [done..| |];
      [rewrite E; inorder_solve|]).
  all: bh_solve.
Qed.

(** One insertion, with the field [black_height] against the black height
    of the tree. *)
Lemma insert_bh_spec fuel d st t :
  (height t ≤ fuel)%nat →
  represents st t → rb t → StronglySorted Z.le (inorder t) →
  returns (insert fuel d st) (λ _ st', ∃ t',
    represents st' t' ∧ rb t'
    ∧ StronglySorted Z.le (inorder t')
    ∧ black_height st'
      = black_height st + Z.of_nat (bheight t') - Z.of_nat (bheight t)).
Proof.
  intros Hh Hrep Hrb Hs.
  destruct t as [|a c l v r].
  { destruct (insert_empty_spec st d Hrep) as (st' & n & Heq & Hrep' & Hbh).
    assert (insert fuel d st = insert 0 d st) as ->.
    { unfold insert, bind, get_root. destruct Hrep as (_ & Hroot & _).
      rewrite Hroot. done. }
    eapply returns_intro; [exact Heq|].
    exists (Node n Black Leaf d Leaf). split_and!; try done.
    - simpl. repeat constructor.
    - rewrite Hbh. simpl. lia. }
  unfold insert. change (Node a c l v r) with (plug [] (Node a c l v r)) in Hrep.
  tstep. cbn iota beta.
  destruct (insert_loop_spec d fuel [] st a c l v r)
    as (n & st1 & Hrun & k' & Hrep1 & Hpl & Hne & Hl & Hr);
    [done..|simpl; constructor|simpl; constructor|].
  pose proof (kbh_insert_loop fuel d a st n st1 Hrun) as Hbh1.
  eapply returns_bind; [exact Hrun|].
  simpl in Hpl. rewrite <- Hpl in *. clear Hpl Hrep Hrun.
  pose proof (height_plug k' Leaf) as Hlen.
  apply rb_plug in Hrb as (Htop & (_ & Hnr) & (_ & Hbal)).
  rewrite inorder_plug in Hs. simpl in Hs, Htop, Hnr, Hbal.
  assert (StronglySorted Z.le (ctx_left k' ++ d :: ctx_right k')) as Hs'.
  { apply StronglySorted_app in Hs as (H12 & H1 & H2).
    apply sorted_middle. rewrite Forall_forall in Hl, Hr. rewrite !Forall_forall.
    split_and!; try done. }
  assert (bheight (plug k' (Node n Red Leaf d Leaf)) = bheight (plug k' Leaf)) as Hbhk
    by (by apply bheight_plug_congr).
  destruct k' as [|[p pc pv ps|p pc ps pv] k']; [done| |];
    plug_norm Hrep1; trun; destruct pc; cbn [is_red];
    match type of Hs' with
    | StronglySorted _ (ctx_left ?K ++ _) =>
      first
        [ (* red parent *)
          eapply returns_mono;
          [ apply (insert_rebalance_bh_spec fuel K st1 n Leaf d Leaf (black_height st1));
            try done; clear -Hh Hlen; simpl in *; lia
          | intros _ st2 (t2 & ? & ? & E & Ebh); exists t2;
            split_and!; [done..| |];
            [ by rewrite E, inorder_plug
            | rewrite Ebh, Hbh1, Hbhk; lia ] ]
        | (* black parent *)
          apply returns_ret; eexists;
          split_and!; [eassumption|rb_solve| |];
          [ rewrite ?inorder_plug; list_norm; list_norm_in Hs'; done
          | rewrite Hbh1; cbn [plug fill] in *; rewrite Hbhk; lia ] ]
    end.
Qed.

(** X15: as long as values are only inserted, the field [black_height] is
    right: after any sequence of insertions into an empty tree it is the
    number of black nodes on every path from the root to a null leaf. *)
Theorem black_height_exact_after_inserts (l : list Z) (fuel : nat) :
  (length l ≤ fuel)%nat →
  ∃ st t,
    tree_after fuel (Insert <$> l) = Ok st
    ∧ represents st t
    ∧ Forall (λ n, Z.of_nat n = black_height st) (black_paths t).
Proof.
  intros Hfuel.
  assert (∀ l st t,
    (tree_size t + length l ≤ fuel)%nat →
    represents st t → rb t → StronglySorted Z.le (inorder t) →
    black_height st = Z.of_nat (bheight t) →
    ∃ log st' t',
      run fuel (Insert <$> l) st = Ok (log, st')
      ∧ represents st' t' ∧ rb t'
      ∧ black_height st' = Z.of_nat (bheight t')) as Hind.
  { clear l Hfuel. induction l as [|d l IH]; intros st t Hfuel Hrep Hrb Hs Hbh.
    { by exists [], st, t. }
    pose proof (height_size t) as Hh. unfold tree_size in *. cbn [length] in Hfuel.
    destruct (insert_bh_spec fuel d st t) as ([] & st1 & Hrun1 & t1 & Hrep1 & Hrb1 & Hs1 & Hbh1);
      [lia|done..|].
    destruct (insert_spec fuel d st t) as ([] & st1' & Hrun1' & t1' & l1 & l2 & Hrep1' & _ & E & E1 & _);
      [lia|done..|].
    rewrite Hrun1 in Hrun1'. injection Hrun1' as <-.
    rewrite <- (represents_unique _ _ _ Hrep1 Hrep1') in E1.
    destruct (IH st1 t1) as (log & st' & t' & Hrun & Hrep' & Hrb' & Hbh'); [|done..| |].
    { rewrite E1, length_app. rewrite E, length_app in Hfuel. simpl. lia. }
    { rewrite Hbh1, Hbh. lia. }
    exists (None :: log), st', t'. split; [|done].
    cbn [fmap list_fmap run run_op]. unfold bind, ret. rewrite Hrun1.
    fold (fmap (M:=list) Insert l). by rewrite Hrun. }
  destruct (Hind l init Leaf) as (log & st & t & Hrun & Hrep & Hrb & Hbh);
    [simpl; lia|apply represents_init|apply rb_leaf|constructor|done|].
  exists st, t. unfold tree_after. rewrite Hrun. split_and!; [done..|].
  apply Forall_forall. intros n Hn. destruct Hrb as (_ & _ & Hbal).
  by rewrite Hbh, (balanced_black_paths t n Hbal Hn).
Qed.

Lemma black_height_exact_after_inserts_witness :
  (length [5; 3; 8; 1; 4; 7; 9; 2] ≤ 8)%nat
  ∧ ∃ st t,
      tree_after 8 (Insert <$> [5; 3; 8; 1; 4; 7; 9; 2]) = Ok st
      ∧ represents st t
      ∧ Forall (λ n, Z.of_nat n = black_height st) (black_paths t).
Proof.
  split; [simpl; lia|]. apply black_height_exact_after_inserts. simpl; lia.
Defined.



(** ** Results of search and delete on any tree object *)

Lemma bind_inv {A B} (m : M A) (f : A → M B) st b st' :
  bind m f st = Ok (b, st') →
  ∃ a st1, m st = Ok (a, st1) ∧ f a st1 = Ok (b, st').
Proof. unfold bind. destruct (m st) as [[a st1]| |]; [eauto|done..]. Qed.

Lemma ro_ret {A} (a : A) : read_only (ret a).
Proof. by intros st a' st' [= <- <-]. Qed.

Lemma ro_bind {A B} (m : M A) (f : A → M B) :
  read_only m → (∀ a, read_only (f a)) → read_only (bind m f).
Proof.
  intros Hm Hf st b st' (a & st1 & E1 & E2)%bind_inv.
  apply Hm in E1 as ->. by apply Hf in E2.
Qed.

Lemma ro_load a : read_only (load a).
Proof. intros st n st' E. by apply load_inv in E as [-> _]. Qed.

Lemma ro_search_loop fuel d : ∀ x, read_only (search_loop fuel d x).
Proof.
  induction fuel as [|fuel IH]; intros [x|]; cbn [search_loop];
    try apply ro_ret; try done.
  apply ro_bind; [apply ro_bind; [apply ro_load|intros; apply ro_ret]|].
  intros cd. repeat case_bool_decide; [apply ro_ret|..];
    (apply ro_bind; [apply ro_bind; [apply ro_load|intros; apply ro_ret]|intros; apply IH]).
Qed.

Lemma ro_search fuel d : read_only (search fuel d).
Proof.
  unfold search. apply ro_bind; [|intros; apply ro_search_loop].
  by intros st a st' [= <- <-].
Qed.




Lemma at_ret_true : always_true (ret true).
Proof. by intros st b st' [= <- <-]. Qed.

Lemma at_bind {A} (m : M A) (f : A → M bool) :
  (∀ a, always_true (f a)) → always_true (bind m f).
Proof. intros Hf st b st' (a & st1 & _ & E)%bind_inv. by eapply Hf. Qed.

Lemma at_raise : always_true raise.
Proof. by intros st b st'. Qed.

Lemma at_out_of_fuel : always_true out_of_fuel.
Proof. by intros st b st'. Qed.

Ltac at_step known :=
  cbv zeta;
  lazymatch goal with
  | |- always_true (bind _ _) => apply at_bind; intros ?
  | |- always_true (ret true) => apply at_ret_true
  | |- always_true raise => apply at_raise
  | |- always_true out_of_fuel => apply at_out_of_fuel
  | |- always_true (match ?x with _ => _ end) => destruct x
  | |- always_true _ => first [ assumption | known ]
  end.

Ltac at_run known := repeat at_step known.

Lemma at_delete_helper fuel : ∀ x, always_true (delete_helper fuel x).
Proof.
  induction fuel as [|fuel IH]; intros x; cbn [delete_helper].
  { apply at_out_of_fuel. }
  unfold delete_helper_body. at_run ltac:(apply IH).
Qed.

(** X17: whatever the tree object holds, [delete v] returns False only
    when its search for [v] found nothing, and then it has changed
    nothing: a delete that touches the tree never reports failure. *)
Theorem delete_false_changes_nothing (fuel : nat) (v : Z) (st st' : RedBlackTree) :
  delete fuel v st = Ok (false, st') →
  st' = st ∧ search fuel v st = Ok (None, st).
Proof.
  unfold delete. intros (res & st1 & E1 & E2)%bind_inv.
  pose proof (ro_search fuel v st res st1 E1) as ->.
  destruct res as [a|].
  - by apply at_delete_helper in E2.
  - by injection E2 as <-.
Qed.

Lemma delete_false_changes_nothing_witness :
  delete 2 25 (state_after ops_10_20_30) = Ok (false, state_after ops_10_20_30)
  ∧ state_after ops_10_20_30 = state_after ops_10_20_30
  ∧ search 2 25 (state_after ops_10_20_30) = Ok (None, state_after ops_10_20_30).
Proof.
  assert (delete 2 25 (state_after ops_10_20_30)
          = Ok (false, state_after ops_10_20_30)) as Hrun
    by (vm_compute; reflexivity).
  split; [exact Hrun|]. exact (delete_false_changes_nothing 2 25 _ _ Hrun).
Defined.

(** ** The two repair procedures at the place where they are called *)

(** X18: insert-rebalance on a red leaf that has just been attached under
    a red parent, in a tree that was a red-black tree before: it returns,
    the result is a red-black tree again, and the in-order sequence is the
    one with the new leaf in place. *)
Theorem insert_rebalance_repairs (fuel : nat) (st : RedBlackTree)
    (k : list frame) (x : addr) (v : Z) :
  represents st (plug k (Node x Red Leaf v Leaf)) →
  rb (plug k Leaf) →
  fcolor <$> head k = Some Red →
  (length k ≤ fuel)%nat →
  ∃ st' t',
    insert_rebalance fuel x st = Ok (tt, st')
    ∧ represents st' t'
    ∧ rb t'
    ∧ inorder t' = ctx_left k ++ v :: ctx_right k.
Proof.
  intros Hrep Hrb Hred Hfuel.
  apply rb_plug in Hrb as (Htop & (_ & Hnr) & (_ & Hbal)). simpl in Htop, Hnr, Hbal.
  destruct (insert_rebalance_spec fuel k st x Leaf v Leaf)
    as ([] & st' & Hrun & t' & Hrep' & Hrb' & E); try done.
  - destruct k as [|f k]; [done|]. by rewrite (ctx_top_color_cons f k Red Black).
  - exists st', t'. split_and!; [done..|]. by rewrite E, inorder_plug.
Qed.

Lemma insert_rebalance_repairs_witness :
  represents
    (match insert_loop 3 5 1 (state_after ops_10_20_30) with
     | Ok (_, st) => st
     | _ => init
     end)
    (plug [FL 0 Red 10 Leaf; FL 1 Black 20 (Node 2 Red Leaf 30 Leaf)]
       (Node 3 Red Leaf 5 Leaf))
  ∧ rb (plug [FL 0 Red 10 Leaf; FL 1 Black 20 (Node 2 Red Leaf 30 Leaf)] Leaf)
  ∧ fcolor <$> head [FL 0 Red 10 Leaf; FL 1 Black 20 (Node 2 Red Leaf 30 Leaf)]
    = Some Red
  ∧ (length [FL 0 Red 10 Leaf; FL 1 Black 20 (Node 2 Red Leaf 30 Leaf)] ≤ 2)%nat
  ∧ ∃ st' t',
      insert_rebalance 2 3
        (match insert_loop 3 5 1 (state_after ops_10_20_30) with
         | Ok (_, st) => st
         | _ => init
         end)
      = Ok (tt, st')
      ∧ represents st' t'
      ∧ rb t'
      ∧ inorder t'
        = ctx_left [FL 0 Red 10 Leaf; FL 1 Black 20 (Node 2 Red Leaf 30 Leaf)]
          ++ 5 :: ctx_right [FL 0 Red 10 Leaf; FL 1 Black 20 (Node 2 Red Leaf 30 Leaf)].
Proof.
  assert (represents
    (match insert_loop 3 5 1 (state_after ops_10_20_30) with
     | Ok (_, st) => st
     | _ => init
     end)
    (plug [FL 0 Red 10 Leaf; FL 1 Black 20 (Node 2 Red Leaf 30 Leaf)]
       (Node 3 Red Leaf 5 Leaf))) as Hrep.
  { cbn [plug fill]. concrete_rep. }
  assert (rb (plug [FL 0 Red 10 Leaf; FL 1 Black 20 (Node 2 Red Leaf 30 Leaf)] Leaf))
    as Hrb by (cbn [plug fill]; concrete_rb).
  split; [exact Hrep|]. split; [exact Hrb|]. split; [reflexivity|].
  split; [simpl; lia|].
  apply insert_rebalance_repairs; [exact Hrep|exact Hrb|reflexivity|simpl; lia].
Defined.

(** X19: delete-helper on a node of a red-black tree returns True and
    leaves a red-black tree whose in-order sequence is the old one
    without the value of that node, taken out at the place of the node. *)
Theorem delete_helper_removes_node (fuel : nat) (st : RedBlackTree) (t : tree) (x : addr) :
  represents st t →
  rb t →
  x ∈ addrs t →
  (height t + 2 ≤ fuel)%nat →
  ∃ st' t' l1 vx l2,
    delete_helper fuel x st = Ok (true, st')
    ∧ represents st' t'
    ∧ rb t'
    ∧ (∃ n, heap st !! x = Some n ∧ data n = vx)
    ∧ inorder t = l1 ++ vx :: l2
    ∧ inorder t' = l1 ++ l2.
Proof.
  intros Hrep Hrb Hin Hfuel.
  destruct (addrs_decompose t x Hin) as (k & c & l & v & r & ->).
  destruct (delete_helper_spec fuel st k x c l v r Hfuel Hrep Hrb)
    as (b & st' & Hrun & -> & t' & Hrep' & Hrb' & E).
  exists st', t', (ctx_left k ++ inorder l), v, (inorder r ++ ctx_right k).
  split_and!; [done..| | |].
  - eexists. split; [exact (rep_lookup _ _ _ _ _ _ _ Hrep)|done].
  - rewrite inorder_plug. simpl. by rewrite <- !app_assoc.
  - by rewrite E, <- !app_assoc.
Qed.

Lemma delete_helper_removes_node_witness :
  represents (state_after ops_seven) tree_seven
  ∧ rb tree_seven
  ∧ 0%nat ∈ addrs tree_seven
  ∧ (height tree_seven + 2 ≤ 5)%nat
  ∧ ∃ st' t' l1 vx l2,
      delete_helper 5 0 (state_after ops_seven) = Ok (true, st')
      ∧ represents st' t'
      ∧ rb t'
      ∧ (∃ n, heap (state_after ops_seven) !! 0%nat = Some n ∧ data n = vx)
      ∧ inorder tree_seven = l1 ++ vx :: l2
      ∧ inorder t' = l1 ++ l2.
Proof.
  assert (0%nat ∈ addrs tree_seven) as Hin.
  { simpl. rewrite !elem_of_cons. auto. }
  split; [exact represents_seven|]. split; [exact rb_seven|]. split; [exact Hin|].
  split; [simpl; lia|].
  apply delete_helper_removes_node;
    [exact represents_seven|exact rb_seven|exact Hin|simpl; lia].
Defined.

